(** * canvasclash: the GameRoom durable object, embedded and verified

    The development follows [functions/gameroom.mjs] (class [GameRoom]):
    one room object owning the canvas, the score table, the session
    registry and the game clock.  JavaScript is single threaded, so every
    handler (a connection, a message, a close event, a timer tick) runs to
    completion against the room; each handler is a function from the room
    to the new room and the list of effects on sockets it performed.

    The older copy of the class in [worker.js] differs in the message
    listener; that listener is embedded in [Module WorkerJs]. *)

From Stdlib Require Import ZArith QArith Qround Ascii String List Lia Bool.
From stdpp Require Import base list strings.

Local Open Scope string_scope.
Local Open Scope Z_scope.
Local Open Scope list_scope.

(** ** Constants (gameroom.mjs, lines 5-14) *)

Definition GAME_DURATION_SECONDS : Z := 5 * 60.
Definition CANVAS_WIDTH : Z := 100.
Definition CANVAS_HEIGHT : Z := 100.
Definition MAX_PLAYERS_PER_ROOM : nat := 8.
Definition MIN_PLAYERS_TO_START : nat := 2.
Definition PLAYER_COLORS : list string :=
  [ "#FF0000"; "#00FF00"; "#0000FF"; "#FFFF00";
    "#FF00FF"; "#00FFFF"; "#FFA500"; "#800080" ].
Definition COOLDOWN_MS : Z := 1000.

(** The literal ['#FFFFFF'] of [initializeCanvas] and [handlePlacePixel]:
    the colour of a cell nobody has painted. *)
Definition WHITE : string := "#FFFFFF".

(** ** JavaScript values that reach the coordinate checks

    A JavaScript number is a finite double, an infinity or NaN.  A finite
    double is a rational, and the only operations the room performs on a
    coordinate are comparisons with 0 and 100 and its use as a property
    key, both exact; a finite number is therefore carried as its rational
    value. *)

Inductive JsNum : Type :=
| Finite (q : Q)
| PosInf
| NegInf
| NaN.

Inductive JsVal : Type :=
| JUndefined
| JNull
| JBool (b : bool)
| JNumber (n : JsNum)
| JString (s : string)
| JObject.

(** [n < k] and [n >= k] for an integer literal [k]; every comparison
    with NaN is false. *)
Definition num_lt (n : JsNum) (k : Z) : bool :=
  match n with
  | Finite q => negb (Qle_bool (inject_Z k) q)
  | NegInf => true
  | PosInf | NaN => false
  end.

Definition num_ge (n : JsNum) (k : Z) : bool :=
  match n with
  | Finite q => Qle_bool (inject_Z k) q
  | PosInf => true
  | NegInf | NaN => false
  end.

Definition is_integer (q : Q) : bool :=
  (Qnum q mod Zpos (Qden q) =? 0)%Z.

(** The array index a number denotes when used as a property key: a
    non-negative integer (both zeros denote index 0). *)
Definition as_index (n : JsNum) : option nat :=
  match n with
  | Finite q =>
      if is_integer q && (0 <=? Qnum q)%Z
      then Some (Z.to_nat (Qnum q / Zpos (Qden q)))
      else None
  | _ => None
  end.

(** Two numbers name the same property exactly when they are the same
    number (NaN names the property "NaN"). *)
Definition key_eqb (a b : JsNum) : bool :=
  match a, b with
  | Finite p, Finite q => Qeq_bool p q
  | PosInf, PosInf | NegInf, NegInf | NaN, NaN => true
  | _, _ => false
  end.

(** ** The canvas

    A row is a JavaScript array: its dense elements, and whatever other
    properties were assigned to it.  Reading a property that was never set
    yields [undefined] ([None]); assigning to one creates it. *)

Record Row : Type := mkRow {
  cells : list string;
  props : list (JsNum * string)
}.

Abbreviation Canvas := (list Row) (only parsing).

Fixpoint props_get (k : JsNum) (ps : list (JsNum * string)) : option string :=
  match ps with
  | [] => None
  | (k', v) :: rest => if key_eqb k k' then Some v else props_get k rest
  end.

Fixpoint props_set (k : JsNum) (v : string) (ps : list (JsNum * string))
  : list (JsNum * string) :=
  match ps with
  | [] => [(k, v)]
  | (k', v') :: rest =>
      if key_eqb k k' then (k', v) :: rest else (k', v') :: props_set k v rest
  end.

(** [row[x]] *)
Definition row_get (r : Row) (x : JsNum) : option string :=
  match as_index x with
  | Some i =>
      match cells r !! i with
      | Some c => Some c
      | None => props_get x (props r)
      end
  | None => props_get x (props r)
  end.

(** [row[x] = c] *)
Definition row_set (r : Row) (x : JsNum) (c : string) : Row :=
  match as_index x with
  | Some i =>
      if decide (i < length (cells r))%nat
      then mkRow (<[i := c]> (cells r)) (props r)
      else mkRow (cells r) (props_set x c (props r))
  | None => mkRow (cells r) (props_set x c (props r))
  end.

(** [canvasState[y]]: the outer array never receives a property of its
    own, so a key that is not one of its indices reads [undefined]. *)
Definition canvas_row (cv : Canvas) (y : JsNum) : option Row :=
  match as_index y with
  | Some j => cv !! j
  | None => None
  end.

(** [canvasState[y][x] = c], for a [y] whose row exists. *)
Definition canvas_set (cv : Canvas) (y x : JsNum) (c : string) : Canvas :=
  match as_index y with
  | Some j =>
      match cv !! j with
      | Some r => <[j := row_set r x c]> cv
      | None => cv
      end
  | None => cv
  end.

(** [initializeCanvas] (lines 54-64): the nested loops push
    [CANVAS_WIDTH] white cells into each of [CANVAS_HEIGHT] rows. *)
Definition initializeCanvas : Canvas :=
  replicate (Z.to_nat CANVAS_HEIGHT)
            (mkRow (replicate (Z.to_nat CANVAS_WIDTH) WHITE) []).

(** ** The score table

    [this.scores] is an object keyed by colour.  [Object.entries] lists
    the keys in insertion order, and [endGame] iterates in that order, so
    the table is an association list: assignment to an existing key
    replaces the value in place, assignment to a new key appends. *)

Abbreviation Scores := (list (string * Z)) (only parsing).

Fixpoint scores_get (k : string) (sc : Scores) : option Z :=
  match sc with
  | [] => None
  | (k', v) :: rest => if String.eqb k k' then Some v else scores_get k rest
  end.

Fixpoint scores_set (k : string) (v : Z) (sc : Scores) : Scores :=
  match sc with
  | [] => [(k, v)]
  | (k', v') :: rest =>
      if String.eqb k k' then (k', v) :: rest else (k', v') :: scores_set k v rest
  end.

(** Truthiness of [this.scores[k]]: defined and not zero. *)
Definition truthy (o : option Z) : bool :=
  match o with
  | Some v => negb (v =? 0)%Z
  | None => false
  end.

(** [this.scores[k] || 0] *)
Definition or_zero (o : option Z) : Z :=
  match o with
  | Some v => v
  | None => 0
  end.

(** The property key an [oldColor] read from the canvas denotes:
    [undefined] is the key "undefined". *)
Definition color_key (o : option string) : string :=
  match o with
  | Some c => c
  | None => "undefined"
  end.

(** ** Messages, effects, sessions, storage *)

Inductive ServerMsg : Type :=
| MsgError (message : string)
| MsgAssignInfo (player color : string)
| MsgGameState (canvas : Canvas) (table : Scores) (time : option Z)
| MsgScoreUpdate (table : Scores)
| MsgTimerUpdate (time : Z)
| MsgGameOver (winnerColor : option string) (table : Scores)
| MsgPixelUpdate (x y : JsNum) (color : string) (table : Scores).

(** What a handler did to sockets, in order.  [SendFailed] is a [send]
    that threw. *)
Inductive Effect : Type :=
| Sent (to : nat) (m : ServerMsg)
| SendFailed (to : nat) (m : ServerMsg)
| Closed (to : nat) (code : Z) (reason : string).

(** The session object [{ ws, playerId, color, lastPlacement }]. *)
Record Session : Type := mkSession {
  ws : nat;
  playerId : string;
  color : string;
  lastPlacement : Z
}.

(** The durable key-value store, one field per key the class writes. *)
Record Storage : Type := mkStorage {
  st_canvasState : option Canvas;
  st_scores : option Scores;
  st_timeLeft : option Z;
  st_gameStarted : option bool;
  st_gameOver : option bool;
  st_gameEndedDueToEmpty : option bool
}.

Definition empty_storage : Storage :=
  mkStorage None None None None None None.

(** The room object.  A session object is shared by the registry
    [this.sessions] and by the closures of its socket's listeners, and it
    is mutated in place ([session.lastPlacement = now]); the objects live
    in [heap], indexed by allocation order, and [sessions] holds
    references into it.  [removeSession] drops a reference, not the
    object. *)
Record GameRoom : Type := mkRoom {
  storage : Storage;
  heap : list Session;
  sessions : list nat;
  canvasState : Canvas;
  scores : Scores;
  timerInterval : bool;
  timerResolve : bool;
  timeLeft : Z;
  gameStarted : bool;
  gameOver : bool
}.

(** Field assignments [this.f = v]. *)
Definition set_storage (v : Storage) (s : GameRoom) : GameRoom :=
  mkRoom v (heap s) (sessions s) (canvasState s) (scores s)
         (timerInterval s) (timerResolve s) (timeLeft s) (gameStarted s) (gameOver s).
Definition set_heap (v : list Session) (s : GameRoom) : GameRoom :=
  mkRoom (storage s) v (sessions s) (canvasState s) (scores s)
         (timerInterval s) (timerResolve s) (timeLeft s) (gameStarted s) (gameOver s).
Definition set_sessions (v : list nat) (s : GameRoom) : GameRoom :=
  mkRoom (storage s) (heap s) v (canvasState s) (scores s)
         (timerInterval s) (timerResolve s) (timeLeft s) (gameStarted s) (gameOver s).
Definition set_canvasState (v : Canvas) (s : GameRoom) : GameRoom :=
  mkRoom (storage s) (heap s) (sessions s) v (scores s)
         (timerInterval s) (timerResolve s) (timeLeft s) (gameStarted s) (gameOver s).
Definition set_scores (v : Scores) (s : GameRoom) : GameRoom :=
  mkRoom (storage s) (heap s) (sessions s) (canvasState s) v
         (timerInterval s) (timerResolve s) (timeLeft s) (gameStarted s) (gameOver s).
Definition set_timer (interval resolve : bool) (s : GameRoom) : GameRoom :=
  mkRoom (storage s) (heap s) (sessions s) (canvasState s) (scores s)
         interval resolve (timeLeft s) (gameStarted s) (gameOver s).
Definition set_timeLeft (v : Z) (s : GameRoom) : GameRoom :=
  mkRoom (storage s) (heap s) (sessions s) (canvasState s) (scores s)
         (timerInterval s) (timerResolve s) v (gameStarted s) (gameOver s).
Definition set_gameStarted (v : bool) (s : GameRoom) : GameRoom :=
  mkRoom (storage s) (heap s) (sessions s) (canvasState s) (scores s)
         (timerInterval s) (timerResolve s) (timeLeft s) v (gameOver s).
Definition set_gameOver (v : bool) (s : GameRoom) : GameRoom :=
  mkRoom (storage s) (heap s) (sessions s) (canvasState s) (scores s)
         (timerInterval s) (timerResolve s) (timeLeft s) (gameStarted s) v.

(** [this.state.storage.put(key, value)], one definition per key. *)
Definition put_gameStarted (b : bool) (s : GameRoom) : GameRoom :=
  let st := storage s in
  set_storage (mkStorage (st_canvasState st) (st_scores st) (st_timeLeft st)
                         (Some b) (st_gameOver st) (st_gameEndedDueToEmpty st)) s.
Definition put_gameOver (b : bool) (s : GameRoom) : GameRoom :=
  let st := storage s in
  set_storage (mkStorage (st_canvasState st) (st_scores st) (st_timeLeft st)
                         (st_gameStarted st) (Some b) (st_gameEndedDueToEmpty st)) s.
Definition put_gameEndedDueToEmpty (b : bool) (s : GameRoom) : GameRoom :=
  let st := storage s in
  set_storage (mkStorage (st_canvasState st) (st_scores st) (st_timeLeft st)
                         (st_gameStarted st) (st_gameOver st) (Some b)) s.

(** [saveState] (lines 66-73): five puts of the current fields.  The
    store serialises a value when [put] is called, and while a storage
    operation is pending the runtime delivers no other event to the
    object, so the five puts are one step of the room. *)
Definition saveState (s : GameRoom) : GameRoom :=
  set_storage (mkStorage (Some (canvasState s)) (Some (scores s)) (Some (timeLeft s))
                         (Some (gameStarted s)) (Some (gameOver s))
                         (st_gameEndedDueToEmpty (storage s))) s.

(** ** Handlers

    A handler maps the room to the new room and the effects it had.
    [fails w] tells whether [send] on socket [w] throws; a socket cannot
    change state while a handler runs, so one oracle serves a whole
    handler.  Only [broadcast] sends on sockets other than the one whose
    event is being handled; a send on the socket that was just accepted
    or that just delivered a message is taken to succeed. *)

Definition Handler : Type := GameRoom -> GameRoom * list Effect.

Definition and_then (f g : Handler) : Handler :=
  fun s => let '(s1, e1) := f s in
           let '(s2, e2) := g s1 in
           (s2, (e1 ++ e2)%list).

Definition pure_step (f : GameRoom -> GameRoom) : Handler :=
  fun s => (f s, []).

Definition emit (e : Effect) : Handler :=
  fun s => (s, [e]).

Declare Scope handler_scope.
Delimit Scope handler_scope with handler.
Notation "f >> g" := (and_then f g)
  (at level 62, right associativity) : handler_scope.

(** [removeSession] (lines 175-177): [filter(s => s !== sessionToRemove)],
    a comparison of object identities. *)
Definition removeSession (sid : nat) (s : GameRoom) : GameRoom :=
  set_sessions (filter (fun r => r <> sid) (sessions s)) s.

(** [broadcast] (lines 272-282).  [forEach] walks the array that was
    [this.sessions] when the call began; [removeSession] in the [catch]
    replaces [this.sessions] by a filtered copy and leaves the array
    being walked alone. *)
Fixpoint broadcast_each (fails : nat -> bool) (m : ServerMsg)
         (arr : list nat) (s : GameRoom) : GameRoom * list Effect :=
  match arr with
  | [] => (s, [])
  | sid :: rest =>
      match heap s !! sid with
      | Some session =>
          if fails (ws session)
          then let '(s', es) := broadcast_each fails m rest (removeSession sid s) in
               (s', SendFailed (ws session) m :: es)
          else let '(s', es) := broadcast_each fails m rest s in
               (s', Sent (ws session) m :: es)
      | None => broadcast_each fails m rest s
      end
  end.

Definition broadcast (fails : nat -> bool) (m : ServerMsg) : Handler :=
  fun s => broadcast_each fails m (sessions s) s.

(** [startTimer] (lines 189-203) installs the interval and the keep-alive
    promise; the interval's callback is [tick] below.  [stopTimer]
    (lines 205-214) clears both. *)
Definition startTimer (s : GameRoom) : GameRoom := set_timer true true s.
Definition stopTimer (s : GameRoom) : GameRoom := set_timer false false s.

(** The winner loop of [endGame] (lines 222-234). *)
Record WinnerLoop : Type := mkLoop {
  winnerColor : option string;
  highScore : Z;
  isDraw : bool
}.

Definition winner_step (acc : WinnerLoop) (entry : string * Z) : WinnerLoop :=
  let '(c, score) := entry in
  if (highScore acc <? score)%Z then mkLoop (Some c) score false
  else if (score =? highScore acc)%Z then mkLoop (winnerColor acc) (highScore acc) true
  else acc.

Definition winner_loop (sc : Scores) : WinnerLoop :=
  fold_left winner_step sc (mkLoop None (-1) false).

Definition finalWinner (sc : Scores) : option string :=
  let r := winner_loop sc in
  if isDraw r then None else winnerColor r.

(** [endGame] (lines 216-240). *)
Definition endGame (fails : nat -> bool) : Handler :=
  (pure_step stopTimer >>
   pure_step (set_gameOver true) >>
   pure_step (set_gameStarted false) >>
   (fun s => broadcast fails (MsgGameOver (finalWinner (scores s)) (scores s)) s) >>
   pure_step (put_gameOver true) >>
   pure_step (put_gameStarted false) >>
   pure_step saveState)%handler.

(** The interval callback of [startTimer] (lines 191-201).  [%] is the
    remainder that takes the sign of the dividend. *)
Definition tick (fails : nat -> bool) : Handler :=
  fun s =>
    if (0 <? timeLeft s)%Z then
      (pure_step (fun s => set_timeLeft (timeLeft s - 1) s) >>
       (fun s => broadcast fails (MsgTimerUpdate (timeLeft s)) s) >>
       (fun s => if (Z.rem (timeLeft s) 10 =? 0)%Z then (saveState s, []) else (s, [])))%handler s
    else endGame fails s.

(** [startGame] (lines 179-187). *)
Definition startGame (fails : nat -> bool) : Handler :=
  fun s =>
    if gameStarted s then (s, [])
    else
      (pure_step (set_gameStarted true) >>
       pure_step (set_timeLeft GAME_DURATION_SECONDS) >>
       pure_step (put_gameStarted true) >>
       pure_step startTimer >>
       (fun s => broadcast fails (MsgTimerUpdate (timeLeft s)) s))%handler s.

(** [constructor] (lines 19-36) and [loadState] (lines 38-52).  The
    constructor's [canvasState = null] is the empty list here; [loadState]
    replaces it before any request is served.  A stored canvas or score
    table is an object, hence truthy, so [||] takes the default only when
    the key is absent; [??] likewise. *)
Definition constructor (st : Storage) : GameRoom :=
  mkRoom st [] [] [] [] false false GAME_DURATION_SECONDS false false.

Definition loadState (s : GameRoom) : GameRoom :=
  let st := storage s in
  let s1 := set_canvasState (default initializeCanvas (st_canvasState st)) s in
  let s2 := set_scores (default [] (st_scores st)) s1 in
  let s3 := set_timeLeft (default GAME_DURATION_SECONDS (st_timeLeft st)) s2 in
  let s4 := set_gameStarted (default false (st_gameStarted st)) s3 in
  let s5 := set_gameOver (default false (st_gameOver st)) s4 in
  if gameStarted s5 && negb (gameOver s5) && (0 <? timeLeft s5)%Z
     && negb (timerInterval s5)
  then startTimer s5
  else s5.

(** An activation of the object: the constructor, then [loadState] under
    [blockConcurrencyWhile]. *)
Definition activate (st : Storage) : GameRoom := loadState (constructor st).

(** [assignColor] (lines 96-104).  [r] is the value of
    [Math.floor(Math.random()*16777215)], a number below [16^6]; its
    base-16 text padded to six places is its six hexadecimal digits. *)
Definition hex_digit (d : Z) : ascii :=
  nth (Z.to_nat d) (list_ascii_of_string "0123456789abcdef") "0"%char.

Definition hex6 (r : Z) : string :=
  String "#"
    (string_of_list_ascii
       (map (fun k => hex_digit ((r / 16 ^ k) mod 16)) [5; 4; 3; 2; 1; 0])).

Definition usedColors (s : GameRoom) : list string :=
  omap (fun sid => color <$> heap s !! sid) (sessions s).

Definition assignColor (r : Z) (s : GameRoom) : string :=
  match List.find (fun c => negb (existsb (String.eqb c) (usedColors s))) PLAYER_COLORS with
  | Some c => c
  | None => hex6 r
  end.

(** [handleSession] (lines 106-173), up to the registration of the
    listeners; the listeners are [onMessage] and [closeOrErrorHandler]
    below. *)
Definition handleSession (fails : nat -> bool) (w : nat) (pid c : string) : Handler :=
  fun s =>
    if (MAX_PLAYERS_PER_ROOM <=? length (sessions s))%nat then
      (s, [Sent w (MsgError "Game room is full."); Closed w 1008 "Room full"])
    else if gameOver s then
      (s, [Sent w (MsgError "Game has already ended."); Closed w 1000 "Game ended"])
    else
      let sid := length (heap s) in
      (pure_step (set_heap (heap s ++ [mkSession w pid c 0])%list) >>
       pure_step (fun s => set_sessions (sessions s ++ [sid])%list s) >>
       pure_step (fun s => if truthy (scores_get c (scores s)) then s
                           else set_scores (scores_set c 0 (scores s)) s) >>
       emit (Sent w (MsgAssignInfo pid c)) >>
       (fun s => emit (Sent w (MsgGameState (canvasState s) (scores s)
                                 (if gameStarted s then Some (timeLeft s) else None))) s) >>
       (fun s => broadcast fails (MsgScoreUpdate (scores s)) s) >>
       (fun s => if negb (gameStarted s)
                    && (MIN_PLAYERS_TO_START <=? length (sessions s))%nat
                 then startGame fails s else (s, [])))%handler s.

(** [fetch] (lines 76-94) for a WebSocket upgrade: the colour is chosen
    by [assignColor] before [handleSession] runs.  A request that is not
    an upgrade is answered 426 and does not touch the room. *)
Definition fetch (fails : nat -> bool) (w : nat) (pid : string) (r : Z) : Handler :=
  fun s => handleSession fails w pid (assignColor r s) s.

(** ** Placement *)

(** [message.payload]: [null] or [undefined], on which the destructuring
    [const { x, y } = payload] throws, or a value whose [x] and [y] are
    read (a missing field reads [undefined]). *)
Inductive Payload : Type :=
| PayloadNullish
| PayloadFields (x y : JsVal).

(** How a call ended: it returned, or it threw a [TypeError]. *)
Inductive Completion (A : Type) : Type :=
| Returned (a : A)
| Threw.
Arguments Returned {A} a.
Arguments Threw {A}.

(** [oldColor === newColor] *)
Definition same_color (old : option string) (new : string) : bool :=
  match old with
  | Some c => String.eqb c new
  | None => false
  end.

(** [handlePlacePixel] (lines 242-270).  [sid] is the reference to the
    session object and [session] its contents when the call begins.
    Both places where the call can throw precede every assignment, so
    [Threw] leaves the room as it was. *)
Definition handlePlacePixel (fails : nat -> bool) (sid : nat) (session : Session)
           (payload : Payload) (now : Z) (s : GameRoom)
  : Completion (GameRoom * list Effect) :=
  match payload with
  | PayloadNullish => Threw
  | PayloadFields (JNumber x) (JNumber y) =>
      if num_lt x 0 || num_ge x CANVAS_WIDTH || num_lt y 0 || num_ge y CANVAS_HEIGHT then
        Returned (s, [Sent (ws session) (MsgError "Invalid coordinates.")])
      else if (now - lastPlacement session <? COOLDOWN_MS)%Z then
        Returned (s, [])
      else
        match canvas_row (canvasState s) y with
        | None => Threw
        | Some row =>
            let oldColor := row_get row x in
            let newColor := color session in
            if same_color oldColor newColor then Returned (s, [])
            else
              let s1 := set_canvasState (canvas_set (canvasState s) y x newColor) s in
              let s2 := set_heap (<[sid := mkSession (ws session) (playerId session)
                                                     (color session) now]> (heap s1)) s1 in
              let s3 :=
                if negb (same_color oldColor WHITE)
                   && truthy (scores_get (color_key oldColor) (scores s2))
                then set_scores
                       (scores_set (color_key oldColor)
                          (Z.max 0 (or_zero (scores_get (color_key oldColor) (scores s2)) - 1))
                          (scores s2)) s2
                else s2 in
              let s4 := set_scores
                          (scores_set newColor
                             (or_zero (scores_get newColor (scores s3)) + 1)
                             (scores s3)) s3 in
              let '(s5, es) := broadcast fails (MsgPixelUpdate x y newColor (scores s4)) s4 in
              Returned (saveState s5, es)
        end
  | PayloadFields _ _ =>
      Returned (s, [Sent (ws session) (MsgError "Invalid coordinates.")])
  end.

(** What a socket delivers: text on which [JSON.parse] throws or whose
    value is [null] (reading [.type] throws); a value whose [type] is not
    ['placePixel']; or a placement request. *)
Inductive ClientMsg : Type :=
| InUnreadable
| InOther
| InPlacePixel (payload : Payload).

(** The ['message'] listener of [handleSession] (lines 148-160). *)
Definition onMessage (fails : nat -> bool) (sid : nat) (m : ClientMsg) (now : Z) : Handler :=
  fun s =>
    match heap s !! sid with
    | None => (s, [])
    | Some session =>
        match m with
        | InUnreadable => (s, [Sent (ws session) (MsgError "Invalid message format.")])
        | InOther => (s, [])
        | InPlacePixel payload =>
            if negb (gameStarted s) || gameOver s then (s, [])
            else
              match handlePlacePixel fails sid session payload now s with
              | Returned r => r
              | Threw => (s, [Sent (ws session) (MsgError "Invalid message format.")])
              end
        end
    end.

(** [closeOrErrorHandler] (lines 162-170). *)
Definition closeOrErrorHandler (sid : nat) : Handler :=
  fun s =>
    let s1 := removeSession sid s in
    if (length (sessions s1) =? 0)%nat && gameStarted s1
    then (put_gameEndedDueToEmpty true (stopTimer s1), [])
    else (s1, []).

(** The ['message'] listener of the class as [worker.js] has it
    (worker.js, lines 163-180); [handlePlacePixel] is the same text in
    both files. *)
Module WorkerJs.

Definition onMessage (fails : nat -> bool) (sid : nat) (m : ClientMsg) (now : Z) : Handler :=
  fun s =>
    match heap s !! sid with
    | None => (s, [])
    | Some session =>
        match m with
        | InUnreadable => (s, [Sent (ws session) (MsgError "Invalid message format.")])
        | InOther => (s, [])
        | InPlacePixel payload =>
            if negb (gameStarted s) || gameOver s then
              (s, [Sent (ws session) (MsgError "Game not active.")])
            else
              match handlePlacePixel fails sid session payload now s with
              | Returned r => r
              | Threw => (s, [Sent (ws session) (MsgError "Invalid message format.")])
              end
        end
    end.

End WorkerJs.

(** ** The room as a transition system

    One event is one handler run.  A tick exists only while the interval
    is installed, and a message or close event only for a session object
    that was created.  [EReactivate] is the eviction of the object
    followed by its next activation from what the store holds.  The
    object is activated by a request routed to it, and the routers
    (functions/websocket.js, worker.js) forward WebSocket upgrades only,
    so an activation is always followed, in the same request, by the
    [fetch] that hands the new socket to [handleSession]. *)
Inductive Event : Type :=
| EConnect (w : nat) (pid : string) (r : Z)
| EMessage (sid : nat) (m : ClientMsg) (now : Z)
| EClose (sid : nat)
| ETick
| EReactivate (w : nat) (pid : string) (r : Z).

Definition step (fails : nat -> bool) (e : Event) : Handler :=
  fun s =>
    match e with
    | EConnect w pid r => fetch fails w pid r s
    | EMessage sid m now => onMessage fails sid m now s
    | EClose sid =>
        match heap s !! sid with
        | Some _ => closeOrErrorHandler sid s
        | None => (s, [])
        end
    | ETick => if timerInterval s then tick fails s else (s, [])
    | EReactivate w pid r => fetch fails w pid r (activate (storage s))
    end.

(** The states the room reaches from its first activation through events
    that satisfy [ok]. *)
Inductive reachable_by (ok : Event -> Prop) : GameRoom -> Prop :=
| reach_first : reachable_by ok (activate empty_storage)
| reach_step s fails e :
    reachable_by ok s -> ok e -> reachable_by ok (fst (step fails e s)).

Definition reachable : GameRoom -> Prop := reachable_by (fun _ => True).

(** Running a list of events, each with its oracle. *)
Definition run (evs : list ((nat -> bool) * Event)) (s : GameRoom) : GameRoom :=
  fold_left (fun s fe => fst (step (fst fe) (snd fe) s)) evs s.

(** ** Observations used by the statements *)

(** The number of cells of colour [c] in a row, and on the grid. *)
Definition count_color (c : string) (cs : list string) : nat :=
  length (filter (fun x => x = c) cs).

Definition painted (c : string) (cv : Canvas) : nat :=
  sum_list_with (fun r => count_color c (cells r)) cv.

(** The number of unset (white) cells of the grid. *)
Definition unset_cells (cv : Canvas) : nat := painted WHITE cv.

(** [sum(ScoreTable.values)] *)
Fixpoint sum_scores (sc : Scores) : Z :=
  match sc with
  | [] => 0
  | (_, v) :: rest => v + sum_scores rest
  end.

(** The cell at integer coordinates: row [y], column [x]. *)
Definition cell (cv : Canvas) (y x : nat) : option string :=
  r ← cv !! y; cells r !! x.

(** Whether [send] throws on the socket of the session object [sid]. *)
Definition send_throws (fails : nat -> bool) (hp : list Session) (sid : nat) : bool :=
  match hp !! sid with
  | Some session => fails (ws session)
  | None => false
  end.

(** One delivery attempt of [m] per session of [arr], in order. *)
Definition attempts (fails : nat -> bool) (m : ServerMsg)
           (hp : list Session) (arr : list nat) : list Effect :=
  omap (fun sid =>
          (fun session => if fails (ws session)
                          then SendFailed (ws session) m
                          else Sent (ws session) m) <$> hp !! sid) arr.

(** The registered sessions on whose socket [send] does not throw. *)
Definition survivors (fails : nat -> bool) (s : GameRoom) : list nat :=
  filter (fun r => send_throws fails (heap s) r = false) (sessions s).

(** The score assignments of [handlePlacePixel] (lines 263-266) for a
    cell that held [old] and receives [new]. *)
Definition placed_scores (old : option string) (new : string) (sc : Scores) : Scores :=
  let sc1 :=
    if negb (same_color old WHITE) && truthy (scores_get (color_key old) sc)
    then scores_set (color_key old)
           (Z.max 0 (or_zero (scores_get (color_key old) sc) - 1)) sc
    else sc in
  scores_set new (or_zero (scores_get new sc1) + 1) sc1.

(** The room after [handlePlacePixel] has applied a placement (lines
    260-269) at [(x, y)], where the property read was [old]. *)
Definition placed (fails : nat -> bool) (sid : nat) (session : Session)
           (x y : JsNum) (old : option string) (now : Z) (s : GameRoom) : GameRoom :=
  let s4 :=
    set_scores (placed_scores old (color session) (scores s))
      (set_heap (<[sid := mkSession (ws session) (playerId session)
                                    (color session) now]> (heap s))
         (set_canvasState (canvas_set (canvasState s) y x (color session)) s)) in
  saveState (set_sessions (survivors fails s4) s4).

(** 1 when [P] holds, else 0. *)
Definition indicator (P : Prop) `{!Decision P} : nat :=
  if decide P then 1%nat else 0%nat.

(** The coordinate test of [handlePlacePixel] read positively. *)
Definition in_range (x y : JsNum) : bool :=
  negb (num_lt x 0 || num_ge x CANVAS_WIDTH || num_lt y 0 || num_ge y CANVAS_HEIGHT).

Definition passes_validation (p : Payload) : bool :=
  match p with
  | PayloadFields (JNumber x) (JNumber y) => in_range x y
  | _ => false
  end.

(** A number that is an integer (an infinity never passes the range
    test, so it is harmless). *)
Definition num_integral (n : JsNum) : bool :=
  match n with
  | Finite q => is_integer q
  | PosInf | NegInf => true
  | NaN => false
  end.

(** An event whose placement request, if it is one, carries integer
    coordinates. *)
Definition integral_coordinates (e : Event) : Prop :=
  match e with
  | EMessage _ (InPlacePixel (PayloadFields (JNumber x) (JNumber y))) _ =>
      num_integral x = true /\ num_integral y = true
  | _ => True
  end.

(** A score table as an object has it: distinct keys; and as the room
    keeps it: no negative score. *)
Definition scores_wf (sc : Scores) : Prop :=
  NoDup (map fst sc) /\ Forall (fun e : string * Z => 0 <= snd e) sc.

(** [c] holds a score strictly above every other colour's. *)
Definition strictly_highest (sc : Scores) (c : string) : Prop :=
  exists v, In (c, v) sc /\
            forall c' v', In (c', v') sc -> c' <> c -> v' < v.

(** Two different colours both hold the highest score. *)
Definition tied_at_top (sc : Scores) : Prop :=
  exists c1 c2 v, c1 <> c2 /\ In (c1, v) sc /\ In (c2, v) sc /\
                  forall c' v', In (c', v') sc -> v' <= v.

(** The grid has its dimensions, no colour is painted on more cells than
    its score, and scores and white cells add up to the grid area. *)
Definition accounted (cv : Canvas) (sc : Scores) : Prop :=
  length cv = Z.to_nat CANVAS_HEIGHT /\
  Forall (fun r => length (cells r) = Z.to_nat CANVAS_WIDTH) cv /\
  (forall c, c <> WHITE -> Z.of_nat (painted c cv) <= or_zero (scores_get c sc)) /\
  sum_scores sc + Z.of_nat (unset_cells cv) = CANVAS_WIDTH * CANVAS_HEIGHT.

(** What every reachable room satisfies. *)
Record room_inv (s : GameRoom) : Prop := mkInv {
  inv_capacity : (length (sessions s) <= MAX_PLAYERS_PER_ROOM)%nat;
  inv_colors : Forall (fun session => color session <> WHITE) (heap s);
  inv_saved : default initializeCanvas (st_canvasState (storage s)) = canvasState s;
  inv_scores : scores_wf (scores s);
  inv_saved_scores : scores_wf (default [] (st_scores (storage s)))
}.

(** What every room reached through integer coordinates satisfies
    besides. *)
Record room_accounted (s : GameRoom) : Prop := mkAcc {
  acc_now : accounted (canvasState s) (scores s);
  acc_saved : accounted (canvasState s) (default [] (st_scores (storage s)))
}.

(** While the interval is installed the game is not over and the score
    table has an entry. *)
Definition clock_inv (s : GameRoom) : Prop :=
  timerInterval s = true -> gameOver s = false /\ scores s <> [].

(** Every reference in the registry denotes a session object. *)
Definition refs_valid (s : GameRoom) : Prop :=
  forall sid, sid ∈ sessions s -> (sid < length (heap s))%nat.

(** ** Scenarios used as concrete instances *)

(** No send throws. *)
Definition no_failure : nat -> bool := fun _ => false.

(** [{type: 'placePixel', payload: {x, y}}] with two finite numbers. *)
Definition pixel (x y : Q) : ClientMsg :=
  InPlacePixel (PayloadFields (JNumber (Finite x)) (JNumber (Finite y))).

(** One player, connected to a fresh room: the game has not started. *)
Definition one_player : GameRoom :=
  run [(no_failure, EConnect 10%nat "alice" 0)] (activate empty_storage).

(** Two players: the game is running; they hold red and lime. *)
Definition two_players : GameRoom :=
  run [(no_failure, EConnect 11%nat "bob" 0)] one_player.

(** The first player has painted cell (3, 4) at time 5000. *)
Definition after_first_pixel : GameRoom :=
  run [(no_failure, EMessage 0%nat (pixel 3 4) 5000)] two_players.

(** Eight players. *)
Definition eight_players : GameRoom :=
  run [(no_failure, EConnect 12%nat "carol" 0); (no_failure, EConnect 13%nat "dave" 0);
       (no_failure, EConnect 14%nat "erin" 0); (no_failure, EConnect 15%nat "frank" 0);
       (no_failure, EConnect 16%nat "grace" 0); (no_failure, EConnect 17%nat "heidi" 0)]
      two_players.

(** The first player has sent [{x: 1.5, y: 0}] at time 5000. *)
Definition after_fractional_pixel : GameRoom :=
  run [(no_failure, EMessage 0%nat (pixel (3 # 2) 0) 5000)] two_players.

(** The score tables of the examples: red, blue and green are the
    palette's ['#FF0000'], ['#0000FF'] and ['#00FF00']. *)
Definition scores_draw : Scores := [("#FF0000", 5); ("#0000FF", 5); ("#00FF00", 3)].
Definition scores_red_wins : Scores := [("#FF0000", 6); ("#0000FF", 5)].

(** The persisted snapshot [{started: true, over: false, remaining: 120}]. *)
Definition snapshot_120 : Storage :=
  mkStorage None None (Some 120) (Some true) (Some false) None.

(** ** What the store holds, relative to the room *)

(** The stored flags are the room's; the stored clock is the room's or
    at most the last multiple of ten seconds above it; the stored score
    values are the room's; and a finished game has been saved. *)
Record store_inv (s : GameRoom) : Prop := mkStoreInv {
  si_started : default false (st_gameStarted (storage s)) = gameStarted s;
  si_over : default false (st_gameOver (storage s)) = gameOver s;
  si_timer : timerInterval s = true -> gameStarted s = true /\ gameOver s = false;
  si_range : 0 <= timeLeft s <= GAME_DURATION_SECONDS;
  si_stored : timeLeft s <= default GAME_DURATION_SECONDS (st_timeLeft (storage s))
              <= GAME_DURATION_SECONDS;
  si_recent : forall m,
      timeLeft s <= m < default GAME_DURATION_SECONDS (st_timeLeft (storage s)) ->
      Z.rem m 10 <> 0;
  si_fresh : gameStarted s = false -> gameOver s = false ->
             timeLeft s = GAME_DURATION_SECONDS;
  si_scores : forall k,
      or_zero (scores_get k (default [] (st_scores (storage s))))
      = or_zero (scores_get k (scores s));
  si_final : gameOver s = true ->
             gameStarted s = false /\ timerInterval s = false /\
             st_scores (storage s) = Some (scores s)
}.

(** An event that is a message from a client. *)
Definition is_message (e : Event) : bool :=
  match e with
  | EMessage _ _ _ => true
  | _ => false
  end.

(** An event that is a re-activation of the object. *)
Definition is_reactivation (e : Event) : bool :=
  match e with
  | EReactivate _ _ _ => true
  | _ => false
  end.

(** The first player has painted a cell and left; a new player arrives. *)
Definition after_reconnection : GameRoom :=
  run [(no_failure, EClose 0%nat); (no_failure, EConnect 20%nat "zoe" 0)]
      after_first_pixel.

(** The object is evicted 7 seconds after the first pixel and activated
    again by a new connection. *)
Definition seven_ticks_later : GameRoom :=
  run (replicate 7 (no_failure, ETick)) after_first_pixel.

(** A game played to its end: the clock of [after_first_pixel] runs down
    from 300 and one more tick ends the game. *)
Definition finished_game : GameRoom :=
  run (replicate 301 (no_failure, ETick)) after_first_pixel.

(** The registered sessions hold pairwise different palette colours. *)
Definition palette_inv (s : GameRoom) : Prop :=
  NoDup (usedColors s) /\ Forall (fun c => c ∈ PLAYER_COLORS) (usedColors s).


(** The score table is the tally of the canvas: besides [accounted], the
    table has no entry for white and every other colour's score is the
    number of cells of that colour. *)
Definition tallied (cv : Canvas) (sc : Scores) : Prop :=
  accounted cv sc /\ scores_get WHITE sc = None /\
  forall c, c <> WHITE -> or_zero (scores_get c sc) = Z.of_nat (painted c cv).


(** Before the game has started at most one session is registered and
    nothing has been painted. *)
Definition lobby_inv (s : GameRoom) : Prop :=
  gameStarted s = false -> gameOver s = false ->
  (length (sessions s) <= 1)%nat /\ canvasState s = initializeCanvas /\
  forall k, or_zero (scores_get k (scores s)) = 0.


(** Both players of [after_first_pixel] have left. *)
Definition emptied_room : GameRoom :=
  run [(no_failure, EClose 0%nat); (no_failure, EClose 1%nat)] after_first_pixel.

(** The clock of [two_players] has run down to 0 and, before the next
    tick, the object is evicted and activated again by a new connection. *)
Definition stalled_at_zero : GameRoom :=
  run (replicate 300 (no_failure, ETick) ++ [(no_failure, EReactivate 40%nat "ann" 0)])
      two_players.


(** The number [n] as a coordinate of a placement request. *)
Definition coord (n : nat) : JsNum := Finite (inject_Z (Z.of_nat n)).

(** The grid has [CANVAS_HEIGHT] rows of [CANVAS_WIDTH] cells. *)
Definition canvas_dims (cv : Canvas) : Prop :=
  length cv = Z.to_nat CANVAS_HEIGHT /\
  Forall (fun r => length (cells r) = Z.to_nat CANVAS_WIDTH) cv.


(** ** Requests and the routers

    What the routers and [GameRoom.fetch] read of a request: the path of
    its URL, its Upgrade header and the search parameters of its URL.  A
    response is its status and, for 101, the client end of the socket
    pair, named by the number of the pair. *)
Record Request : Type := mkRequest {
  pathname : string;
  upgradeHeader : option string;
  searchParams : list (string * string)
}.

Record Response : Type := mkResponse {
  status : nat;
  webSocket : option nat
}.

(** [searchParams.get(k)]: the first value of [k], or null. *)
Definition params_get (k : string) (ps : list (string * string)) : option string :=
  snd <$> List.find (fun p => String.eqb (fst p) k) ps.

(** [searchParams.set(k, v)]: the first [k] takes the value [v] and every
    other [k] is deleted; a missing [k] is appended. *)
Fixpoint params_set (k v : string) (ps : list (string * string))
  : list (string * string) :=
  match ps with
  | [] => [(k, v)]
  | (k', v') :: rest =>
      if String.eqb k' k then (k, v) :: filter (fun p => fst p <> k) rest
      else (k', v') :: params_set k v rest
  end.

(** [!upgradeHeader || upgradeHeader !== 'websocket'], negated. *)
Definition is_upgrade (h : option string) : bool :=
  match h with
  | Some v => negb (String.eqb v EmptyString) && String.eqb v "websocket"
  | None => false
  end.

(** [a || b] for [a] a string or null. *)
Definition string_or (a : option string) (b : string) : string :=
  match a with
  | Some v => if String.eqb v EmptyString then b else v
  | None => b
  end.

(** What serving a request leaves: the room, the effects on sockets, and
    the response. *)
Definition Served : Type := (GameRoom * list Effect) * Response.

(** [GameRoom.fetch] (gameroom.mjs, lines 76-94) on any request.  [w] is
    the socket pair it creates, [uuid] what [crypto.randomUUID()] returns
    there, [r] the random draw of [assignColor]. *)
Definition GameRoom_fetch (fails : nat -> bool) (w : nat) (uuid : string) (r : Z)
           (req : Request) (s : GameRoom) : Served :=
  if is_upgrade (upgradeHeader req)
  then (fetch fails w (string_or (params_get "playerId" (searchParams req)) uuid) r s,
        mkResponse 101 (Some w))
  else ((s, []), mkResponse 426 None).

(** [roomStub.fetch(url, request)]: the runtime delivers the request to
    the object, activating it first from the store when it is not in
    memory. *)
Definition stub_fetch (evicted : bool) (room_fetch : Request -> GameRoom -> Served)
           (req : Request) (s : GameRoom) : Served :=
  room_fetch req (if evicted then activate (storage s) else s).

(** [onRequest] of functions/websocket.js.  [uuid] is the player id it
    draws.  The request forwarded has the new path and player id and the
    headers of the incoming one.  The [catch] answers 500 when the stub
    throws; a room's [fetch] as embedded here returns. *)
Definition onRequest (evicted : bool) (room_fetch : Request -> GameRoom -> Served)
           (uuid : string) (req : Request) (s : GameRoom) : Served :=
  if is_upgrade (upgradeHeader req)
  then stub_fetch evicted room_fetch
         (mkRequest "/internal/do/connect" (upgradeHeader req)
                    (params_set "playerId" uuid (searchParams req))) s
  else ((s, []), mkResponse 426 None).

(** The main Worker of worker.js: [handleWebSocketConnection]
    (lines 406-458), whose [catch] likewise answers 500 when the stub
    throws, and [fetch] (lines 353-405).  A response built without a
    status has status 200. *)
Definition handleWebSocketConnection (evicted : bool)
           (room_fetch : Request -> GameRoom -> Served)
           (uuid : string) (req : Request) (s : GameRoom) : Served :=
  if is_upgrade (upgradeHeader req)
  then stub_fetch evicted room_fetch
         (mkRequest "/websocket/connect" (upgradeHeader req)
                    (params_set "playerId" uuid (searchParams req))) s
  else ((s, []), mkResponse 426 None).

Definition Worker_fetch (evicted : bool) (room_fetch : Request -> GameRoom -> Served)
           (uuid : string) (req : Request) (s : GameRoom) : Served :=
  if String.eqb (pathname req) "/websocket"
  then handleWebSocketConnection evicted room_fetch uuid req s
  else if String.eqb (pathname req) "/"
  then ((s, []), mkResponse 200 None)
  else if String.eqb (pathname req) "/client.js" || String.eqb (pathname req) "/style.css"
  then ((s, []), mkResponse 200 None)
  else ((s, []), mkResponse 404 None).

(** ** The client (client.js)

    [Math.floor] of a number, and what [JSON.stringify] followed by
    [JSON.parse] makes of a number: NaN and the infinities become
    [null]. *)
Definition js_floor (n : JsNum) : JsNum :=
  match n with
  | Finite q => Finite (inject_Z (Qfloor q))
  | _ => n
  end.

Definition json_number (n : JsNum) : JsVal :=
  match n with
  | Finite q => JNumber (Finite q)
  | _ => JNull
  end.

(** [handleCanvasClick] (client.js): the message it sends, if any.
    [qx] and [qy] are the numbers [canvasX / PIXEL_SIZE] and
    [canvasY / PIXEL_SIZE]. *)
Definition handleCanvasClick (connected isOnCooldown : bool) (qx qy : JsNum)
  : option ClientMsg :=
  if negb connected then None
  else if isOnCooldown then None
  else
    let pixelX := js_floor qx in
    let pixelY := js_floor qy in
    if num_lt pixelX 0 || num_ge pixelX CANVAS_WIDTH
       || num_lt pixelY 0 || num_ge pixelY CANVAS_HEIGHT
    then None
    else Some (InPlacePixel (PayloadFields (json_number pixelX) (json_number pixelY))).

(** An effect that is an error message. *)
Definition is_error (e : Effect) : bool :=
  match e with
  | Sent _ (MsgError _) | SendFailed _ (MsgError _) => true
  | _ => false
  end.

(** A request as a browser's [new WebSocket(url)] sends it. *)
Definition browser_request : Request :=
  mkRequest "/websocket" (Some "websocket") [("playerId", "mallory")].


(** The class as worker.js has it (worker.js, lines 76-160): [fetch]
    takes the colour from the URL parameter [color] when there is one,
    and [handleSession] makes the same assignments to the room as in
    gameroom.mjs, in the same order, and differs in the messages it
    sends to the new socket only; the room it leaves is therefore given
    without the effects. *)
Module WorkerJsRoom.


End WorkerJsRoom.

(** ** Properties of the data structures *)

Lemma filter_iff_in {A} (P Q : A -> Prop)
      `{!forall x, Decision (P x), !forall x, Decision (Q x)} (l : list A) :
  (forall x, x ∈ l -> (P x <-> Q x)) -> filter P l = filter Q l.
Proof.
  induction l as [|a l IH]; intros Hl; [done|].
  rewrite !filter_cons.
  assert (Ha : P a <-> Q a) by (apply Hl; left).
  rewrite IH by (intros x Hx; apply Hl; by right).
  destruct (decide (P a)), (decide (Q a)); tauto.
Qed.

Lemma filter_all {A} (P : A -> Prop) `{!forall x, Decision (P x)} (l : list A) :
  (forall x, x ∈ l -> P x) -> filter P l = l.
Proof.
  induction l as [|a l IH]; intros Hl; [done|].
  rewrite filter_cons_True by (apply Hl; left).
  rewrite IH; [done|]. intros x Hx. apply Hl. by right.
Qed.

Lemma set_sessions_id s : set_sessions (sessions s) s = s.
Proof. by destruct s. Qed.

Lemma set_sessions_twice v w s :
  set_sessions v (set_sessions w s) = set_sessions v s.
Proof. reflexivity. Qed.

Section Broadcast.
Variable fails : nat -> bool.
Variable m : ServerMsg.

Lemma broadcast_each_eq arr s :
  broadcast_each fails m arr s =
  (set_sessions
     (filter (fun r => r ∉ filter (fun a => send_throws fails (heap s) a = true) arr)
             (sessions s)) s,
   attempts fails m (heap s) arr).
Proof.
  revert s. induction arr as [|sid rest IH]; intros s.
  - cbn. f_equal. rewrite <- (set_sessions_id s) at 1. f_equal.
    symmetry. apply filter_all. intros x _. apply not_elem_of_nil.
  - cbn [broadcast_each attempts omap list_omap].
    fold (attempts fails m (heap s) rest).
    destruct (heap s !! sid) as [session|] eqn:Hs; cbn [fmap option_fmap option_map].
    + destruct (fails (ws session)) eqn:Hf.
      * rewrite IH.
        change (heap (removeSession sid s)) with (heap s).
        change (sessions (removeSession sid s))
          with (filter (fun r => r <> sid) (sessions s)).
        unfold removeSession. rewrite set_sessions_twice.
        f_equal. f_equal.
        rewrite filter_cons_True by (unfold send_throws; by rewrite Hs).
        rewrite list_filter_filter. apply list_filter_iff. intros r.
        rewrite not_elem_of_cons. tauto.
      * rewrite IH. f_equal. f_equal.
        rewrite filter_cons_False; [done|].
        unfold send_throws. rewrite Hs. congruence.
    + rewrite IH. f_equal. f_equal.
      rewrite filter_cons_False; [done|].
      unfold send_throws. by rewrite Hs.
Qed.

(** [broadcast] in closed form: the registry loses exactly the sessions
    whose send threw, nothing else of the room changes, and every session
    registered when the call began is attempted once. *)
Lemma broadcast_eq s :
  broadcast fails m s =
  (set_sessions (survivors fails s) s, attempts fails m (heap s) (sessions s)).
Proof.
  unfold broadcast, survivors. rewrite broadcast_each_eq. f_equal. f_equal.
  apply filter_iff_in. intros r Hr. rewrite list_elem_of_filter.
  destruct (send_throws fails (heap s) r); split.
  - intros Hn. exfalso. apply Hn. by split.
  - discriminate.
  - reflexivity.
  - intros _ [Hd _]. discriminate Hd.
Qed.

End Broadcast.

(** ** The handlers in closed form *)

Ltac through_broadcast :=
  unfold and_then, pure_step, emit; cbn beta iota zeta;
  repeat (rewrite broadcast_eq; cbn beta iota zeta).

Lemma startGame_eq fails s :
  gameStarted s = false ->
  startGame fails s =
  (set_sessions (survivors fails s)
     (startTimer (put_gameStarted true
        (set_timeLeft GAME_DURATION_SECONDS (set_gameStarted true s)))),
   attempts fails (MsgTimerUpdate GAME_DURATION_SECONDS) (heap s) (sessions s)).
Proof.
  intros Hg. unfold startGame. rewrite Hg. through_broadcast. reflexivity.
Qed.

Lemma endGame_eq fails s :
  endGame fails s =
  (saveState (put_gameStarted false (put_gameOver true
     (set_sessions (survivors fails s)
        (set_gameStarted false (set_gameOver true (stopTimer s)))))),
   attempts fails (MsgGameOver (finalWinner (scores s)) (scores s))
            (heap s) (sessions s)).
Proof.
  unfold endGame. through_broadcast. cbn. by rewrite app_nil_r.
Qed.

Lemma tick_eq fails s :
  tick fails s =
  if (0 <? timeLeft s)%Z then
    let s1 := set_sessions (survivors fails s) (set_timeLeft (timeLeft s - 1) s) in
    (if (Z.rem (timeLeft s - 1) 10 =? 0)%Z then saveState s1 else s1,
     attempts fails (MsgTimerUpdate (timeLeft s - 1)) (heap s) (sessions s))
  else endGame fails s.
Proof.
  unfold tick. destruct (0 <? timeLeft s)%Z; [|done].
  through_broadcast. cbn.
  destruct (Z.rem (timeLeft s - 1) 10 =? 0)%Z; by rewrite app_nil_r.
Qed.

Lemma handleSession_eq fails w pid c s :
  (length (sessions s) < MAX_PLAYERS_PER_ROOM)%nat ->
  gameOver s = false ->
  handleSession fails w pid c s =
  let s0 := set_sessions (sessions s ++ [length (heap s)])
              (set_heap (heap s ++ [mkSession w pid c 0]) s) in
  let s1 := if truthy (scores_get c (scores s)) then s0
            else set_scores (scores_set c 0 (scores s)) s0 in
  let s2 := set_sessions (survivors fails s1) s1 in
  let r := if negb (gameStarted s)
              && (MIN_PLAYERS_TO_START <=? length (survivors fails s1))%nat
           then startGame fails s2 else (s2, []) in
  (fst r,
   Sent w (MsgAssignInfo pid c)
   :: Sent w (MsgGameState (canvasState s) (scores s1)
                (if gameStarted s then Some (timeLeft s) else None))
   :: attempts fails (MsgScoreUpdate (scores s1)) (heap s1) (sessions s1) ++ snd r).
Proof.
  intros Hlen Hover. unfold handleSession.
  destruct (Nat.leb_spec MAX_PLAYERS_PER_ROOM (length (sessions s))) as [Hge|_]; [lia|].
  rewrite Hover. through_broadcast.
  cbn -[survivors attempts startGame scores_get scores_set truthy Nat.leb
        MIN_PLAYERS_TO_START].
  destruct (truthy (scores_get c (scores s)));
    cbn -[survivors attempts startGame scores_get scores_set truthy Nat.leb
          MIN_PLAYERS_TO_START];
    match goal with
    | |- context [if ?b then startGame ?f ?x else _] =>
        destruct b; [destruct (startGame f x)|]; cbn; by rewrite ?app_nil_r
    end.
Qed.

(** ** The score table *)

Lemma scores_get_set_eq k v sc : scores_get k (scores_set k v sc) = Some v.
Proof.
  induction sc as [|[k' v'] sc IH]; cbn.
  - by rewrite String.eqb_refl.
  - destruct (String.eqb k k') eqn:E; cbn; rewrite E; [done|apply IH].
Qed.

Lemma scores_get_set_ne k k' v sc :
  k <> k' -> scores_get k' (scores_set k v sc) = scores_get k' sc.
Proof.
  intros Hne. induction sc as [|[k0 v0] sc IH]; cbn.
  - destruct (String.eqb_spec k' k); congruence.
  - destruct (String.eqb_spec k k0) as [->|Hk]; cbn.
    + destruct (String.eqb_spec k' k0); congruence.
    + by rewrite IH.
Qed.

Lemma sum_scores_set k v sc :
  sum_scores (scores_set k v sc) = sum_scores sc - or_zero (scores_get k sc) + v.
Proof.
  induction sc as [|[k0 v0] sc IH]; cbn.
  - lia.
  - destruct (String.eqb k k0); cbn; [lia|]. rewrite IH. lia.
Qed.

Lemma scores_get_None k sc : scores_get k sc = None <-> ~ In k (map fst sc).
Proof.
  induction sc as [|[k0 v0] sc IH]; cbn.
  - tauto.
  - destruct (String.eqb_spec k k0) as [->|Hk].
    + split; [discriminate|]. intros Hn. exfalso. apply Hn. by left.
    + rewrite IH. split; [intros Hn [He|Hi]; congruence|tauto].
Qed.

Lemma scores_set_keys k v sc :
  map fst (scores_set k v sc) =
  match scores_get k sc with
  | Some _ => map fst sc
  | None => (map fst sc ++ [k])%list
  end.
Proof.
  induction sc as [|[k0 v0] sc IH]; cbn; [done|].
  destruct (String.eqb k k0); cbn; [done|].
  rewrite IH. by destruct (scores_get k sc).
Qed.

Lemma scores_set_In k v sc e :
  In e (scores_set k v sc) -> In e sc \/ e = (k, v).
Proof.
  induction sc as [|[k0 v0] sc IH]; cbn.
  - intros [<-|[]]. by right.
  - destruct (String.eqb_spec k k0) as [->|Hk]; cbn.
    + intros [<-|Hi]; [by right|]. left. by right.
    + intros [<-|Hi]; [left; by left|].
      destruct (IH Hi); [left; by right|by right].
Qed.

Lemma scores_wf_set k v sc :
  0 <= v -> scores_wf sc -> scores_wf (scores_set k v sc).
Proof.
  intros Hv [Hnd Hpos]. split.
  - rewrite scores_set_keys. destruct (scores_get k sc) eqn:E; [done|].
    apply scores_get_None in E.
    apply NoDup_app. split; [done|]. split.
    + intros x Hx Hk. apply list_elem_of_In in Hx.
      apply list_elem_of_singleton in Hk. by subst.
    + apply NoDup_singleton.
  - apply Forall_forall. intros e He. apply list_elem_of_In in He.
    destruct (scores_set_In _ _ _ _ He) as [Hi| ->]; [|done].
    rewrite Forall_forall in Hpos. apply Hpos. by apply list_elem_of_In.
Qed.

Lemma scores_wf_nil : scores_wf [].
Proof. split; [apply NoDup_nil_2|apply Forall_nil_2]. Qed.

Lemma scores_get_nonneg k sc : scores_wf sc -> 0 <= or_zero (scores_get k sc).
Proof.
  intros [_ Hpos]. induction sc as [|[k0 v0] sc IH]; cbn; [done|].
  inversion Hpos as [|? ? Hv Hrest]; subst.
  destruct (String.eqb k k0); cbn; [exact Hv|by apply IH].
Qed.

Lemma scores_wf_snoc sc c v :
  scores_wf (sc ++ [(c, v)]) ->
  scores_wf sc /\ ~ In c (map fst sc) /\ 0 <= v.
Proof.
  intros [Hnd Hpos]. rewrite map_app in Hnd. cbn in Hnd.
  apply NoDup_app in Hnd as (Hnd & Hdis & _).
  apply Forall_app in Hpos as [Hpos Hv].
  inversion Hv; subst. repeat split; try done.
  intros Hin. apply list_elem_of_In in Hin. apply (Hdis _ Hin). left.
Qed.

Lemma scores_wf_unique sc c v v' :
  scores_wf sc -> In (c, v) sc -> In (c, v') sc -> v = v'.
Proof.
  intros [Hnd _]. induction sc as [|[k w] sc IH]; cbn; [done|].
  cbn in Hnd. apply NoDup_cons in Hnd as [Hk Hnd].
  assert (Hkey : forall u, In (k, u) sc -> False).
  { intros u Hu. apply Hk. apply list_elem_of_In.
    change k with (fst (k, u)). by apply in_map. }
  intros [E1|H1] [E2|H2].
  - congruence.
  - inversion E1; subst. by destruct (Hkey v').
  - inversion E2; subst. by destruct (Hkey v).
  - by apply IH.
Qed.

(** ** The winner loop of [endGame] *)

Lemma winner_loop_snoc sc e :
  winner_loop (sc ++ [e]) = winner_step (winner_loop sc) e.
Proof. unfold winner_loop. by rewrite fold_left_app. Qed.

(** What the loop has computed after the whole table: nothing for the
    empty table; otherwise a colour holding the maximum, the maximum, and
    whether a second colour holds it too. *)
Lemma winner_loop_spec sc :
  scores_wf sc ->
  (sc = [] /\ winner_loop sc = mkLoop None (-1) false)
  \/
  (exists c,
      winnerColor (winner_loop sc) = Some c /\
      In (c, highScore (winner_loop sc)) sc /\
      (forall c' v', In (c', v') sc -> v' <= highScore (winner_loop sc)) /\
      (isDraw (winner_loop sc) = true <->
       exists c2, c2 <> c /\ In (c2, highScore (winner_loop sc)) sc)).
Proof.
  induction sc as [|[c0 v0] sc IH] using rev_ind; intros Hwf.
  - by left.
  - right. apply scores_wf_snoc in Hwf as (Hwf & Hfresh & Hv0).
    rewrite winner_loop_snoc.
    assert (Hkey : forall u, In (c0, u) sc -> False).
    { intros u Hu. apply Hfresh. change c0 with (fst (c0, u)). by apply in_map. }
    destruct (IH Hwf) as [[-> ->]|(c & Hw & Hin & Hmax & Hdraw)].
    + cbn. destruct (Z.ltb_spec (-1) v0); [|lia]. cbn.
      exists c0. repeat split; try done.
      * by left.
      * intros c' v' [E|[]]. inversion E; subst. lia.
      * intros (c2 & Hne & [E|[]]). congruence.
    + set (acc := winner_loop sc) in *. unfold winner_step.
      destruct (Z.ltb_spec (highScore acc) v0) as [Hlt|Hge]; cbn.
      * exists c0. repeat split; try done.
        -- apply in_or_app. right. by left.
        -- intros c' v' Hi. apply in_app_or in Hi as [Hi|[E|[]]].
           ++ specialize (Hmax _ _ Hi). lia.
           ++ inversion E; subst. lia.
        -- intros (c2 & Hne & Hi). apply in_app_or in Hi as [Hi|[E|[]]].
           ++ specialize (Hmax _ _ Hi). lia.
           ++ congruence.
      * destruct (Z.eqb_spec v0 (highScore acc)) as [He|Hn]; cbn.
        -- exists c. repeat split; try done.
           ++ apply in_or_app. by left.
           ++ intros c' v' Hi. apply in_app_or in Hi as [Hi|[E|[]]].
              ** exact (Hmax _ _ Hi).
              ** inversion E; subst. lia.
           ++ intros _. exists c0. split.
              ** intros ->. by apply (Hkey (highScore acc)).
              ** apply in_or_app. right. left. by rewrite He.
        -- exists c. repeat split; try done.
           ++ apply in_or_app. by left.
           ++ intros c' v' Hi. apply in_app_or in Hi as [Hi|[E|[]]].
              ** exact (Hmax _ _ Hi).
              ** inversion E; subst. lia.
           ++ intros Hd. apply Hdraw in Hd as (c2 & Hne & Hi).
              exists c2. split; [done|]. apply in_or_app. by left.
           ++ intros (c2 & Hne & Hi). apply Hdraw.
              apply in_app_or in Hi as [Hi|[E|[]]].
              ** by exists c2.
              ** inversion E; subst. lia.
Qed.

Lemma finalWinner_Some sc c :
  scores_wf sc -> (finalWinner sc = Some c <-> strictly_highest sc c).
Proof.
  intros Hwf. unfold finalWinner, strictly_highest.
  destruct (winner_loop_spec sc Hwf) as [[-> ->]|(w & Hw & Hin & Hmax & Hdraw)].
  - cbn. split; [discriminate|]. by intros (v & [] & _).
  - set (acc := winner_loop sc) in *. split.
    + destruct (isDraw acc) eqn:Hd; [discriminate|].
      rewrite Hw. intros [= ->]. exists (highScore acc). split; [done|].
      intros c' v' Hi Hne. pose proof (Hmax _ _ Hi) as Hle.
      destruct (Z.eq_dec v' (highScore acc)) as [->|]; [|lia].
      assert (false = true); [|discriminate].
      apply Hdraw. by exists c'.
    + intros (v & Hi & Hstrict).
      assert (w = c) as ->.
      { destruct (String.string_dec w c) as [|Hne]; [done|].
        pose proof (Hstrict _ _ Hin Hne). pose proof (Hmax _ _ Hi). lia. }
      assert (v = highScore acc) as -> by (by eapply scores_wf_unique).
      destruct (isDraw acc) eqn:Hd; [|done].
      destruct Hdraw as [Hdraw _]. destruct (Hdraw eq_refl) as (c2 & Hne & Hi2).
      pose proof (Hstrict _ _ Hi2 Hne). lia.
Qed.

Lemma finalWinner_None sc :
  scores_wf sc -> (finalWinner sc = None <-> sc = [] \/ tied_at_top sc).
Proof.
  intros Hwf. unfold finalWinner, tied_at_top.
  destruct (winner_loop_spec sc Hwf) as [[-> ->]|(w & Hw & Hin & Hmax & Hdraw)].
  - cbn. split; [by left|done].
  - set (acc := winner_loop sc) in *. split.
    + destruct (isDraw acc) eqn:Hd; [|congruence].
      intros _. right. destruct Hdraw as [Hdraw _].
      destruct (Hdraw eq_refl) as (c2 & Hne & Hi2).
      exists w, c2, (highScore acc). repeat split; done.
    + intros [->|(c1 & c2 & v & Hne & H1 & H2 & Htop)]; [by destruct Hin|].
      assert (v = highScore acc) as ->.
      { pose proof (Hmax _ _ H1). pose proof (Htop _ _ Hin). lia. }
      assert (Hd : isDraw acc = true).
      { apply Hdraw. destruct (String.string_dec c1 w) as [->|Hn1].
        - exists c2. split; [congruence|done].
        - by exists c1. }
      by rewrite Hd.
Qed.

(** ** Counting cells *)

Lemma count_color_cons d c l :
  count_color d (c :: l) = (indicator (c = d) + count_color d l)%nat.
Proof.
  unfold count_color, indicator. rewrite filter_cons.
  destruct (decide (c = d)); reflexivity.
Qed.

(** Overwriting cell [i], which held [old], with [c]. *)
Lemma count_color_insert d l i old c :
  l !! i = Some old ->
  (count_color d (<[i := c]> l) + indicator (old = d) =
   count_color d l + indicator (c = d))%nat.
Proof.
  revert i. induction l as [|a l IH]; intros [|i] Hi; try done.
  - cbn in Hi. injection Hi as ->. cbn [insert list_insert].
    rewrite !count_color_cons. lia.
  - cbn in Hi. change (<[S i := c]> (a :: l)) with (a :: <[i := c]> l).
    rewrite !count_color_cons. specialize (IH _ Hi). lia.
Qed.

Lemma painted_cons d r cv :
  painted d (r :: cv) = (count_color d (cells r) + painted d cv)%nat.
Proof. reflexivity. Qed.

(** Replacing row [j], which was [r], with [r']. *)
Lemma painted_insert d cv j r r' :
  cv !! j = Some r ->
  (painted d (<[j := r']> cv) + count_color d (cells r) =
   painted d cv + count_color d (cells r'))%nat.
Proof.
  revert j. induction cv as [|a cv IH]; intros [|j] Hj; try done.
  - cbn in Hj. injection Hj as ->. cbn [insert list_insert].
    rewrite !painted_cons. lia.
  - cbn in Hj. change (<[S j := r']> (a :: cv)) with (a :: <[j := r']> cv).
    rewrite !painted_cons. specialize (IH _ Hj). lia.
Qed.

Lemma count_color_replicate d n c :
  count_color d (replicate n c) = (n * indicator (c = d))%nat.
Proof.
  induction n as [|n IH]; [done|].
  cbn [replicate]. rewrite count_color_cons, IH. lia.
Qed.

Lemma painted_replicate d n r :
  painted d (replicate n r) = (n * count_color d (cells r))%nat.
Proof.
  induction n as [|n IH]; [done|].
  cbn [replicate]. rewrite painted_cons, IH. lia.
Qed.

Lemma painted_initial d :
  painted d initializeCanvas =
  (Z.to_nat CANVAS_HEIGHT * (Z.to_nat CANVAS_WIDTH * indicator (WHITE = d)))%nat.
Proof.
  unfold initializeCanvas. rewrite painted_replicate. cbn [cells].
  by rewrite count_color_replicate.
Qed.

(** ** Coordinates *)

Lemma in_range_bounds x y :
  in_range x y = true ->
  num_lt x 0 = false /\ num_ge x CANVAS_WIDTH = false /\
  num_lt y 0 = false /\ num_ge y CANVAS_HEIGHT = false.
Proof.
  unfold in_range. rewrite negb_true_iff, !orb_false_iff. tauto.
Qed.

(** An integer that passes the range test is an index below 100. *)
Lemma valid_index n k :
  0 < k ->
  num_integral n = true -> num_lt n 0 = false -> num_ge n k = false ->
  exists i, as_index n = Some i /\ (i < Z.to_nat k)%nat.
Proof.
  intros Hk. destruct n as [q| | |]; cbn; try discriminate.
  intros Hint Hlo Hhi. rewrite negb_false_iff in Hlo.
  unfold Qle_bool in Hlo, Hhi. cbn in Hlo, Hhi.
  apply Z.leb_le in Hlo. apply Z.leb_gt in Hhi.
  rewrite Hint. destruct (Z.leb_spec 0 (Qnum q)) as [Hq|Hq]; [|lia]. cbn.
  eexists. split; [reflexivity|].
  apply Z2Nat.inj_lt; [apply Z.div_pos; lia|lia|].
  apply Z.div_lt_upper_bound; lia.
Qed.

(** ** [handlePlacePixel] and the message listener, case by case *)

Lemma handlePlacePixel_invalid fails sid session p now s :
  passes_validation p = false ->
  handlePlacePixel fails sid session p now s = Threw \/
  handlePlacePixel fails sid session p now s =
    Returned (s, [Sent (ws session) (MsgError "Invalid coordinates.")]).
Proof.
  destruct p as [|vx vy]; [by left|]. intros Hv. right.
  destruct vx, vy; try reflexivity.
  cbn in Hv. unfold in_range in Hv. apply negb_false_iff in Hv.
  unfold handlePlacePixel. by rewrite Hv.
Qed.

Lemma handlePlacePixel_cooldown fails sid session x y now s :
  in_range x y = true ->
  now - lastPlacement session < COOLDOWN_MS ->
  handlePlacePixel fails sid session (PayloadFields (JNumber x) (JNumber y)) now s
  = Returned (s, []).
Proof.
  intros Hr Hc. unfold in_range in Hr. apply negb_true_iff in Hr.
  unfold handlePlacePixel. rewrite Hr.
  by destruct (Z.ltb_spec (now - lastPlacement session) COOLDOWN_MS); [|lia].
Qed.

Lemma handlePlacePixel_valid fails sid session x y now s :
  in_range x y = true ->
  COOLDOWN_MS <= now - lastPlacement session ->
  handlePlacePixel fails sid session (PayloadFields (JNumber x) (JNumber y)) now s =
  match canvas_row (canvasState s) y with
  | None => Threw
  | Some row =>
      if same_color (row_get row x) (color session) then Returned (s, [])
      else Returned
             (placed fails sid session x y (row_get row x) now s,
              attempts fails
                (MsgPixelUpdate x y (color session)
                   (placed_scores (row_get row x) (color session) (scores s)))
                (<[sid := mkSession (ws session) (playerId session)
                                    (color session) now]> (heap s))
                (sessions s))
  end.
Proof.
  intros Hr Hc. unfold in_range in Hr. apply negb_true_iff in Hr.
  unfold handlePlacePixel. rewrite Hr.
  destruct (Z.ltb_spec (now - lastPlacement session) COOLDOWN_MS); [lia|].
  destruct (canvas_row (canvasState s) y) as [row|]; [|done].
  destruct (same_color (row_get row x) (color session)); [done|].
  rewrite broadcast_eq. unfold placed, placed_scores.
  cbn [scores heap set_heap set_canvasState].
  by destruct (negb (same_color (row_get row x) WHITE)
               && truthy (scores_get (color_key (row_get row x)) (scores s))).
Qed.

(** Every run of the listener either leaves the room as it was or
    applies a placement. *)
Lemma onMessage_cases fails sid m now s :
  fst (onMessage fails sid m now s) = s \/
  exists session x y row,
    heap s !! sid = Some session /\
    gameStarted s = true /\ gameOver s = false /\
    m = InPlacePixel (PayloadFields (JNumber x) (JNumber y)) /\
    in_range x y = true /\
    COOLDOWN_MS <= now - lastPlacement session /\
    canvas_row (canvasState s) y = Some row /\
    same_color (row_get row x) (color session) = false /\
    fst (onMessage fails sid m now s) =
      placed fails sid session x y (row_get row x) now s.
Proof.
  unfold onMessage. destruct (heap s !! sid) as [session|] eqn:Hs; [|by left].
  destruct m as [| |p]; [by left|by left|].
  destruct (gameStarted s) eqn:Hg; [|by left].
  destruct (gameOver s) eqn:Ho; [by left|]. cbn [negb orb].
  destruct (passes_validation p) eqn:Hv.
  - destruct p as [|[]]; try discriminate. destruct y; try discriminate.
    cbn in Hv. rename n into x, n0 into y.
    destruct (Z.ltb_spec (now - lastPlacement session) COOLDOWN_MS) as [Hc|Hc].
    + rewrite handlePlacePixel_cooldown by done. by left.
    + rewrite handlePlacePixel_valid by done.
      destruct (canvas_row (canvasState s) y) as [row|] eqn:Hrow; [|by left].
      destruct (same_color (row_get row x) (color session)) eqn:Hsame; [by left|].
      right. exists session, x, y, row. by repeat split.
  - destruct (handlePlacePixel_invalid fails sid session p now s Hv) as [-> | ->];
      by left.
Qed.

(** ** Colours handed out by [assignColor] *)

Lemma hex_digit_lowercase d : hex_digit d <> "F"%char.
Proof.
  unfold hex_digit. generalize (Z.to_nat d). intros n.
  do 16 (destruct n as [|n]; [discriminate|]). destruct n; discriminate.
Qed.

Lemma hex6_not_white r : hex6 r <> WHITE.
Proof.
  unfold hex6, WHITE. cbn [map string_of_list_ascii].
  intros [= H _]. by apply hex_digit_lowercase in H.
Qed.

Lemma assignColor_not_white r s : assignColor r s <> WHITE.
Proof.
  unfold assignColor.
  destruct (List.find _ PLAYER_COLORS) as [c|] eqn:Hf; [|apply hex6_not_white].
  apply find_some in Hf as [Hin _]. cbn in Hin.
  repeat (destruct Hin as [<-|Hin]; [discriminate|]). destruct Hin.
Qed.

(** ** The room invariant *)

Lemma survivors_length fails s : (length (survivors fails s) <= length (sessions s))%nat.
Proof. apply length_filter. Qed.

(** The invariant looks at the heap, the canvas, the scores, the size of
    the registry and the stored canvas and scores only. *)
Lemma room_inv_ext s s' :
  heap s' = heap s ->
  canvasState s' = canvasState s ->
  scores s' = scores s ->
  (length (sessions s') <= length (sessions s))%nat ->
  (st_canvasState (storage s') = st_canvasState (storage s) /\
   st_scores (storage s') = st_scores (storage s)
   \/
   st_canvasState (storage s') = Some (canvasState s) /\
   st_scores (storage s') = Some (scores s)) ->
  room_inv s -> room_inv s'.
Proof.
  intros Hh Hc Hsc Hl Hst [I1 I2 I3 I4 I5].
  split.
  - lia.
  - by rewrite Hh.
  - rewrite Hc. destruct Hst as [[-> _]|[-> _]]; done.
  - by rewrite Hsc.
  - destruct Hst as [[_ ->]|[_ ->]]; done.
Qed.

Lemma room_inv_broadcast_like fails s s' :
  heap s' = heap s -> canvasState s' = canvasState s -> scores s' = scores s ->
  storage s' = storage s ->
  sessions s' = survivors fails s ->
  room_inv s -> room_inv s'.
Proof.
  intros Hh Hc Hsc Hst Hse. apply room_inv_ext; try done.
  - rewrite Hse. apply survivors_length.
  - left. by rewrite Hst.
Qed.

Lemma room_inv_first : room_inv (activate empty_storage).
Proof.
  split; cbn.
  - lia.
  - apply Forall_nil_2.
  - reflexivity.
  - apply scores_wf_nil.
  - apply scores_wf_nil.
Qed.

Lemma loadState_fields st :
  let s := activate st in
  storage s = st /\ heap s = [] /\ sessions s = [] /\
  canvasState s = default initializeCanvas (st_canvasState st) /\
  scores s = default [] (st_scores st) /\
  timeLeft s = default GAME_DURATION_SECONDS (st_timeLeft st) /\
  gameStarted s = default false (st_gameStarted st) /\
  gameOver s = default false (st_gameOver st) /\
  timerInterval s =
    default false (st_gameStarted st) && negb (default false (st_gameOver st))
    && (0 <? default GAME_DURATION_SECONDS (st_timeLeft st)).
Proof.
  unfold activate, loadState, constructor. cbn -[initializeCanvas Z.ltb].
  destruct (default false (st_gameStarted st)),
           (default false (st_gameOver st)),
           (0 <? default GAME_DURATION_SECONDS (st_timeLeft st));
    by repeat split.
Qed.

Lemma room_inv_activate s : room_inv s -> room_inv (activate (storage s)).
Proof.
  intros [I1 I2 I3 I4 I5].
  destruct (loadState_fields (storage s)) as (Hst & Hh & Hse & Hc & Hsc & _).
  split.
  - rewrite Hse. cbn. lia.
  - rewrite Hh. apply Forall_nil_2.
  - by rewrite Hst, Hc.
  - by rewrite Hsc.
  - by rewrite Hst.
Qed.

Lemma room_inv_endGame fails s : room_inv s -> room_inv (fst (endGame fails s)).
Proof.
  rewrite endGame_eq. cbn [fst]. apply room_inv_ext; try done.
  - apply survivors_length.
  - by right.
Qed.

Lemma room_inv_tick fails s : room_inv s -> room_inv (fst (tick fails s)).
Proof.
  rewrite tick_eq. destruct (0 <? timeLeft s); [|apply room_inv_endGame].
  cbn zeta. cbn [fst].
  destruct (Z.rem (timeLeft s - 1) 10 =? 0).
  - apply room_inv_ext; try done; [apply survivors_length|by right].
  - apply room_inv_ext; try done; [apply survivors_length|by left].
Qed.

Lemma room_inv_startGame fails s : room_inv s -> room_inv (fst (startGame fails s)).
Proof.
  destruct (gameStarted s) eqn:Hg.
  - unfold startGame. by rewrite Hg.
  - rewrite startGame_eq by done. cbn [fst].
    apply room_inv_ext; try done; [apply survivors_length|by left].
Qed.

Lemma room_inv_close sid s : room_inv s -> room_inv (fst (closeOrErrorHandler sid s)).
Proof.
  unfold closeOrErrorHandler.
  destruct ((length (sessions (removeSession sid s)) =? 0)%nat
            && gameStarted (removeSession sid s)); cbn [fst];
    (apply room_inv_ext; try done; [apply length_filter|by left]).
Qed.

Lemma room_inv_handleSession fails w pid c s :
  c <> WHITE -> room_inv s -> room_inv (fst (handleSession fails w pid c s)).
Proof.
  intros Hc Hinv.
  destruct (Nat.leb_spec MAX_PLAYERS_PER_ROOM (length (sessions s))) as [Hfull|Hroom].
  { unfold handleSession.
    by destruct (Nat.leb_spec MAX_PLAYERS_PER_ROOM (length (sessions s))); [|lia]. }
  destruct (gameOver s) eqn:Hover.
  { unfold handleSession. rewrite Hover.
    by destruct (Nat.leb_spec MAX_PLAYERS_PER_ROOM (length (sessions s))); [lia|]. }
  rewrite handleSession_eq by done. cbn zeta. cbn [fst].
  set (s0 := set_sessions _ (set_heap _ s)).
  set (s1 := if truthy _ then s0 else _).
  assert (H1 : room_inv s1).
  { destruct Hinv as [I1 I2 I3 I4 I5]. subst s1 s0.
    destruct (truthy (scores_get c (scores s))); split; cbn; try done.
    - rewrite length_app. cbn. lia.
    - apply Forall_app. split; [done|]. by apply Forall_singleton.
    - rewrite length_app. cbn. lia.
    - apply Forall_app. split; [done|]. by apply Forall_singleton.
    - by apply scores_wf_set.
  }
  assert (H1len : (length (sessions s1) <= MAX_PLAYERS_PER_ROOM)%nat) by apply H1.
  assert (H2 : room_inv (set_sessions (survivors fails s1) s1)).
  { eapply (room_inv_broadcast_like fails s1); done. }
  destruct (negb (gameStarted s) && _); [by apply room_inv_startGame|done].
Qed.

Lemma placed_scores_wf old new sc : scores_wf sc -> scores_wf (placed_scores old new sc).
Proof.
  intros Hwf. unfold placed_scores. cbn zeta.
  match goal with |- context [if ?b then ?t else sc] => set (sc1 := if b then t else sc) end.
  assert (H1 : scores_wf sc1).
  { subst sc1. destruct (_ && _); [|done]. apply scores_wf_set; [lia|done]. }
  apply scores_wf_set; [|done].
  pose proof (scores_get_nonneg new sc1 H1). lia.
Qed.

Lemma room_inv_placed fails sid session x y old now s :
  heap s !! sid = Some session ->
  room_inv s -> room_inv (placed fails sid session x y old now s).
Proof.
  intros Hs [I1 I2 I3 I4 I5]. unfold placed. split; cbn -[survivors].
  - etrans; [apply survivors_length|]. done.
  - apply Forall_insert; [done|]. cbn. eapply (Forall_lookup_1 _ _ _ _ I2 Hs).
  - reflexivity.
  - by apply placed_scores_wf.
  - by apply placed_scores_wf.
Qed.

Lemma room_inv_onMessage fails sid m now s :
  room_inv s -> room_inv (fst (onMessage fails sid m now s)).
Proof.
  intros Hinv.
  destruct (onMessage_cases fails sid m now s)
    as [-> | (session & x & y & row & Hs & _ & _ & _ & _ & _ & _ & _ & ->)];
    [done|by apply room_inv_placed].
Qed.

Lemma room_inv_step fails e s : room_inv s -> room_inv (fst (step fails e s)).
Proof.
  intros Hinv. destruct e as [w pid r|sid m now|sid| |w pid r]; cbn [step].
  - apply room_inv_handleSession; [apply assignColor_not_white|done].
  - by apply room_inv_onMessage.
  - destruct (heap s !! sid); [by apply room_inv_close|done].
  - destruct (timerInterval s); [by apply room_inv_tick|done].
  - apply room_inv_handleSession; [apply assignColor_not_white|].
    by apply room_inv_activate.
Qed.

Lemma reachable_by_room_inv ok s : reachable_by ok s -> room_inv s.
Proof.
  induction 1 as [|s fails e _ IH _]; [apply room_inv_first|by apply room_inv_step].
Qed.

Lemma reachable_by_weaken (ok : Event -> Prop) s : reachable_by ok s -> reachable s.
Proof.
  induction 1 as [|s fails e _ IH _]; [apply reach_first|by apply reach_step].
Qed.

Lemma reachable_run evs s : reachable s -> reachable (run evs s).
Proof.
  revert s. induction evs as [|[f e] evs IH]; intros s Hs; [done|].
  cbn. apply IH. by apply reach_step.
Qed.

(** * The claims *)

(** ** Capacity *)

(** C8.  In every reachable room at most [MAX_PLAYERS_PER_ROOM] = 8
    sessions are registered, and no event takes the registry above 8; a
    connection that arrives while 8 are registered is answered
    "Game room is full.", closed with code 1008 (policy violation), and
    leaves the room, its registry included, exactly as it was. *)
Theorem sessions_at_most_eight s :
  reachable s ->
  (length (sessions s) <= MAX_PLAYERS_PER_ROOM)%nat /\
  (forall fails e,
      (length (sessions (fst (step fails e s))) <= MAX_PLAYERS_PER_ROOM)%nat) /\
  (forall fails w pid r,
      length (sessions s) = MAX_PLAYERS_PER_ROOM ->
      step fails (EConnect w pid r) s =
      (s, [Sent w (MsgError "Game room is full."); Closed w 1008 "Room full"])).
Proof.
  intros Hr. pose proof (reachable_by_room_inv _ _ Hr) as Hinv.
  split; [apply Hinv|]. split.
  - intros fails e. by apply room_inv_step.
  - intros fails w pid r Hfull. cbn [step]. unfold fetch, handleSession.
    rewrite Hfull. reflexivity.
Qed.

Lemma sessions_at_most_eight_witness :
  length (sessions eight_players) = 8%nat /\
  step no_failure (EConnect 18%nat "ivan" 0) eight_players =
  (eight_players,
   [Sent 18%nat (MsgError "Game room is full."); Closed 18%nat 1008 "Room full"]).
Proof.
  assert (Hr : reachable eight_players).
  { unfold eight_players, two_players, one_player.
    repeat apply reachable_run. apply reach_first. }
  split; [vm_compute; reflexivity|].
  apply (sessions_at_most_eight eight_players Hr). vm_compute. reflexivity.
Defined.

(** ** Broadcast *)

(** C9.  A broadcast attempts one delivery to every session that was
    registered when it began, in registry order, whatever sends fail; a
    failing send removes that session from the registry and no other; the
    rest of the room is untouched; and every effect of the broadcast
    carries the broadcast message itself, so no client is told of a
    failure. *)
Theorem broadcast_isolates_failures fails m s :
  let s' := fst (broadcast fails m s) in
  let es := snd (broadcast fails m s) in
  sessions s' = filter (fun r => send_throws fails (heap s) r = false) (sessions s) /\
  s' = set_sessions (sessions s') s /\
  es = attempts fails m (heap s) (sessions s) /\
  (forall sid session,
      sid ∈ sessions s -> heap s !! sid = Some session ->
      if fails (ws session)
      then SendFailed (ws session) m ∈ es /\ sid ∉ sessions s'
      else Sent (ws session) m ∈ es /\ sid ∈ sessions s') /\
  (forall e, e ∈ es -> exists w, e = Sent w m \/ e = SendFailed w m).
Proof.
  cbn zeta. rewrite broadcast_eq. cbn [fst snd].
  split; [reflexivity|]. split; [reflexivity|]. split; [reflexivity|]. split.
  - intros sid session Hin Hs.
    assert (Hatt : (if fails (ws session) then SendFailed (ws session) m
                    else Sent (ws session) m)
                   ∈ attempts fails m (heap s) (sessions s)).
    { apply list_elem_of_omap. exists sid. split; [done|]. by rewrite Hs. }
    unfold survivors. cbn [sessions set_sessions].
    destruct (fails (ws session)) eqn:Hf; (split; [done|]);
      rewrite list_elem_of_filter; unfold send_throws; rewrite Hs, Hf.
    + intros [Hd _]. discriminate Hd.
    + by split.
  - intros e He. apply list_elem_of_omap in He as (sid & _ & He).
    destruct (heap s !! sid) as [session|]; [|discriminate].
    cbn in He. injection He as <-. exists (ws session).
    destruct (fails (ws session)); [by right|by left].
Qed.

(** ** Restart recovery *)

(** C7.  Activating the room on a store that holds started = true, no
    game-over flag set, and a positive remaining time [t] restores
    [timeLeft = t] with the interval installed and the game marked
    started; the next tick yields [t - 1]; and an admission after the
    restore leaves the clock at [t] (it does not restart the game), the
    tick after it again yielding [t - 1]. *)
Theorem restored_clock_resumes st t :
  st_gameStarted st = Some true ->
  default false (st_gameOver st) = false ->
  st_timeLeft st = Some t ->
  0 < t ->
  let s := activate st in
  timeLeft s = t /\ timerInterval s = true /\
  gameStarted s = true /\ gameOver s = false /\
  (forall fails, timeLeft (fst (step fails ETick s)) = t - 1) /\
  (forall fails fails' w pid r,
      let s1 := fst (step fails (EConnect w pid r) s) in
      timeLeft s1 = t /\ timerInterval s1 = true /\
      timeLeft (fst (step fails' ETick s1)) = t - 1).
Proof.
  intros Hst Hov Ht Hpos. cbn zeta.
  destruct (loadState_fields st) as (_ & Hh & Hse & _ & _ & Htl & Hg & Ho & Hti).
  assert (Hlt : (0 <? t) = true) by (apply Z.ltb_lt; lia).
  rewrite Hst, Hov, Ht in *. cbn [default] in *. unfold id in *.
  rewrite Hlt in Hti. cbn in Hti.
  set (s := activate st) in *.
  assert (Htick : forall fails s1,
             timerInterval s1 = true -> timeLeft s1 = t ->
             timeLeft (fst (step fails ETick s1)) = t - 1).
  { intros fails s1 Hi1 Ht1. cbn [step]. rewrite Hi1, tick_eq, Ht1, Hlt.
    cbn zeta. cbn [fst]. by destruct (Z.rem (t - 1) 10 =? 0). }
  do 4 (split; [done|]). split.
  - intros fails. by apply Htick.
  - intros fails fails' w pid r.
    assert (Hc : timeLeft (fst (step fails (EConnect w pid r) s)) = t /\
                 timerInterval (fst (step fails (EConnect w pid r) s)) = true).
    { cbn [step]. unfold fetch.
      rewrite handleSession_eq;
        [|rewrite Hse; unfold MAX_PLAYERS_PER_ROOM; cbn; lia|done].
      cbn zeta. rewrite Hg. cbn [negb andb fst].
      destruct (truthy _); cbn; done. }
    destruct Hc as [Hc1 Hc2]. cbn zeta. do 2 (split; [done|]). by apply Htick.
Qed.

Lemma restored_clock_resumes_witness :
  timeLeft (activate snapshot_120) = 120 /\
  timeLeft (fst (step no_failure ETick (activate snapshot_120))) = 119.
Proof.
  assert (H := restored_clock_resumes snapshot_120 120 eq_refl eq_refl eq_refl eq_refl).
  cbn zeta in H. destruct H as (H1 & _ & _ & _ & H2 & _).
  split; [exact H1|exact (H2 no_failure)].
Defined.

(** ** Placing one's own colour *)

(** C6.  A placement request whose coordinates pass the check and whose
    target already holds the sender's colour changes nothing: the room
    (canvas, scores, the session object, the registry, the store) is
    returned as it was, and nothing is sent to anybody. *)
Theorem own_color_placement_is_noop fails sid session x y row now s :
  heap s !! sid = Some session ->
  in_range x y = true ->
  canvas_row (canvasState s) y = Some row ->
  row_get row x = Some (color session) ->
  onMessage fails sid (InPlacePixel (PayloadFields (JNumber x) (JNumber y))) now s
  = (s, []).
Proof.
  intros Hs Hr Hrow Hold. unfold onMessage. rewrite Hs.
  destruct (negb (gameStarted s) || gameOver s); [done|].
  destruct (Z.ltb_spec (now - lastPlacement session) COOLDOWN_MS) as [Hc|Hc].
  - by rewrite handlePlacePixel_cooldown.
  - rewrite handlePlacePixel_valid by done. rewrite Hrow, Hold. cbn [same_color].
    by rewrite String.eqb_refl.
Qed.

Lemma own_color_placement_is_noop_witness :
  onMessage no_failure 0%nat (pixel 3 4) 7000 after_first_pixel = (after_first_pixel, []).
Proof.
  apply (own_color_placement_is_noop no_failure 0%nat
           (mkSession 10%nat "alice" "#FF0000" 5000) (Finite 3) (Finite 4)
           (default (mkRow [] []) (canvasState after_first_pixel !! 4%nat)));
    vm_compute; reflexivity.
Defined.

(** ** Cooldown *)

(** C5, as the code has it.  When a placement request of a session was
    applied at time [now1] (it changed the room), the session object
    carries [lastPlacement = now1]; and in any room in which it still
    does, a request of that session arriving at [now2] with
    [now2 - now1 < 1000] changes nothing in the room and is never
    broadcast: if its coordinates pass the check nothing at all is sent,
    and otherwise the only possible effect is an error message to the
    sending session. *)
Theorem cooldown_drops_second_placement fails1 fails2 sid p1 p2 now1 now2 s :
  let s1 := fst (onMessage fails1 sid (InPlacePixel p1) now1 s) in
  s1 <> s ->
  now2 - now1 < COOLDOWN_MS ->
  (exists session, heap s1 !! sid = Some session /\ lastPlacement session = now1) /\
  (forall s2 session,
      heap s2 !! sid = Some session -> lastPlacement session = now1 ->
      fst (onMessage fails2 sid (InPlacePixel p2) now2 s2) = s2 /\
      (passes_validation p2 = true ->
       snd (onMessage fails2 sid (InPlacePixel p2) now2 s2) = []) /\
      (forall e, e ∈ snd (onMessage fails2 sid (InPlacePixel p2) now2 s2) ->
                 exists text, e = Sent (ws session) (MsgError text))).
Proof.
  cbn zeta. intros Hchanged Hclose. split.
  - destruct (onMessage_cases fails1 sid (InPlacePixel p1) now1 s)
      as [Hsame | (session & x & y & row & Hs & _ & _ & _ & _ & _ & _ & _ & ->)];
      [done|].
    exists (mkSession (ws session) (playerId session) (color session) now1).
    split; [|reflexivity]. unfold placed. cbn -[survivors].
    apply list_lookup_insert_eq. by eapply lookup_lt_Some.
  - intros s2 session Hs2 Hlast. unfold onMessage. rewrite Hs2.
    destruct (negb (gameStarted s2) || gameOver s2).
    { cbn. repeat split; try done. by intros e ?%not_elem_of_nil. }
    destruct (passes_validation p2) eqn:Hv.
    + destruct p2 as [|[] vy]; try discriminate. destruct vy; try discriminate.
      cbn in Hv. rewrite handlePlacePixel_cooldown by (done || lia).
      cbn. repeat split; try done. by intros e ?%not_elem_of_nil.
    + destruct (handlePlacePixel_invalid fails2 sid session p2 now2 s2 Hv)
        as [-> | ->]; cbn; (split; [done|]); (split; [done|]);
        intros e ->%list_elem_of_singleton; eauto.
Qed.

Lemma cooldown_drops_second_placement_witness :
  fst (onMessage no_failure 0%nat (pixel 5 5) 5500 after_first_pixel) = after_first_pixel /\
  snd (onMessage no_failure 0%nat (pixel 5 5) 5500 after_first_pixel) = [].
Proof.
  assert (Hchanged : after_first_pixel <> two_players).
  { intros E. apply (f_equal scores) in E. vm_compute in E. discriminate E. }
  destruct (cooldown_drops_second_placement no_failure no_failure 0%nat
              (PayloadFields (JNumber (Finite 3)) (JNumber (Finite 4)))
              (PayloadFields (JNumber (Finite 5)) (JNumber (Finite 5)))
              5000 5500 two_players Hchanged eq_refl) as (_ & H).
  destruct (H after_first_pixel (mkSession 10%nat "alice" "#FF0000" 5000)
              eq_refl eq_refl) as (H1 & H2 & _).
  split; [exact H1|exact (H2 eq_refl)].
Defined.

(** C5 as stated fails: the first player's placement was applied at
    time 5000; the same player's request [{x: -1, y: 0}] at time 5500,
    less than 1000 ms later, is not dropped silently but answered with
    the error "Invalid coordinates.". *)
Lemma cooldown_invalid_request_is_answered :
  lastPlacement <$> heap after_first_pixel !! 0%nat = Some 5000 /\
  5500 - 5000 < COOLDOWN_MS /\
  onMessage no_failure 0%nat (pixel (-1) 0) 5500 after_first_pixel =
  (after_first_pixel, [Sent 10%nat (MsgError "Invalid coordinates.")]).
Proof. repeat split; vm_compute; reflexivity. Qed.

(** ** Cells are never unpainted *)

Lemma row_set_cells r x c :
  cells (row_set r x c) = cells r \/
  exists i old, cells r !! i = Some old /\ cells (row_set r x c) = <[i := c]> (cells r).
Proof.
  unfold row_set. destruct (as_index x) as [i|]; [|by left].
  destruct (decide (i < length (cells r))%nat) as [Hi|]; [|by left].
  right. destruct (lookup_lt_is_Some_2 _ _ Hi) as [old Hold]. by exists i, old.
Qed.

Lemma canvas_set_rows cv y x c :
  canvas_set cv y x c = cv \/
  exists j r, cv !! j = Some r /\ canvas_set cv y x c = <[j := row_set r x c]> cv.
Proof.
  unfold canvas_set. destruct (as_index y) as [j|]; [|by left].
  destruct (cv !! j) as [r|] eqn:Hr; [|by left].
  right. by exists j, r.
Qed.

(** A cell after [canvasState[y][x] = c] holds what it held, or [c]. *)
Lemma cell_canvas_set cv y x c y0 x0 :
  cell (canvas_set cv y x c) y0 x0 = cell cv y0 x0 \/
  (cell (canvas_set cv y x c) y0 x0 = Some c /\ is_Some (cell cv y0 x0)).
Proof.
  destruct (canvas_set_rows cv y x c) as [->|(j & r & Hr & ->)]; [by left|].
  unfold cell. destruct (decide (j = y0)) as [->|Hne].
  - rewrite list_lookup_insert_eq by (by eapply lookup_lt_Some).
    rewrite Hr. cbn.
    destruct (row_set_cells r x c) as [->|(i & old & Hold & ->)]; [by left|].
    destruct (decide (i = x0)) as [->|Hni].
    + right. rewrite list_lookup_insert_eq by (by eapply lookup_lt_Some).
      rewrite Hold. split; [done|by eexists].
    + left. by rewrite list_lookup_insert_ne.
  - left. by rewrite list_lookup_insert_ne.
Qed.

Lemma unset_canvas_set cv y x c :
  c <> WHITE -> (unset_cells (canvas_set cv y x c) <= unset_cells cv)%nat.
Proof.
  intros Hc. unfold unset_cells.
  destruct (canvas_set_rows cv y x c) as [->|(j & r & Hr & ->)]; [done|].
  pose proof (painted_insert WHITE cv j r (row_set r x c) Hr) as Hp.
  destruct (row_set_cells r x c) as [E|(i & old & Hold & E)]; rewrite E in Hp.
  - lia.
  - pose proof (count_color_insert WHITE (cells r) i old c Hold) as Hcnt.
    unfold indicator in Hcnt at 2. rewrite decide_False in Hcnt by done. lia.
Qed.

(** ** What each handler does to the canvas *)

Lemma startGame_canvas fails s : canvasState (fst (startGame fails s)) = canvasState s.
Proof.
  destruct (gameStarted s) eqn:Hg.
  - unfold startGame. by rewrite Hg.
  - by rewrite startGame_eq.
Qed.

Lemma handleSession_canvas fails w pid c s :
  canvasState (fst (handleSession fails w pid c s)) = canvasState s.
Proof.
  destruct (Nat.leb_spec MAX_PLAYERS_PER_ROOM (length (sessions s))) as [Hfull|Hroom].
  { unfold handleSession.
    by destruct (Nat.leb_spec MAX_PLAYERS_PER_ROOM (length (sessions s))); [|lia]. }
  destruct (gameOver s) eqn:Hover.
  { unfold handleSession. rewrite Hover.
    by destruct (Nat.leb_spec MAX_PLAYERS_PER_ROOM (length (sessions s))); [lia|]. }
  rewrite handleSession_eq by done. cbn zeta. cbn [fst].
  destruct (negb (gameStarted s) && _); [rewrite startGame_canvas|];
    by destruct (truthy _).
Qed.

Lemma tick_canvas fails s : canvasState (fst (tick fails s)) = canvasState s.
Proof.
  rewrite tick_eq. destruct (0 <? timeLeft s).
  - cbn zeta. cbn [fst]. by destruct (Z.rem (timeLeft s - 1) 10 =? 0).
  - by rewrite endGame_eq.
Qed.

Lemma close_canvas sid s :
  canvasState (fst (closeOrErrorHandler sid s)) = canvasState s.
Proof. unfold closeOrErrorHandler. by destruct (_ && _). Qed.

(** Every event leaves the canvas as it was or assigns the colour of an
    existing session object to one property of one row. *)
Lemma step_canvas fails e s :
  room_inv s ->
  canvasState (fst (step fails e s)) = canvasState s \/
  exists sid session x y,
    heap s !! sid = Some session /\
    canvasState (fst (step fails e s)) = canvas_set (canvasState s) y x (color session).
Proof.
  intros Hinv. destruct e as [w pid r|sid m now|sid| |w pid r]; cbn [step].
  - left. apply handleSession_canvas.
  - destruct (onMessage_cases fails sid m now s)
      as [-> | (session & x & y & row & Hs & _ & _ & _ & _ & _ & _ & _ & ->)];
      [by left|].
    right. by exists sid, session, x, y.
  - left. destruct (heap s !! sid); [apply close_canvas|done].
  - left. destruct (timerInterval s); [apply tick_canvas|done].
  - left. unfold fetch. rewrite handleSession_canvas.
    destruct (loadState_fields (storage s)) as (_ & _ & _ & -> & _).
    apply Hinv.
Qed.

Lemma step_keeps_paint s fails e :
  room_inv s ->
  let s' := fst (step fails e s) in
  (forall y x c,
      cell (canvasState s) y x = Some c -> c <> WHITE ->
      exists c', cell (canvasState s') y x = Some c' /\ c' <> WHITE) /\
  (forall y x c',
      cell (canvasState s') y x = Some c' ->
      cell (canvasState s) y x <> Some c' ->
      exists session, session ∈ heap s /\ c' = color session /\ c' <> WHITE) /\
  (unset_cells (canvasState s') <= unset_cells (canvasState s))%nat.
Proof.
  intros Hinv. cbn zeta.
  destruct (step_canvas fails e s Hinv) as [->|(sid & session & x & y & Hs & ->)].
  - split; [|split].
    + intros y x c Hc Hne. by exists c.
    + intros y x c' Hc Hne. congruence.
    + done.
  - assert (Hcol : color session <> WHITE).
    { eapply (Forall_lookup_1 _ _ _ _ (inv_colors _ Hinv) Hs). }
    split; [|split].
    + intros y0 x0 c Hc Hne.
      destruct (cell_canvas_set (canvasState s) y x (color session) y0 x0)
        as [->|[-> _]]; eauto.
    + intros y0 x0 c' Hc Hne.
      destruct (cell_canvas_set (canvasState s) y x (color session) y0 x0)
        as [E|[E _]]; rewrite E in Hc; [congruence|].
      injection Hc as <-. exists session. split; [|done].
      by eapply list_elem_of_lookup_2.
    + by apply unset_canvas_set.
Qed.

Lemma run_cons f e evs s : run ((f, e) :: evs) s = run evs (fst (step f e s)).
Proof. reflexivity. Qed.

Lemma run_keeps_paint evs s :
  room_inv s ->
  (forall y x c,
      cell (canvasState s) y x = Some c -> c <> WHITE ->
      exists c', cell (canvasState (run evs s)) y x = Some c' /\ c' <> WHITE) /\
  (forall y x c',
      cell (canvasState (run evs s)) y x = Some c' ->
      cell (canvasState s) y x <> Some c' -> c' <> WHITE) /\
  (unset_cells (canvasState (run evs s)) <= unset_cells (canvasState s))%nat.
Proof.
  revert s. induction evs as [|[f e] evs IH]; intros s Hinv.
  - cbn. split; [|split]; [eauto|congruence|done].
  - rewrite run_cons.
    destruct (step_keeps_paint s f e Hinv) as (S1 & S2 & S3). cbn zeta in *.
    destruct (IH _ (room_inv_step f e s Hinv)) as (R1 & R2 & R3).
    split; [|split].
    + intros y x c Hc Hne. destruct (S1 y x c Hc Hne) as (c1 & Hc1 & Hne1).
      by apply (R1 y x c1).
    + intros y x c' Hc Hne.
      destruct (decide (cell (canvasState (fst (step f e s))) y x = Some c'))
        as [Hmid|Hmid].
      * by destruct (S2 y x c' Hmid Hne) as (_ & _ & _ & Hw).
      * by apply (R2 y x c').
    + lia.
Qed.

(** C10.  From a reachable room, over any sequence of events: a cell that
    holds a colour other than white still holds a colour other than white
    afterwards; whatever a cell newly holds is not white; and the number
    of white cells has not grown.  Over one event, a cell whose content
    changed holds the colour of a session object. *)
Theorem painted_cells_stay_painted s evs :
  reachable s ->
  let s' := run evs s in
  (forall y x c,
      cell (canvasState s) y x = Some c -> c <> WHITE ->
      exists c', cell (canvasState s') y x = Some c' /\ c' <> WHITE) /\
  (forall y x c',
      cell (canvasState s') y x = Some c' ->
      cell (canvasState s) y x <> Some c' -> c' <> WHITE) /\
  (unset_cells (canvasState s') <= unset_cells (canvasState s))%nat /\
  (forall fails e y x c',
      cell (canvasState (fst (step fails e s))) y x = Some c' ->
      cell (canvasState s) y x <> Some c' ->
      exists session, session ∈ heap s /\ c' = color session).
Proof.
  intros Hr. cbn zeta. pose proof (reachable_by_room_inv _ _ Hr) as Hinv.
  destruct (run_keeps_paint evs s Hinv) as (R1 & R2 & R3).
  do 3 (split; [done|]).
  intros fails e y x c' Hc Hne.
  destruct (step_keeps_paint s fails e Hinv) as (_ & S2 & _).
  destruct (S2 y x c' Hc Hne) as (session & Hin & Heq & _). eauto.
Qed.

Lemma painted_cells_stay_painted_witness :
  cell (canvasState after_first_pixel) 4 3 = Some "#FF0000" /\
  cell (canvasState (run [(no_failure, EMessage 1%nat (pixel 3 4) 9000);
                          (no_failure, ETick)] after_first_pixel)) 4 3
  = Some "#00FF00" /\
  (unset_cells (canvasState (run [(no_failure, EMessage 1%nat (pixel 3 4) 9000);
                                  (no_failure, ETick)] after_first_pixel))
   <= unset_cells (canvasState after_first_pixel))%nat.
Proof.
  assert (Hr : reachable after_first_pixel).
  { unfold after_first_pixel, two_players, one_player.
    repeat apply reachable_run. apply reach_first. }
  pose proof (painted_cells_stay_painted after_first_pixel
                [(no_failure, EMessage 1%nat (pixel 3 4) 9000); (no_failure, ETick)]
                Hr) as H.
  cbn zeta in H. destruct H as (_ & _ & H3 & _).
  split; [vm_compute; reflexivity|]. split; [vm_compute; reflexivity|exact H3].
Defined.

(** ** The winner *)

Lemma scores_set_nonempty k v sc : scores_set k v sc <> [].
Proof. destruct sc as [|[k' v'] sc]; cbn; [done|]. by destruct (String.eqb k k'). Qed.

Lemma startGame_scores fails s : scores (fst (startGame fails s)) = scores s.
Proof.
  destruct (gameStarted s) eqn:Hg.
  - unfold startGame. by rewrite Hg.
  - by rewrite startGame_eq.
Qed.

(** After an admission the score table has an entry. *)
Lemma handleSession_admitted_scored fails w pid c s :
  (length (sessions s) < MAX_PLAYERS_PER_ROOM)%nat -> gameOver s = false ->
  scores (fst (handleSession fails w pid c s)) <> [].
Proof.
  intros Hroom Hover. rewrite handleSession_eq by done. cbn zeta. cbn [fst].
  assert (Hne : scores
                  (if truthy (scores_get c (scores s))
                   then set_sessions (sessions s ++ [length (heap s)])
                          (set_heap (heap s ++ [mkSession w pid c 0]) s)
                   else set_scores (scores_set c 0 (scores s))
                          (set_sessions (sessions s ++ [length (heap s)])
                             (set_heap (heap s ++ [mkSession w pid c 0]) s))) <> []).
  { destruct (truthy (scores_get c (scores s))) eqn:Ht; cbn.
    - intros E. rewrite E in Ht. discriminate Ht.
    - apply scores_set_nonempty. }
  destruct (negb (gameStarted s) && _); [by rewrite startGame_scores|done].
Qed.

Lemma handleSession_rejected fails w pid c s :
  (MAX_PLAYERS_PER_ROOM <= length (sessions s))%nat \/ gameOver s = true ->
  fst (handleSession fails w pid c s) = s.
Proof.
  intros Hrej. unfold handleSession.
  destruct (Nat.leb_spec MAX_PLAYERS_PER_ROOM (length (sessions s))); [done|].
  destruct Hrej as [Hfull| ->]; [lia|done].
Qed.

Lemma handleSession_timer_scored fails w pid c s :
  (timerInterval s = true -> gameOver s = false) ->
  (timerInterval s = true -> (length (sessions s) < MAX_PLAYERS_PER_ROOM)%nat
                            \/ scores s <> []) ->
  (timerInterval (fst (handleSession fails w pid c s)) = true ->
   scores (fst (handleSession fails w pid c s)) <> []).
Proof.
  intros Hov Hpre.
  destruct (Nat.leb_spec MAX_PLAYERS_PER_ROOM (length (sessions s))) as [Hfull|Hroom].
  { rewrite handleSession_rejected by (by left). intros Ht.
    destruct (Hpre Ht); [lia|done]. }
  destruct (gameOver s) eqn:Hover.
  { rewrite handleSession_rejected by (by right). intros Ht.
    specialize (Hov Ht). discriminate Hov. }
  intros _. by apply handleSession_admitted_scored.
Qed.

Lemma clock_inv_handleSession fails w pid c s :
  (timerInterval s = true -> gameOver s = false) ->
  (timerInterval s = true -> (length (sessions s) < MAX_PLAYERS_PER_ROOM)%nat
                            \/ scores s <> []) ->
  clock_inv (fst (handleSession fails w pid c s)).
Proof.
  intros Hov Hpre Ht. split; [|by apply handleSession_timer_scored].
  destruct (Nat.leb_spec MAX_PLAYERS_PER_ROOM (length (sessions s))) as [Hfull|Hroom].
  { rewrite handleSession_rejected in * by (by left). by apply Hov. }
  destruct (gameOver s) eqn:Hover.
  { rewrite handleSession_rejected in Ht by (by right).
    specialize (Hov Ht). discriminate Hov. }
  rewrite handleSession_eq by done. cbn zeta. cbn [fst].
  destruct (negb (gameStarted s) && _) eqn:Hstart.
  - apply andb_true_iff in Hstart as [Hg _]. apply negb_true_iff in Hg.
    rewrite startGame_eq by (by destruct (truthy _)).
    by destruct (truthy _).
  - by destruct (truthy _).
Qed.

Lemma clock_inv_step fails e s : clock_inv s -> clock_inv (fst (step fails e s)).
Proof.
  intros Hinv. destruct e as [w pid r|sid m now|sid| |w pid r]; cbn [step].
  - apply clock_inv_handleSession; intros Ht; [|right]; by apply Hinv.
  - destruct (onMessage_cases fails sid m now s)
      as [-> | (session & x & y & row & _ & _ & Ho & _ & _ & _ & _ & _ & ->)];
      [done|].
    intros _. unfold placed, placed_scores. cbn -[survivors scores_set].
    split; [done|apply scores_set_nonempty].
  - destruct (heap s !! sid); [|done]. unfold closeOrErrorHandler.
    destruct (_ && _); cbn; [discriminate|done].
  - destruct (timerInterval s) eqn:Ht; [|done].
    rewrite tick_eq. destruct (0 <? timeLeft s).
    + cbn zeta. cbn [fst].
      destruct (Z.rem (timeLeft s - 1) 10 =? 0); cbn; intros _; by apply Hinv.
    + rewrite endGame_eq. cbn. discriminate.
  - unfold fetch.
    destruct (loadState_fields (storage s))
      as (_ & _ & Hse & _ & _ & _ & _ & Ho & Hti).
    apply clock_inv_handleSession.
    + rewrite Hti, Ho. intros Ht. destruct (default false (st_gameOver (storage s))); [|done].
      by rewrite andb_false_r in Ht.
    + intros _. left. rewrite Hse. unfold MAX_PLAYERS_PER_ROOM. cbn. lia.
Qed.

Lemma reachable_clock_inv s : reachable s -> clock_inv s.
Proof.
  induction 1 as [|s fails e _ IH _]; [discriminate|by apply clock_inv_step].
Qed.

(** C2.  [endGame] is the branch of the interval callback taken when the
    clock has run out.  In every reachable room in which the interval is
    installed, [endGame] sends to the registered sessions the message
    gameOver carrying [finalWinner] of the score table and the table;
    that winner is a colour exactly when the colour's score is strictly
    above every other colour's, and it is null exactly when two different
    colours both hold the highest score.  In particular red 5, blue 5,
    green 3 give null, and red 6, blue 5 give red. *)
Theorem endGame_announces_winner fails s :
  reachable s ->
  timerInterval s = true ->
  (timeLeft s <= 0 -> step fails ETick s = endGame fails s) /\
  snd (endGame fails s) =
    attempts fails (MsgGameOver (finalWinner (scores s)) (scores s))
             (heap s) (sessions s) /\
  (forall c, finalWinner (scores s) = Some c <-> strictly_highest (scores s) c) /\
  (finalWinner (scores s) = None <-> tied_at_top (scores s)) /\
  finalWinner scores_draw = None /\
  finalWinner scores_red_wins = Some "#FF0000".
Proof.
  intros Hr Ht.
  pose proof (inv_scores _ (reachable_by_room_inv _ _ Hr)) as Hwf.
  destruct (reachable_clock_inv s Hr Ht) as [_ Hne].
  split; [|split; [|split; [|split]]].
  - intros Hzero. cbn [step]. rewrite Ht. unfold tick.
    by destruct (Z.ltb_spec 0 (timeLeft s)); [lia|].
  - by rewrite endGame_eq.
  - intros c. by apply finalWinner_Some.
  - rewrite finalWinner_None by done. tauto.
  - split; reflexivity.
Qed.

Lemma endGame_announces_winner_witness :
  snd (endGame no_failure after_first_pixel) =
    [Sent 10%nat (MsgGameOver (Some "#FF0000") [("#FF0000", 1); ("#00FF00", 0)]);
     Sent 11%nat (MsgGameOver (Some "#FF0000") [("#FF0000", 1); ("#00FF00", 0)])] /\
  strictly_highest (scores after_first_pixel) "#FF0000".
Proof.
  assert (Hr : reachable after_first_pixel).
  { unfold after_first_pixel, two_players, one_player.
    repeat apply reachable_run. apply reach_first. }
  destruct (endGame_announces_winner no_failure after_first_pixel Hr eq_refl)
    as (_ & H1 & H2 & _).
  split; [rewrite H1; vm_compute; reflexivity|].
  apply (H2 "#FF0000"). vm_compute. reflexivity.
Defined.

(** ** Where the code departs from the claims *)

(** C3 at a failing input.  One player is connected and the game has not
    started; the player sends a placement request.  The listener of
    gameroom.mjs returns without sending anything (the room is unchanged);
    the listener of worker.js answers "Game not active." as the claim
    says. *)
Lemma placement_before_start_is_silent :
  gameStarted one_player = false /\
  onMessage no_failure 0%nat (pixel 0 0) 5000 one_player = (one_player, []) /\
  WorkerJs.onMessage no_failure 0%nat (pixel 0 0) 5000 one_player =
    (one_player, [Sent 10%nat (MsgError "Game not active.")]).
Proof. repeat split; vm_compute; reflexivity. Qed.

(** C4 at a failing input.  The game is running and the first player
    sends [{x: 1.5, y: 0}].  1.5 is a number in [0, 100), so the check
    lets it through: no error is sent, the session's [lastPlacement]
    becomes 5000, the player's score becomes 1, the row receives a
    property "1.5", and a pixelUpdate is broadcast. *)
Lemma fractional_x_is_applied :
  is_integer (3 # 2) = false /\
  in_range (Finite (3 # 2)) (Finite 0) = true /\
  snd (step no_failure (EMessage 0%nat (pixel (3 # 2) 0) 5000) two_players) =
    [Sent 10%nat (MsgPixelUpdate (Finite (3 # 2)) (Finite 0) "#FF0000"
                    [("#FF0000", 1); ("#00FF00", 0)]);
     Sent 11%nat (MsgPixelUpdate (Finite (3 # 2)) (Finite 0) "#FF0000"
                    [("#FF0000", 1); ("#00FF00", 0)])] /\
  scores two_players = [("#FF0000", 0); ("#00FF00", 0)] /\
  scores after_fractional_pixel = [("#FF0000", 1); ("#00FF00", 0)] /\
  lastPlacement <$> heap after_fractional_pixel !! 0%nat = Some 5000 /\
  props <$> canvasState after_fractional_pixel !! 0%nat
    = Some [(Finite (3 # 2), "#FF0000")].
Proof. repeat split; vm_compute; reflexivity. Qed.

(** C1 at a failing input.  The same request breaks the accounting: the
    room reached is reachable, no cell of the grid has changed, and the
    scores and the white cells add up to 10001. *)
Lemma fractional_x_breaks_accounting :
  reachable after_fractional_pixel /\
  Z.of_nat (unset_cells (canvasState after_fractional_pixel)) = 10000 /\
  sum_scores (scores after_fractional_pixel) = 1 /\
  sum_scores (scores after_fractional_pixel)
  + Z.of_nat (unset_cells (canvasState after_fractional_pixel)) = 10001.
Proof.
  split.
  { unfold after_fractional_pixel, two_players, one_player.
    repeat apply reachable_run. apply reach_first. }
  repeat split; vm_compute; reflexivity.
Qed.

(** ** The accounting of scores and white cells *)

Lemma accounted_initial : accounted initializeCanvas [].
Proof.
  unfold accounted. split; [|split; [|split]].
  - unfold initializeCanvas. apply length_replicate.
  - unfold initializeCanvas. apply Forall_replicate. cbn [cells]. apply length_replicate.
  - intros c Hc. rewrite painted_initial. unfold indicator.
    rewrite decide_False by congruence. cbn [scores_get or_zero]. lia.
  - unfold unset_cells. rewrite painted_initial. unfold indicator.
    rewrite decide_True by done. reflexivity.
Qed.

Lemma truthy_false_zero o : truthy o = false -> or_zero o = 0.
Proof.
  destruct o as [v|]; cbn; [|done]. rewrite negb_false_iff. apply Z.eqb_eq.
Qed.

Lemma truthy_of_pos sc k : 1 <= or_zero (scores_get k sc) ->
  exists v, scores_get k sc = Some v /\ 1 <= v /\ truthy (scores_get k sc) = true.
Proof.
  destruct (scores_get k sc) as [v|]; cbn; [|lia].
  intros Hv. exists v. repeat split; [done|]. apply negb_true_iff, Z.eqb_neq. lia.
Qed.

(** Registering a colour whose entry is absent or zero. *)
Lemma accounted_register cv sc c :
  truthy (scores_get c sc) = false -> accounted cv sc ->
  accounted cv (scores_set c 0 sc).
Proof.
  intros Hf (A1 & A2 & A3 & A4). apply truthy_false_zero in Hf.
  split; [done|]. split; [done|]. split.
  - intros d Hd. destruct (String.string_dec c d) as [<-|Hne].
    + rewrite scores_get_set_eq. cbn. specialize (A3 c Hd). lia.
    + rewrite scores_get_set_ne by done. by apply A3.
  - rewrite sum_scores_set. lia.
Qed.

Lemma placed_scores_white new sc :
  placed_scores (Some WHITE) new sc =
  scores_set new (or_zero (scores_get new sc) + 1) sc.
Proof. reflexivity. Qed.

Lemma same_color_false old new :
  same_color (Some old) new = false <-> old <> new.
Proof. cbn. by rewrite String.eqb_neq. Qed.

Lemma placed_scores_color old new sc v :
  old <> WHITE -> old <> new -> scores_get old sc = Some v -> 1 <= v ->
  placed_scores (Some old) new sc =
  scores_set new (or_zero (scores_get new sc) + 1) (scores_set old (v - 1) sc).
Proof.
  intros Hw Hne Hget Hv. unfold placed_scores. cbn zeta. cbn [color_key].
  apply same_color_false in Hw. rewrite Hw, Hget. cbn [negb andb truthy or_zero].
  destruct (Z.eqb_spec v 0) as [|_]; [lia|]. cbn [negb].
  rewrite scores_get_set_ne by done. f_equal. f_equal. lia.
Qed.

(** Overwriting one cell of the grid. *)
Lemma painted_cell_insert d cv j row i old new :
  cv !! j = Some row -> cells row !! i = Some old ->
  (painted d (<[j := mkRow (<[i := new]> (cells row)) (props row)]> cv)
   + indicator (old = d)
   = painted d cv + indicator (new = d))%nat.
Proof.
  intros Hj Hi.
  pose proof (painted_insert d cv j row
                (mkRow (<[i := new]> (cells row)) (props row)) Hj) as H1.
  pose proof (count_color_insert d (cells row) i old new Hi) as H2.
  cbn [cells] in H1. lia.
Qed.

(** The heart of the accounting: a placement at integer coordinates. *)
Lemma accounted_placed cv sc x y row new :
  accounted cv sc ->
  in_range x y = true -> num_integral x = true -> num_integral y = true ->
  canvas_row cv y = Some row ->
  same_color (row_get row x) new = false ->
  new <> WHITE ->
  accounted (canvas_set cv y x new) (placed_scores (row_get row x) new sc).
Proof.
  intros (A1 & A2 & A3 & A4) Hr Hix Hiy Hrow Hsame Hnew.
  apply in_range_bounds in Hr as (Hx0 & Hx1 & Hy0 & Hy1).
  destruct (valid_index x CANVAS_WIDTH eq_refl Hix Hx0 Hx1) as (i & Hi & Hilt).
  destruct (valid_index y CANVAS_HEIGHT eq_refl Hiy Hy0 Hy1) as (j & Hj & Hjlt).
  unfold canvas_row in Hrow. rewrite Hj in Hrow.
  assert (Hlen : length (cells row) = Z.to_nat CANVAS_WIDTH).
  { by eapply (Forall_lookup_1 _ _ _ _ A2 Hrow). }
  destruct (lookup_lt_is_Some_2 (cells row) i) as [old Hold]; [lia|].
  assert (Hget : row_get row x = Some old) by (unfold row_get; by rewrite Hi, Hold).
  assert (Hset : canvas_set cv y x new
                 = <[j := mkRow (<[i := new]> (cells row)) (props row)]> cv).
  { unfold canvas_set, row_set. rewrite Hj, Hrow, Hi.
    by rewrite decide_True by lia. }
  rewrite Hget in *. rewrite Hset. clear Hset Hget.
  apply same_color_false in Hsame.
  assert (Hcount := fun d => painted_cell_insert d cv j row i old new Hrow Hold).
  split; [by rewrite length_insert|]. split.
  { apply Forall_insert; [done|]. cbn [cells]. by rewrite length_insert. }
  unfold unset_cells in *.
  destruct (String.string_dec old WHITE) as [->|Hold_w].
  - rewrite placed_scores_white. split.
    + intros d Hd. specialize (Hcount d). unfold indicator in Hcount.
      rewrite (decide_False (P := WHITE = d)) in Hcount by congruence.
      destruct (String.string_dec new d) as [<-|Hne].
      * rewrite scores_get_set_eq. cbn [or_zero].
        rewrite decide_True in Hcount by done. specialize (A3 new Hd). lia.
      * rewrite scores_get_set_ne by done.
        rewrite decide_False in Hcount by done. specialize (A3 d Hd). lia.
    + rewrite sum_scores_set. specialize (Hcount WHITE). unfold indicator in Hcount.
      rewrite decide_True in Hcount by done.
      rewrite decide_False in Hcount by done. lia.
  - assert (Hpos : 1 <= or_zero (scores_get old sc)).
    { specialize (Hcount old). unfold indicator in Hcount.
      rewrite decide_True in Hcount by done.
      rewrite decide_False in Hcount by congruence.
      specialize (A3 old Hold_w). lia. }
    destruct (truthy_of_pos sc old Hpos) as (v & Hv & Hv1 & _).
    rewrite (placed_scores_color old new sc v) by done.
    rewrite Hv in Hpos. cbn [or_zero] in Hpos. split.
    + intros d Hd. specialize (Hcount d). unfold indicator in Hcount.
      destruct (String.string_dec new d) as [<-|Hne].
      * rewrite scores_get_set_eq. cbn [or_zero].
        rewrite decide_False in Hcount by done.
        rewrite decide_True in Hcount by done. specialize (A3 new Hd). lia.
      * rewrite scores_get_set_ne by done.
        rewrite (decide_False (P := new = d)) in Hcount by done.
        destruct (String.string_dec old d) as [<-|Hne'].
        -- rewrite scores_get_set_eq. cbn [or_zero].
           rewrite decide_True in Hcount by done.
           specialize (A3 old Hd). rewrite Hv in A3. cbn [or_zero] in A3. lia.
        -- rewrite scores_get_set_ne by done.
           rewrite decide_False in Hcount by done. specialize (A3 d Hd). lia.
    + rewrite !sum_scores_set. rewrite scores_get_set_ne by done. rewrite Hv.
      cbn [or_zero]. specialize (Hcount WHITE). unfold indicator in Hcount.
      rewrite !decide_False in Hcount by done. lia.
Qed.

Lemma room_accounted_ext s s' :
  canvasState s' = canvasState s ->
  scores s' = scores s ->
  (st_scores (storage s') = st_scores (storage s) \/
   st_scores (storage s') = Some (scores s)) ->
  room_accounted s -> room_accounted s'.
Proof.
  intros Hc Hsc Hst [A1 A2]. split; rewrite Hc.
  - by rewrite Hsc.
  - destruct Hst as [-> | ->]; done.
Qed.

Lemma room_accounted_first : room_accounted (activate empty_storage).
Proof. split; apply accounted_initial. Qed.

Lemma room_accounted_activate s :
  room_inv s -> room_accounted s -> room_accounted (activate (storage s)).
Proof.
  intros Hinv [_ A2].
  destruct (loadState_fields (storage s)) as (Hst & _ & _ & Hc & Hsc & _).
  split; rewrite Hc, ?Hsc, ?Hst, (inv_saved _ Hinv); done.
Qed.

Lemma room_accounted_startGame fails s :
  room_accounted s -> room_accounted (fst (startGame fails s)).
Proof.
  destruct (gameStarted s) eqn:Hg.
  - unfold startGame. by rewrite Hg.
  - rewrite startGame_eq by done. apply room_accounted_ext; try done. by left.
Qed.

Lemma room_accounted_tick fails s :
  room_accounted s -> room_accounted (fst (tick fails s)).
Proof.
  rewrite tick_eq. destruct (0 <? timeLeft s).
  - cbn zeta. cbn [fst]. destruct (Z.rem (timeLeft s - 1) 10 =? 0);
      apply room_accounted_ext; try done; [by right|by left].
  - rewrite endGame_eq. apply room_accounted_ext; try done. by right.
Qed.

Lemma room_accounted_close sid s :
  room_accounted s -> room_accounted (fst (closeOrErrorHandler sid s)).
Proof.
  unfold closeOrErrorHandler.
  destruct (_ && _); apply room_accounted_ext; try done; by left.
Qed.

Lemma room_accounted_handleSession fails w pid c s :
  room_accounted s -> room_accounted (fst (handleSession fails w pid c s)).
Proof.
  intros Hacc.
  destruct (Nat.leb_spec MAX_PLAYERS_PER_ROOM (length (sessions s))) as [Hfull|Hroom].
  { unfold handleSession.
    by destruct (Nat.leb_spec MAX_PLAYERS_PER_ROOM (length (sessions s))); [|lia]. }
  destruct (gameOver s) eqn:Hover.
  { unfold handleSession. rewrite Hover.
    by destruct (Nat.leb_spec MAX_PLAYERS_PER_ROOM (length (sessions s))); [lia|]. }
  rewrite handleSession_eq by done. cbn zeta. cbn [fst].
  set (s0 := set_sessions _ (set_heap _ s)).
  set (s1 := if truthy _ then s0 else _).
  assert (H1 : room_accounted s1).
  { destruct Hacc as [A1 A2]. subst s1 s0.
    destruct (truthy (scores_get c (scores s))) eqn:Ht; split; cbn; try done.
    by apply accounted_register. }
  assert (H2 : room_accounted (set_sessions (survivors fails s1) s1)).
  { revert H1. apply room_accounted_ext; try done. by left. }
  destruct (negb (gameStarted s) && _); [by apply room_accounted_startGame|done].
Qed.

Lemma room_accounted_step fails e s :
  integral_coordinates e ->
  room_inv s -> room_accounted s -> room_accounted (fst (step fails e s)).
Proof.
  intros Hint Hinv Hacc. destruct e as [w pid r|sid m now|sid| |w pid r]; cbn [step].
  - by apply room_accounted_handleSession.
  - destruct (onMessage_cases fails sid m now s)
      as [-> | (session & x & y & row & Hs & _ & _ & -> & Hr & _ & Hrow & Hsame & ->)];
      [done|].
    destruct Hint as [Hix Hiy].
    assert (Hcol : color session <> WHITE).
    { eapply (Forall_lookup_1 _ _ _ _ (inv_colors _ Hinv) Hs). }
    assert (A : accounted (canvas_set (canvasState s) y x (color session))
                  (placed_scores (row_get row x) (color session) (scores s))).
    { apply accounted_placed; try done. apply Hacc. }
    unfold placed. split; cbn -[survivors]; exact A.
  - destruct (heap s !! sid); [by apply room_accounted_close|done].
  - destruct (timerInterval s); [by apply room_accounted_tick|done].
  - apply room_accounted_handleSession. by apply room_accounted_activate.
Qed.

Lemma reachable_by_integral_accounted s :
  reachable_by integral_coordinates s -> room_accounted s.
Proof.
  intros Hr. induction Hr as [|s fails e Hr IH Hok]; [apply room_accounted_first|].
  apply room_accounted_step; try done. by eapply reachable_by_room_inv.
Qed.

(** X1.  Along every run whose placement requests carry integer
    coordinates, the scores and the white cells add up to the grid area,
    100 * 100: initialisation, admission, placement, tick, disconnection
    and re-activation all preserve it. *)
Theorem accounting_holds_for_integer_coordinates s :
  reachable_by integral_coordinates s ->
  sum_scores (scores s) + Z.of_nat (unset_cells (canvasState s))
  = CANVAS_WIDTH * CANVAS_HEIGHT.
Proof. intros Hr. apply (reachable_by_integral_accounted s Hr). Qed.

Lemma accounting_holds_for_integer_coordinates_witness :
  sum_scores (scores after_first_pixel)
  + Z.of_nat (unset_cells (canvasState after_first_pixel)) = 10000.
Proof.
  apply (accounting_holds_for_integer_coordinates after_first_pixel).
  unfold after_first_pixel, two_players, one_player, run. cbn [fold_left fst snd].
  repeat (apply reach_step; [|vm_compute; tauto]). apply reach_first.
Defined.

(** ** Rejections that hold as the claims say *)

(** X2.  While the game runs, a placement request whose coordinates are
    not both numbers within [0, 100), or whose payload is missing, leaves
    the room as it was, and its only effect is one error message to the
    sending session. *)
Theorem invalid_coordinates_are_rejected fails sid session p now s :
  heap s !! sid = Some session ->
  gameStarted s = true -> gameOver s = false ->
  passes_validation p = false ->
  exists text,
    onMessage fails sid (InPlacePixel p) now s
    = (s, [Sent (ws session) (MsgError text)]).
Proof.
  intros Hs Hg Ho Hv. unfold onMessage. rewrite Hs, Hg, Ho. cbn [negb orb].
  destruct (handlePlacePixel_invalid fails sid session p now s Hv) as [-> | ->]; eauto.
Qed.

Lemma invalid_coordinates_are_rejected_witness :
  exists text,
    onMessage no_failure 0%nat (pixel 100 0) 5000 two_players
    = (two_players, [Sent 10%nat (MsgError text)]).
Proof.
  apply (invalid_coordinates_are_rejected no_failure 0%nat
           (mkSession 10%nat "alice" "#FF0000" 0)
           (PayloadFields (JNumber (Finite 100)) (JNumber (Finite 0)))
           5000 two_players); vm_compute; reflexivity.
Defined.



(** ** The registry holds live references *)

Lemma refs_valid_ext s s' :
  (length (heap s) <= length (heap s'))%nat ->
  (forall sid, sid ∈ sessions s' -> sid ∈ sessions s) ->
  refs_valid s -> refs_valid s'.
Proof.
  intros Hh Hsub Hv sid Hin. specialize (Hv sid (Hsub sid Hin)). lia.
Qed.

Lemma survivors_subset fails s sid : sid ∈ survivors fails s -> sid ∈ sessions s.
Proof. unfold survivors. rewrite list_elem_of_filter. tauto. Qed.

Lemma refs_valid_startGame fails s :
  refs_valid s -> refs_valid (fst (startGame fails s)).
Proof.
  destruct (gameStarted s) eqn:Hg.
  - unfold startGame. by rewrite Hg.
  - rewrite startGame_eq by done. apply refs_valid_ext; [done|].
    intros sid. apply survivors_subset.
Qed.

Lemma refs_valid_handleSession fails w pid c s :
  refs_valid s -> refs_valid (fst (handleSession fails w pid c s)).
Proof.
  intros Hv.
  destruct (Nat.leb_spec MAX_PLAYERS_PER_ROOM (length (sessions s))) as [Hfull|Hroom].
  { by rewrite handleSession_rejected by (by left). }
  destruct (gameOver s) eqn:Hover.
  { by rewrite handleSession_rejected by (by right). }
  rewrite handleSession_eq by done. cbn zeta. cbn [fst].
  set (s0 := set_sessions _ (set_heap _ s)).
  set (s1 := if truthy _ then s0 else _).
  assert (H1 : refs_valid s1).
  { assert (H0 : refs_valid s0).
    { subst s0. intros sid. cbn. rewrite length_app. cbn.
      intros [Hin| ->%list_elem_of_singleton]%elem_of_app; [|lia].
      specialize (Hv sid Hin). lia. }
    subst s1. by destruct (truthy _). }
  assert (H2 : refs_valid (set_sessions (survivors fails s1) s1)).
  { revert H1. apply refs_valid_ext; [done|]. intros sid. apply survivors_subset. }
  destruct (negb (gameStarted s) && _); [by apply refs_valid_startGame|done].
Qed.

Lemma refs_valid_step fails e s : refs_valid s -> refs_valid (fst (step fails e s)).
Proof.
  intros Hv. destruct e as [w pid r|sid m now|sid| |w pid r]; cbn [step].
  - by apply refs_valid_handleSession.
  - destruct (onMessage_cases fails sid m now s)
      as [-> | (session & x & y & row & _ & _ & _ & _ & _ & _ & _ & _ & ->)];
      [done|].
    revert Hv. apply refs_valid_ext.
    + unfold placed. cbn -[survivors]. by rewrite length_insert.
    + intros ref. unfold placed. cbn -[survivors]. apply survivors_subset.
  - destruct (heap s !! sid); [|done]. unfold closeOrErrorHandler.
    destruct (_ && _); cbn [fst]; revert Hv; apply refs_valid_ext; try done;
      intros ref; cbn; rewrite list_elem_of_filter; tauto.
  - destruct (timerInterval s); [|done]. rewrite tick_eq.
    destruct (0 <? timeLeft s).
    + cbn zeta. cbn [fst]. destruct (Z.rem (timeLeft s - 1) 10 =? 0);
        revert Hv; apply refs_valid_ext; try done; intros ref; apply survivors_subset.
    + rewrite endGame_eq. revert Hv. apply refs_valid_ext; [done|].
      intros ref. apply survivors_subset.
  - apply refs_valid_handleSession.
    destruct (loadState_fields (storage s)) as (_ & _ & Hse & _).
    intros ref. rewrite Hse. by intros ?%not_elem_of_nil.
Qed.

Lemma reachable_refs_valid s : reachable s -> refs_valid s.
Proof.
  induction 1 as [|s fails e _ IH _]; [|by apply refs_valid_step].
  intros r. by intros ?%not_elem_of_nil.
Qed.

Lemma attempts_length fails m hp arr :
  (forall sid, sid ∈ arr -> (sid < length hp)%nat) ->
  length (attempts fails m hp arr) = length arr.
Proof.
  induction arr as [|sid arr IH]; intros Hv; [done|].
  unfold attempts. cbn [omap list_omap]. fold (attempts fails m hp arr).
  destruct (lookup_lt_is_Some_2 hp sid) as [session Hs]; [apply Hv; left|].
  rewrite Hs. cbn. f_equal. apply IH. intros r Hr. apply Hv. by right.
Qed.

(** X4.  In every reachable room each registered reference denotes a
    session object, so a broadcast makes exactly one delivery attempt per
    registered session and the registry afterwards is the registry
    before without the sessions whose send failed. *)
Theorem broadcast_attempts_every_session fails m s :
  reachable s ->
  length (snd (broadcast fails m s)) = length (sessions s) /\
  (forall sid, sid ∈ sessions s ->
     exists session,
       heap s !! sid = Some session /\
       ((fails (ws session) = true /\
         SendFailed (ws session) m ∈ snd (broadcast fails m s) /\
         sid ∉ sessions (fst (broadcast fails m s)))
        \/
        (fails (ws session) = false /\
         Sent (ws session) m ∈ snd (broadcast fails m s) /\
         sid ∈ sessions (fst (broadcast fails m s))))).
Proof.
  intros Hr. pose proof (reachable_refs_valid s Hr) as Hv.
  rewrite broadcast_eq. cbn [fst snd]. split; [by apply attempts_length|].
  intros sid Hin.
  destruct (lookup_lt_is_Some_2 (heap s) sid (Hv sid Hin)) as [session Hs].
  exists session. split; [done|].
  assert (Hatt : (if fails (ws session) then SendFailed (ws session) m
                  else Sent (ws session) m)
                 ∈ attempts fails m (heap s) (sessions s)).
  { apply list_elem_of_omap. exists sid. split; [done|]. by rewrite Hs. }
  unfold survivors. cbn [sessions set_sessions].
  destruct (fails (ws session)) eqn:Hf; [left|right];
    (split; [done|]); (split; [done|]);
    rewrite list_elem_of_filter; unfold send_throws; rewrite Hs, Hf.
  - intros [Hd _]. discriminate Hd.
  - by split.
Qed.

Lemma broadcast_attempts_every_session_witness :
  length (snd (broadcast (fun w => Nat.eqb w 10) (MsgTimerUpdate 299) two_players)) = 2%nat /\
  sessions (fst (broadcast (fun w => Nat.eqb w 10) (MsgTimerUpdate 299) two_players))
  = [1%nat].
Proof.
  assert (Hr : reachable two_players).
  { unfold two_players, one_player. repeat apply reachable_run. apply reach_first. }
  destruct (broadcast_attempts_every_session (fun w => Nat.eqb w 10)
              (MsgTimerUpdate 299) two_players Hr) as [H1 _].
  split; [exact H1|vm_compute; reflexivity].
Defined.

(** * Beyond the claims *)

(** ** The store and the room *)

Lemma store_inv_first : store_inv (activate empty_storage).
Proof.
  split; cbn; try done; lia.
Qed.

Lemma store_inv_activate s : store_inv s -> store_inv (activate (storage s)).
Proof.
  intros [I1 I2 I3 I4 I5 I6 I7 I8 I9].
  destruct (loadState_fields (storage s))
    as (Hst & _ & _ & _ & Hsc & Htl & Hg & Ho & Hti).
  rewrite I1 in Hg, Hti. rewrite I2 in Ho, Hti.
  split; rewrite ?Hst, ?Hsc, ?Htl, ?Hg, ?Ho, ?Hti; try done.
  - intros Ht. apply andb_true_iff in Ht as [Ht _].
    apply andb_true_iff in Ht as [Hg' Ho']. by apply negb_true_iff in Ho'.
  - lia.
  - lia.
  - intros m Hm. lia.
  - intros Hg' Ho'. specialize (I7 Hg' Ho'). lia.
  - intros Ho'. destruct (I9 Ho') as (Hg' & _ & Hs).
    rewrite Hg', Hs. by repeat split.
Qed.

Lemma store_inv_sessions l s : store_inv s -> store_inv (set_sessions l s).
Proof. intros [I1 I2 I3 I4 I5 I6 I7 I8 I9]. by split. Qed.

Lemma store_inv_startGame fails s :
  gameOver s = false -> store_inv s -> store_inv (fst (startGame fails s)).
Proof.
  intros Ho Hinv. destruct (gameStarted s) eqn:Hg.
  { unfold startGame. by rewrite Hg. }
  rewrite startGame_eq by done. cbn [fst]. apply store_inv_sessions.
  destruct Hinv as [I1 I2 I3 I4 I5 I6 I7 I8 I9].
  specialize (I7 Hg Ho). rewrite I7 in I5. unfold GAME_DURATION_SECONDS in *.
  split; cbn; unfold GAME_DURATION_SECONDS in *; try done; try lia.
  intros Ho'. congruence.
Qed.


Lemma or_zero_register c k sc :
  truthy (scores_get c sc) = false ->
  or_zero (scores_get k (scores_set c 0 sc)) = or_zero (scores_get k sc).
Proof.
  intros Hf. apply truthy_false_zero in Hf.
  destruct (String.string_dec c k) as [<-|Hne].
  - by rewrite scores_get_set_eq, Hf.
  - by rewrite scores_get_set_ne.
Qed.

Lemma store_inv_handleSession fails w pid c s :
  store_inv s -> store_inv (fst (handleSession fails w pid c s)).
Proof.
  intros Hinv.
  destruct (Nat.leb_spec MAX_PLAYERS_PER_ROOM (length (sessions s))) as [Hfull|Hroom].
  { by rewrite handleSession_rejected by (by left). }
  destruct (gameOver s) eqn:Hover.
  { by rewrite handleSession_rejected by (by right). }
  rewrite handleSession_eq by done. cbn zeta. cbn [fst].
  set (s0 := set_sessions _ (set_heap _ s)).
  set (s1 := if truthy _ then s0 else _).
  assert (H1 : store_inv s1 /\ gameOver s1 = false).
  { destruct Hinv as [I1 I2 I3 I4 I5 I6 I7 I8 I9]. subst s1 s0.
    destruct (truthy (scores_get c (scores s))) eqn:Ht; (split; [split|]); cbn; try done.
    - intros k. rewrite I8. symmetry. by apply or_zero_register.
    - congruence.
  }
  destruct H1 as [H1 Ho1].
  destruct (negb (gameStarted s) && _).
  - apply store_inv_startGame; [done|]. by apply store_inv_sessions.
  - by apply store_inv_sessions.
Qed.

Lemma store_inv_placed fails sid session x y old now s :
  gameStarted s = true -> gameOver s = false ->
  store_inv s -> store_inv (placed fails sid session x y old now s).
Proof.
  intros Hg Ho [I1 I2 I3 I4 I5 I6 I7 I8 I9]. unfold placed.
  split; cbn -[survivors placed_scores]; try done; try lia; congruence.
Qed.

Lemma store_inv_onMessage fails sid m now s :
  store_inv s -> store_inv (fst (onMessage fails sid m now s)).
Proof.
  intros Hinv.
  destruct (onMessage_cases fails sid m now s)
    as [-> | (session & x & y & row & _ & Hg & Ho & _ & _ & _ & _ & _ & ->)];
    [done|by apply store_inv_placed].
Qed.

Lemma store_inv_close sid s :
  store_inv s -> store_inv (fst (closeOrErrorHandler sid s)).
Proof.
  intros [I1 I2 I3 I4 I5 I6 I7 I8 I9]. unfold closeOrErrorHandler.
  destruct (_ && _); split; cbn; try done.
  intros Ho. destruct (I9 Ho) as (? & ? & ?). by repeat split.
Qed.

Lemma store_inv_tick fails s :
  timerInterval s = true -> store_inv s -> store_inv (fst (tick fails s)).
Proof.
  intros Ht [I1 I2 I3 I4 I5 I6 I7 I8 I9]. destruct (I3 Ht) as [Hg Ho].
  rewrite tick_eq. destruct (Z.ltb_spec 0 (timeLeft s)) as [Hpos|Hzero].
  - cbn zeta. cbn [fst].
    destruct (Z.eqb_spec (Z.rem (timeLeft s - 1) 10) 0) as [Hrem|Hrem];
      split; cbn -[survivors]; try done; try lia; try congruence.
    intros m Hm. destruct (Z.eq_dec m (timeLeft s - 1)) as [->|Hne]; [done|].
    apply I6. lia.
  - rewrite endGame_eq. cbn [fst].
    split; cbn -[survivors]; try done; try lia; try congruence.
Qed.

Lemma store_inv_step fails e s : store_inv s -> store_inv (fst (step fails e s)).
Proof.
  intros Hinv. destruct e as [w pid r|sid m now|sid| |w pid r]; cbn [step].
  - by apply store_inv_handleSession.
  - by apply store_inv_onMessage.
  - destruct (heap s !! sid); [by apply store_inv_close|done].
  - destruct (timerInterval s) eqn:Ht; [by apply store_inv_tick|done].
  - apply store_inv_handleSession. by apply store_inv_activate.
Qed.

Lemma reachable_store_inv s : reachable s -> store_inv s.
Proof.
  induction 1 as [|s fails e _ IH _]; [apply store_inv_first|by apply store_inv_step].
Qed.

Lemma run_store_inv evs s : store_inv s -> store_inv (run evs s).
Proof.
  revert s. induction evs as [|[f e] evs IH]; intros s Hinv; [done|].
  rewrite run_cons. apply IH. by apply store_inv_step.
Qed.

Lemma run_room_inv evs s : room_inv s -> room_inv (run evs s).
Proof.
  revert s. induction evs as [|[f e] evs IH]; intros s Hinv; [done|].
  rewrite run_cons. apply IH. by apply room_inv_step.
Qed.

Lemma clock_loss_bound t stored :
  0 <= t <= stored ->
  (forall m, t <= m < stored -> Z.rem m 10 <> 0) ->
  stored <= t + 9.
Proof.
  intros Ht Hrec. destruct (Z_le_gt_dec stored (t + 9)) as [|Hgt]; [done|].
  exfalso. apply (Hrec (10 * ((t + 9) / 10))).
  - pose proof (Z.div_mod (t + 9) 10 ltac:(lia)).
    pose proof (Z.mod_pos_bound (t + 9) 10 ltac:(lia)). lia.
  - rewrite Z.mul_comm. apply Z.rem_mul. lia.
Qed.

(** X5.  What an eviction costs.  Activating the object on what a
    reachable room has stored restores the room's canvas, every colour's
    score, and the started and over flags; the clock restored is the
    room's or up to 9 seconds more (the last multiple of ten saved); the
    registry is empty; and the interval is installed exactly when the
    game is started, not over, and time remains. *)
Theorem reactivation_restores_room s :
  reachable s ->
  let s' := activate (storage s) in
  canvasState s' = canvasState s /\
  (forall k, or_zero (scores_get k (scores s')) = or_zero (scores_get k (scores s))) /\
  gameStarted s' = gameStarted s /\ gameOver s' = gameOver s /\
  timeLeft s <= timeLeft s' <= timeLeft s + 9 /\
  sessions s' = [] /\
  (timerInterval s' = true <->
   gameStarted s = true /\ gameOver s = false /\ 0 < timeLeft s').
Proof.
  intros Hr. cbn zeta.
  pose proof (reachable_store_inv s Hr) as [I1 I2 I3 I4 I5 I6 I7 I8 I9].
  pose proof (inv_saved _ (reachable_by_room_inv _ _ Hr)) as Hcv.
  destruct (loadState_fields (storage s))
    as (_ & _ & Hse & Hc & Hsc & Htl & Hg & Ho & Hti).
  rewrite Hc, Hsc, Htl, Hg, Ho, Hti, Hse, I1, I2, Hcv.
  do 4 (split; [done|]). split; [|split; [done|]].
  - split; [lia|]. apply clock_loss_bound; [lia|done].
  - rewrite !andb_true_iff, negb_true_iff, Z.ltb_lt. tauto.
Qed.

Lemma reactivation_restores_room_witness :
  timeLeft seven_ticks_later = 293 /\
  timeLeft (activate (storage seven_ticks_later)) = 300 /\
  canvasState (activate (storage seven_ticks_later)) = canvasState seven_ticks_later.
Proof.
  assert (Hr : reachable seven_ticks_later).
  { unfold seven_ticks_later, after_first_pixel, two_players, one_player.
    repeat apply reachable_run. apply reach_first. }
  destruct (reactivation_restores_room seven_ticks_later Hr) as (H1 & _).
  split; [vm_compute; reflexivity|]. split; [vm_compute; reflexivity|exact H1].
Defined.

(** ** Scores change by placement only *)

Lemma handleSession_score_values fails w pid c s k :
  or_zero (scores_get k (scores (fst (handleSession fails w pid c s))))
  = or_zero (scores_get k (scores s)).
Proof.
  destruct (Nat.leb_spec MAX_PLAYERS_PER_ROOM (length (sessions s))) as [Hfull|Hroom].
  { by rewrite handleSession_rejected by (by left). }
  destruct (gameOver s) eqn:Hover.
  { by rewrite handleSession_rejected by (by right). }
  rewrite handleSession_eq by done. cbn zeta. cbn [fst].
  assert (Hv : forall s1,
             scores s1 = (if truthy (scores_get c (scores s)) then scores s
                          else scores_set c 0 (scores s)) ->
             or_zero (scores_get k (scores s1)) = or_zero (scores_get k (scores s))).
  { intros s1 ->. destruct (truthy (scores_get c (scores s))) eqn:Ht; [done|].
    by apply or_zero_register. }
  destruct (negb (gameStarted s) && _); [rewrite startGame_scores|];
    apply Hv; by destruct (truthy _).
Qed.

Lemma tick_scores fails s : scores (fst (tick fails s)) = scores s.
Proof.
  rewrite tick_eq. destruct (0 <? timeLeft s).
  - cbn zeta. cbn [fst]. by destruct (Z.rem (timeLeft s - 1) 10 =? 0).
  - by rewrite endGame_eq.
Qed.

Lemma close_scores sid s : scores (fst (closeOrErrorHandler sid s)) = scores s.
Proof. unfold closeOrErrorHandler. by destruct (_ && _). Qed.

(** X6.  In a reachable room no event other than a client's message
    changes the canvas or any colour's score (an absent entry counting as
    zero): admission registers a colour only when its score is absent or
    zero and never resets one, disconnection keeps the entry, a tick
    leaves both alone, and a re-activation brings both back. *)
Theorem scores_and_canvas_change_by_message_only s fails e :
  reachable s ->
  is_message e = false ->
  canvasState (fst (step fails e s)) = canvasState s /\
  forall k, or_zero (scores_get k (scores (fst (step fails e s))))
            = or_zero (scores_get k (scores s)).
Proof.
  intros Hr Hmsg. pose proof (reachable_by_room_inv _ _ Hr) as Hinv.
  split.
  - destruct (step_canvas fails e s Hinv) as [->|(sid & session & x & y & _ & _)];
      [done|].
    destruct e as [w pid r|sid' m now|sid'| |w pid r]; try discriminate Hmsg; cbn [step].
    + apply handleSession_canvas.
    + destruct (heap s !! sid'); [apply close_canvas|done].
    + destruct (timerInterval s); [apply tick_canvas|done].
    + unfold fetch. rewrite handleSession_canvas.
      destruct (loadState_fields (storage s)) as (_ & _ & _ & -> & _). apply Hinv.
  - intros k.
    destruct e as [w pid r|sid' m now|sid'| |w pid r]; try discriminate Hmsg; cbn [step].
    + apply handleSession_score_values.
    + destruct (heap s !! sid'); [by rewrite close_scores|done].
    + destruct (timerInterval s); [by rewrite tick_scores|done].
    + unfold fetch. rewrite handleSession_score_values.
      destruct (loadState_fields (storage s)) as (_ & _ & _ & _ & -> & _).
      apply (si_scores _ (reachable_store_inv s Hr)).
Qed.

Lemma scores_and_canvas_change_by_message_only_witness :
  color <$> heap after_reconnection !! 2%nat = Some "#FF0000" /\
  scores_get "#FF0000" (scores after_reconnection) = Some 1 /\
  or_zero (scores_get "#FF0000"
             (scores (fst (step no_failure (EConnect 20%nat "zoe" 0)
                                (run [(no_failure, EClose 0%nat)] after_first_pixel)))))
  = or_zero (scores_get "#FF0000"
               (scores (run [(no_failure, EClose 0%nat)] after_first_pixel))).
Proof.
  assert (Hr : reachable (run [(no_failure, EClose 0%nat)] after_first_pixel)).
  { unfold after_first_pixel, two_players, one_player.
    repeat apply reachable_run. apply reach_first. }
  destruct (scores_and_canvas_change_by_message_only _ no_failure
              (EConnect 20%nat "zoe" 0) Hr eq_refl) as [_ H].
  split; [vm_compute; reflexivity|]. split; [vm_compute; reflexivity|].
  exact (H "#FF0000").
Defined.

(** ** The clock *)

Lemma tick_running fails s :
  0 < timeLeft s ->
  timeLeft (fst (tick fails s)) = timeLeft s - 1 /\
  timerInterval (fst (tick fails s)) = timerInterval s /\
  gameOver (fst (tick fails s)) = gameOver s /\
  gameStarted (fst (tick fails s)) = gameStarted s /\
  snd (tick fails s) = attempts fails (MsgTimerUpdate (timeLeft s - 1)) (heap s) (sessions s).
Proof.
  intros Hpos. rewrite tick_eq.
  destruct (Z.ltb_spec 0 (timeLeft s)); [|lia]. cbn zeta. cbn [fst snd].
  by destruct (Z.rem (timeLeft s - 1) 10 =? 0).
Qed.

Lemma tick_ends fails s :
  timeLeft s <= 0 ->
  gameOver (fst (tick fails s)) = true /\
  gameStarted (fst (tick fails s)) = false /\
  timerInterval (fst (tick fails s)) = false /\
  timeLeft (fst (tick fails s)) = timeLeft s /\
  st_gameOver (storage (fst (tick fails s))) = Some true.
Proof.
  intros Hz. rewrite tick_eq.
  destruct (Z.ltb_spec 0 (timeLeft s)); [lia|]. by rewrite endGame_eq.
Qed.

Lemma ticks_count_down evs s :
  Forall (fun fe : (nat -> bool) * Event => snd fe = ETick) evs ->
  timerInterval s = true ->
  Z.of_nat (length evs) <= timeLeft s ->
  timeLeft (run evs s) = timeLeft s - Z.of_nat (length evs) /\
  timerInterval (run evs s) = true /\
  gameOver (run evs s) = gameOver s /\
  gameStarted (run evs s) = gameStarted s.
Proof.
  revert s. induction evs as [|[f e] evs IH]; intros s Hall Ht Hlen.
  - cbn. repeat split; try done. lia.
  - inversion Hall as [|? ? He Hrest]; subst. cbn in He. subst e.
    rewrite run_cons. cbn [step]. rewrite Ht. cbn [length] in Hlen.
    destruct (tick_running f s ltac:(lia)) as (T1 & T2 & T3 & T4 & _).
    destruct (IH (fst (tick f s)) Hrest) as (R1 & R2 & R3 & R4).
    + by rewrite T2.
    + rewrite T1. lia.
    + rewrite R1, R3, R4, T1, T3, T4. cbn [length]. repeat split; try done. lia.
Qed.

(** X7.  The clock of a reachable room stays within [0, 300]; the
    interval is installed only while the game is started and not over;
    a room whose game has not started and is not over shows the full
    300.  While the interval is installed each tick takes exactly one
    second off: after [n <= timeLeft] ticks the clock shows
    [timeLeft - n] with the game still running, and after
    [timeLeft + 1] ticks the game is over, the interval is cleared and
    the over flag is stored. *)
Theorem clock_counts_down_to_game_over s evs :
  reachable s ->
  Forall (fun fe : (nat -> bool) * Event => snd fe = ETick) evs ->
  (0 <= timeLeft s <= GAME_DURATION_SECONDS) /\
  (timerInterval s = true -> gameStarted s = true /\ gameOver s = false) /\
  (gameStarted s = false -> gameOver s = false -> timeLeft s = GAME_DURATION_SECONDS) /\
  (timerInterval s = true ->
   Z.of_nat (length evs) <= timeLeft s ->
   timeLeft (run evs s) = timeLeft s - Z.of_nat (length evs) /\
   timerInterval (run evs s) = true /\ gameOver (run evs s) = false) /\
  (timerInterval s = true ->
   Z.of_nat (length evs) = timeLeft s + 1 ->
   gameOver (run evs s) = true /\ gameStarted (run evs s) = false /\
   timerInterval (run evs s) = false /\ timeLeft (run evs s) = 0 /\
   st_gameOver (storage (run evs s)) = Some true).
Proof.
  intros Hr Hall. pose proof (reachable_store_inv s Hr) as Hinv.
  split; [apply Hinv|]. split; [apply Hinv|]. split; [apply Hinv|]. split.
  - intros Ht Hlen. destruct (ticks_count_down evs s Hall Ht Hlen) as (R1 & R2 & R3 & _).
    destruct (si_timer _ Hinv Ht) as [_ Ho]. rewrite R3. by repeat split.
  - intros Ht Hlen.
    destruct evs as [|fe evs _] using rev_ind.
    { cbn in Hlen. pose proof (si_range _ Hinv). lia. }
    apply Forall_app in Hall as [Hall Hlast].
    inversion Hlast as [|? ? He _]; subst. destruct fe as [f e]. cbn in He. subst e.
    rewrite length_app in Hlen. cbn [length] in Hlen.
    destruct (ticks_count_down evs s Hall Ht ltac:(lia)) as (R1 & R2 & _).
    unfold run in *. rewrite fold_left_app. cbn [fold_left fst snd step].
    rewrite R2.
    destruct (tick_ends f (fold_left
                (fun (s0 : GameRoom) (fe : (nat -> bool) * Event) =>
                   fst (step (fst fe) (snd fe) s0)) evs s) ltac:(lia))
      as (E1 & E2 & E3 & E4 & E5).
    rewrite E1, E2, E3, E4, E5. repeat split; try done. lia.
Qed.

Lemma clock_counts_down_to_game_over_witness :
  timeLeft seven_ticks_later = 293 /\ gameOver seven_ticks_later = false /\
  gameOver finished_game = true /\ timerInterval finished_game = false.
Proof.
  assert (Hr : reachable after_first_pixel).
  { unfold after_first_pixel, two_players, one_player.
    repeat apply reachable_run. apply reach_first. }
  assert (H7 : Forall (fun fe : (nat -> bool) * Event => snd fe = ETick)
                      (replicate 7 (no_failure, ETick))).
  { by apply Forall_replicate. }
  assert (H301 : Forall (fun fe : (nat -> bool) * Event => snd fe = ETick)
                        (replicate 301 (no_failure, ETick))).
  { by apply Forall_replicate. }
  destruct (clock_counts_down_to_game_over after_first_pixel _ Hr H7)
    as (_ & _ & _ & Hrun & _).
  destruct (clock_counts_down_to_game_over after_first_pixel _ Hr H301)
    as (_ & _ & _ & _ & Hend).
  destruct (Hrun eq_refl ltac:(vm_compute; discriminate)) as (A1 & _ & A3).
  destruct (Hend eq_refl ltac:(vm_compute; reflexivity)) as (B1 & _ & B3 & _).
  split; [exact A1|]. split; [exact A3|]. split; [exact B1|exact B3].
Defined.

(** ** A finished game *)

Lemma over_step fails e s :
  room_inv s -> store_inv s -> gameOver s = true ->
  gameOver (fst (step fails e s)) = true /\
  canvasState (fst (step fails e s)) = canvasState s /\
  scores (fst (step fails e s)) = scores s.
Proof.
  intros Hroom Hst Ho. destruct (si_final _ Hst Ho) as (Hg & Ht & Hsaved).
  destruct e as [w pid r|sid m now|sid| |w pid r]; cbn [step].
  - unfold fetch. by rewrite handleSession_rejected by (by right).
  - destruct (onMessage_cases fails sid m now s)
      as [-> | (session & x & y & row & _ & _ & Ho' & _)]; [done|congruence].
  - destruct (heap s !! sid); [|done]. unfold closeOrErrorHandler.
    by destruct (_ && _).
  - by rewrite Ht.
  - unfold fetch.
    destruct (loadState_fields (storage s))
      as (_ & _ & _ & Hc & Hsc & _ & _ & Hov & _).
    rewrite (si_over _ Hst), Ho in Hov.
    rewrite handleSession_rejected by (by right).
    rewrite Hov, Hc, Hsc, Hsaved, (inv_saved _ Hroom). by repeat split.
Qed.

(** X8.  A finished game stays finished.  From a reachable room whose
    game is over, over any sequence of events (re-activations included)
    the game is still over, the interval is not installed, and the canvas
    and the score table are exactly what they were; every message of a
    client leaves the room as it is; and a connection is turned away
    without being registered, with "Game has already ended." and close
    code 1000 unless 8 sessions are still registered. *)
Theorem game_over_is_final s evs :
  reachable s ->
  gameOver s = true ->
  let s' := run evs s in
  gameOver s' = true /\ gameStarted s' = false /\ timerInterval s' = false /\
  canvasState s' = canvasState s /\ scores s' = scores s /\
  (forall fails sid m now, fst (step fails (EMessage sid m now) s') = s') /\
  (forall fails w pid r,
      fst (step fails (EConnect w pid r) s') = s' /\
      ((length (sessions s') < MAX_PLAYERS_PER_ROOM)%nat ->
       snd (step fails (EConnect w pid r) s')
       = [Sent w (MsgError "Game has already ended."); Closed w 1000 "Game ended"])).
Proof.
  intros Hr Ho. cbn zeta.
  pose proof (reachable_by_room_inv _ _ Hr) as Hroom.
  pose proof (reachable_store_inv s Hr) as Hst.
  assert (Hrun : gameOver (run evs s) = true /\
                 canvasState (run evs s) = canvasState s /\
                 scores (run evs s) = scores s).
  { clear Hr. revert s Ho Hroom Hst.
    induction evs as [|[f e] evs IH]; intros s Ho Hroom Hst; [done|].
    rewrite run_cons. destruct (over_step f e s Hroom Hst Ho) as (O1 & O2 & O3).
    destruct (IH _ O1 (room_inv_step f e s Hroom) (store_inv_step f e s Hst))
      as (R1 & R2 & R3).
    rewrite R2, R3, O2, O3. by repeat split. }
  destruct Hrun as (R1 & R2 & R3).
  pose proof (run_store_inv evs s Hst) as Hst'.
  destruct (si_final _ Hst' R1) as (Hg & Ht & _).
  do 5 (split; [done|]). split.
  - intros fails sid m now. cbn [step].
    destruct (onMessage_cases fails sid m now (run evs s))
      as [-> | (session & x & y & row & _ & _ & Ho' & _)]; [done|congruence].
  - intros fails w pid r. cbn [step]. unfold fetch. split.
    + by rewrite handleSession_rejected by (by right).
    + intros Hroom'. unfold handleSession. rewrite R1.
      by destruct (Nat.leb_spec MAX_PLAYERS_PER_ROOM (length (sessions (run evs s))));
        [lia|].
Qed.

Lemma game_over_is_final_witness :
  gameOver finished_game = true /\
  scores (run [(no_failure, EMessage 1%nat (pixel 9 9) 400000);
               (no_failure, EReactivate 30%nat "yan" 0)] finished_game)
  = scores finished_game /\
  snd (step no_failure (EConnect 31%nat "xi" 0)
         (run [(no_failure, EMessage 1%nat (pixel 9 9) 400000);
               (no_failure, EReactivate 30%nat "yan" 0)] finished_game))
  = [Sent 31%nat (MsgError "Game has already ended."); Closed 31%nat 1000 "Game ended"].
Proof.
  assert (Hr : reachable finished_game).
  { unfold finished_game, after_first_pixel, two_players, one_player.
    repeat apply reachable_run. apply reach_first. }
  assert (Ho : gameOver finished_game = true) by (vm_compute; reflexivity).
  destruct (game_over_is_final finished_game
              [(no_failure, EMessage 1%nat (pixel 9 9) 400000);
               (no_failure, EReactivate 30%nat "yan" 0)] Hr Ho)
    as (_ & _ & _ & _ & Hsc & _ & Hc).
  destruct (Hc no_failure 31%nat "xi" 0) as [_ Hrej].
  split; [exact Ho|]. split; [exact Hsc|].
  apply Hrej. vm_compute. lia.
Defined.

(** ** The colours of the registered sessions *)

Lemma omap_sublist {A B} (f : A -> option B) (l1 l2 : list A) :
  l1 `sublist_of` l2 -> omap f l1 `sublist_of` omap f l2.
Proof.
  induction 1 as [|x l1 l2 _ IH|x l1 l2 _ IH]; cbn.
  - constructor.
  - destruct (f x); [by constructor|done].
  - destruct (f x); [by constructor|done].
Qed.

Lemma omap_ext_in {A B} (f g : A -> option B) (l : list A) :
  (forall x, x ∈ l -> f x = g x) -> omap f l = omap g l.
Proof.
  induction l as [|a l IH]; intros Hfg; [done|]. cbn.
  rewrite (Hfg a) by left. rewrite IH; [done|]. intros x Hx. apply Hfg. by right.
Qed.

Lemma usedColors_sublist s s' :
  (forall r, color <$> heap s' !! r = color <$> heap s !! r) ->
  sessions s' `sublist_of` sessions s ->
  usedColors s' `sublist_of` usedColors s.
Proof.
  intros Hh Hsub. unfold usedColors.
  rewrite (omap_ext_in _ (fun sid => color <$> heap s !! sid)) by (intros; apply Hh).
  by apply omap_sublist.
Qed.

Lemma palette_inv_sublist s s' :
  usedColors s' `sublist_of` usedColors s -> palette_inv s -> palette_inv s'.
Proof.
  intros Hsub [Hnd Hpal]. split; [by eapply sublist_NoDup|].
  apply Forall_forall. intros c Hc. rewrite Forall_forall in Hpal. apply Hpal.
  by eapply sublist_subseteq.
Qed.

Lemma survivors_sublist fails s : survivors fails s `sublist_of` sessions s.
Proof. apply sublist_filter. Qed.

Lemma usedColors_length s : refs_valid s -> length (usedColors s) = length (sessions s).
Proof.
  unfold refs_valid, usedColors. induction (sessions s) as [|sid l IH]; intros Hv; [done|].
  cbn. destruct (lookup_lt_is_Some_2 (heap s) sid) as [x Hx]; [apply Hv; left|].
  rewrite Hx. cbn. f_equal. apply IH. intros r Hr. apply Hv. by right.
Qed.

Lemma find_first {A} (P : A -> bool) (l : list A) x :
  List.find P l = Some x ->
  exists before after,
    l = before ++ x :: after /\ Forall (fun y => P y = false) before /\ P x = true.
Proof.
  induction l as [|a l IH]; cbn; [discriminate|].
  destruct (P a) eqn:Ha.
  - intros [= <-]. exists [], l. by repeat split.
  - intros Hf. destruct (IH Hf) as (before & after & -> & Hb & Hx).
    exists (a :: before), after. repeat split; [|done]. by constructor.
Qed.

Lemma existsb_eqb c l : existsb (String.eqb c) l = true <-> c ∈ l.
Proof.
  rewrite existsb_exists. split.
  - intros (x & Hin & ->%String.eqb_eq). by apply list_elem_of_In.
  - intros Hin. exists c. split; [by apply list_elem_of_In|apply String.eqb_refl].
Qed.

Lemma PLAYER_COLORS_NoDup : List.NoDup PLAYER_COLORS.
Proof.
  unfold PLAYER_COLORS.
  repeat (constructor; [cbn; intros Hin;
                        repeat (destruct Hin as [Hin|Hin]; [discriminate Hin|]);
                        destruct Hin|]).
  constructor.
Qed.

(** With fewer than eight colours in use [assignColor] returns the first
    palette colour not in use; the random fallback is not consulted. *)
Lemma assignColor_first_unused r s :
  (length (usedColors s) < 8)%nat ->
  exists before after,
    PLAYER_COLORS = before ++ assignColor r s :: after /\
    Forall (fun c => c ∈ usedColors s) before /\
    assignColor r s ∉ usedColors s.
Proof.
  intros Hlen. unfold assignColor.
  destruct (List.find _ PLAYER_COLORS) as [c|] eqn:Hf.
  - destruct (find_first _ _ _ Hf) as (before & after & Heq & Hb & Hc).
    exists before, after. split; [done|]. split.
    + eapply Forall_impl; [exact Hb|]. intros y Hy. cbv beta in Hy.
      apply negb_false_iff in Hy. by apply existsb_eqb.
    + apply negb_true_iff in Hc. intros Hin. apply existsb_eqb in Hin. congruence.
  - exfalso.
    assert (Hincl : incl PLAYER_COLORS (usedColors s)).
    { intros c Hc. pose proof (find_none _ _ Hf c Hc) as Hn. cbv beta in Hn.
      apply negb_false_iff in Hn. apply list_elem_of_In. by apply existsb_eqb. }
    pose proof (NoDup_incl_length PLAYER_COLORS_NoDup Hincl) as Hle.
    cbn in Hle. lia.
Qed.

Lemma palette_inv_handleSession fails w pid r s :
  refs_valid s -> palette_inv s ->
  palette_inv (fst (handleSession fails w pid (assignColor r s) s)).
Proof.
  intros Hv Hpal. set (c := assignColor r s).
  destruct (Nat.leb_spec MAX_PLAYERS_PER_ROOM (length (sessions s))) as [Hfull|Hroom].
  { by rewrite handleSession_rejected by (by left). }
  destruct (gameOver s) eqn:Hover.
  { by rewrite handleSession_rejected by (by right). }
  rewrite handleSession_eq by done. cbn zeta. cbn [fst].
  set (s0 := set_sessions _ (set_heap _ s)).
  set (s1 := if truthy _ then s0 else _).
  assert (H0 : usedColors s0 = usedColors s ++ [c]).
  { subst s0. unfold usedColors. cbn [heap sessions set_sessions set_heap].
    rewrite omap_app. f_equal.
    - apply omap_ext_in. intros sid Hin. by rewrite lookup_app_l by by apply Hv.
    - cbn. by rewrite list_lookup_middle. }
  assert (Hp0 : palette_inv s0).
  { destruct Hpal as [Hnd Hfa].
    destruct (assignColor_first_unused r s) as (before & after & Heq & _ & Hfresh).
    { rewrite usedColors_length by done. unfold MAX_PLAYERS_PER_ROOM in Hroom. lia. }
    fold c in Heq, Hfresh. split; rewrite H0.
    - apply NoDup_app. split; [done|]. split; [|apply NoDup_singleton].
      intros x Hx ->%list_elem_of_singleton. done.
    - apply Forall_app. split; [done|]. apply Forall_singleton.
      rewrite Heq. apply elem_of_app. right. left. }
  assert (Hp1 : palette_inv s1).
  { subst s1. destruct (truthy _); [done|]. revert Hp0.
    apply palette_inv_sublist. by apply usedColors_sublist. }
  assert (Hp2 : palette_inv (set_sessions (survivors fails s1) s1)).
  { revert Hp1. apply palette_inv_sublist. apply usedColors_sublist; [done|].
    apply survivors_sublist. }
  destruct (negb (gameStarted s) && _) eqn:Hstart; [|done].
  apply andb_true_iff in Hstart as [Hg _]. apply negb_true_iff in Hg.
  rewrite startGame_eq by (subst s1 s0; by destruct (truthy _)).
  revert Hp2. apply palette_inv_sublist. apply usedColors_sublist; [done|].
  apply survivors_sublist.
Qed.

Lemma palette_inv_step fails e s :
  refs_valid s -> palette_inv s -> palette_inv (fst (step fails e s)).
Proof.
  intros Hv Hpal. destruct e as [w pid r|sid m now|sid| |w pid r]; cbn [step].
  - by apply palette_inv_handleSession.
  - destruct (onMessage_cases fails sid m now s)
      as [-> | (session & x & y & row & Hs & _ & _ & _ & _ & _ & _ & _ & ->)];
      [done|].
    revert Hpal. apply palette_inv_sublist. apply usedColors_sublist.
    + intros ref. unfold placed. cbn -[survivors].
      destruct (decide (sid = ref)) as [<-|Hne].
      * rewrite list_lookup_insert_eq by (by eapply lookup_lt_Some). by rewrite Hs.
      * by rewrite list_lookup_insert_ne.
    + unfold placed. cbn -[survivors]. apply sublist_filter.
  - destruct (heap s !! sid); [|done]. unfold closeOrErrorHandler.
    destruct (_ && _); cbn [fst]; revert Hpal; apply palette_inv_sublist;
      apply usedColors_sublist; try done; apply sublist_filter.
  - destruct (timerInterval s); [|done]. rewrite tick_eq.
    destruct (0 <? timeLeft s).
    + cbn zeta. cbn [fst]. destruct (Z.rem (timeLeft s - 1) 10 =? 0);
        revert Hpal; apply palette_inv_sublist; apply usedColors_sublist; try done;
        apply survivors_sublist.
    + rewrite endGame_eq. revert Hpal. apply palette_inv_sublist.
      apply usedColors_sublist; [done|]. apply survivors_sublist.
  - unfold fetch.
    destruct (loadState_fields (storage s)) as (_ & Hh & Hse & _).
    apply palette_inv_handleSession.
    + intros ref. rewrite Hse. by intros ?%not_elem_of_nil.
    + unfold palette_inv, usedColors. rewrite Hse. cbn. split; constructor.
Qed.

Lemma reachable_palette_inv s : reachable s -> palette_inv s.
Proof.
  induction 1 as [|s fails e Hr IH _].
  - split; constructor.
  - apply palette_inv_step; [|done]. by apply reachable_refs_valid.
Qed.

(** X9.  In every reachable room the registered sessions hold pairwise
    different colours, all from the palette; and while fewer than 8
    sessions are registered, [assignColor] returns the first palette
    colour no registered session holds, whatever the random draw: the
    random fallback never decides the colour of an admitted session. *)
Theorem sessions_hold_distinct_palette_colors s :
  reachable s ->
  NoDup (usedColors s) /\
  (forall c, c ∈ usedColors s -> c ∈ PLAYER_COLORS) /\
  length (usedColors s) = length (sessions s) /\
  (forall r,
      (length (sessions s) < MAX_PLAYERS_PER_ROOM)%nat ->
      exists before after,
        PLAYER_COLORS = before ++ assignColor r s :: after /\
        Forall (fun c => c ∈ usedColors s) before /\
        assignColor r s ∉ usedColors s) /\
  (forall r r',
      (length (sessions s) < MAX_PLAYERS_PER_ROOM)%nat ->
      assignColor r s = assignColor r' s).
Proof.
  intros Hr. destruct (reachable_palette_inv s Hr) as [Hnd Hpal].
  pose proof (usedColors_length s (reachable_refs_valid s Hr)) as Hlen.
  split; [done|]. split; [by apply Forall_forall|]. split; [done|]. split.
  - intros r Hroom. apply assignColor_first_unused.
    rewrite Hlen. unfold MAX_PLAYERS_PER_ROOM in Hroom. lia.
  - intros r r' Hroom. unfold assignColor.
    destruct (List.find _ PLAYER_COLORS) as [c|] eqn:Hf; [done|].
    destruct (assignColor_first_unused r s) as (before & after & Heq & _ & _).
    { rewrite Hlen. unfold MAX_PLAYERS_PER_ROOM in Hroom. lia. }
    exfalso. unfold assignColor in Heq. rewrite Hf in Heq.
    assert (Hin : hex6 r ∈ PLAYER_COLORS).
    { rewrite Heq. apply elem_of_app. right. left. }
    apply list_elem_of_In in Hin.
    pose proof (find_none _ _ Hf _ Hin) as Hn. cbv beta in Hn.
    apply negb_false_iff, existsb_eqb in Hn.
    destruct (assignColor_first_unused r s) as (b2 & a2 & _ & _ & Hfresh).
    { rewrite Hlen. unfold MAX_PLAYERS_PER_ROOM in Hroom. lia. }
    unfold assignColor in Hfresh. rewrite Hf in Hfresh. done.
Qed.

Lemma sessions_hold_distinct_palette_colors_witness :
  usedColors after_reconnection = ["#00FF00"; "#FF0000"] /\
  assignColor 0 after_reconnection = "#0000FF" /\
  NoDup (usedColors after_reconnection).
Proof.
  assert (Hr : reachable after_reconnection).
  { unfold after_reconnection, after_first_pixel, two_players, one_player.
    repeat apply reachable_run. apply reach_first. }
  destruct (sessions_hold_distinct_palette_colors after_reconnection Hr) as (H1 & _).
  split; [vm_compute; reflexivity|]. split; [vm_compute; reflexivity|exact H1].
Defined.

(** ** The score table as the tally of the canvas *)

(** A property of canvas and score table that holds initially and is kept
    by the registration of a colour and by a placement at integer
    coordinates holds, for the room's table and for the stored one, in
    every room reached through integer coordinates. *)
Section TableInvariant.

Variable P : list Row -> list (string * Z) -> Prop.
Hypothesis P_initial : P initializeCanvas [].
Hypothesis P_register : forall cv sc c,
    c <> WHITE -> truthy (scores_get c sc) = false -> P cv sc -> P cv (scores_set c 0 sc).
Hypothesis P_placed : forall cv sc x y row new,
    P cv sc ->
    in_range x y = true -> num_integral x = true -> num_integral y = true ->
    canvas_row cv y = Some row ->
    same_color (row_get row x) new = false ->
    new <> WHITE ->
    P (canvas_set cv y x new) (placed_scores (row_get row x) new sc).

Let holds (s : GameRoom) : Prop :=
  P (canvasState s) (scores s) /\
  P (canvasState s) (default [] (st_scores (storage s))).

Lemma table_inv_ext s s' :
  canvasState s' = canvasState s ->
  scores s' = scores s ->
  (st_scores (storage s') = st_scores (storage s) \/
   st_scores (storage s') = Some (scores s)) ->
  holds s -> holds s'.
Proof.
  intros Hc Hsc Hst [A1 A2]. split; rewrite Hc.
  - by rewrite Hsc.
  - destruct Hst as [-> | ->]; done.
Qed.

Lemma table_inv_startGame fails s : holds s -> holds (fst (startGame fails s)).
Proof.
  destruct (gameStarted s) eqn:Hg.
  - unfold startGame. by rewrite Hg.
  - rewrite startGame_eq by done. apply table_inv_ext; try done. by left.
Qed.

Lemma table_inv_handleSession fails w pid c s :
  c <> WHITE -> holds s -> holds (fst (handleSession fails w pid c s)).
Proof.
  intros Hc Hacc.
  destruct (Nat.leb_spec MAX_PLAYERS_PER_ROOM (length (sessions s))) as [Hfull|Hroom].
  { by rewrite handleSession_rejected by (by left). }
  destruct (gameOver s) eqn:Hover.
  { by rewrite handleSession_rejected by (by right). }
  rewrite handleSession_eq by done. cbn zeta. cbn [fst].
  set (s0 := set_sessions _ (set_heap _ s)).
  set (s1 := if truthy _ then s0 else _).
  assert (H1 : holds s1).
  { destruct Hacc as [A1 A2]. subst s1 s0.
    destruct (truthy (scores_get c (scores s))) eqn:Ht; split; cbn; try done.
    by apply P_register. }
  assert (H2 : holds (set_sessions (survivors fails s1) s1)).
  { revert H1. apply table_inv_ext; try done. by left. }
  destruct (negb (gameStarted s) && _); [by apply table_inv_startGame|done].
Qed.

Lemma table_inv_step fails e s :
  integral_coordinates e -> room_inv s -> holds s -> holds (fst (step fails e s)).
Proof.
  intros Hint Hinv Hacc. destruct e as [w pid r|sid m now|sid| |w pid r]; cbn [step].
  - apply table_inv_handleSession; [apply assignColor_not_white|done].
  - destruct (onMessage_cases fails sid m now s)
      as [-> | (session & x & y & row & Hs & _ & _ & -> & Hr & _ & Hrow & Hsame & ->)];
      [done|].
    destruct Hint as [Hix Hiy].
    assert (Hcol : color session <> WHITE).
    { eapply (Forall_lookup_1 _ _ _ _ (inv_colors _ Hinv) Hs). }
    assert (A : P (canvas_set (canvasState s) y x (color session))
                  (placed_scores (row_get row x) (color session) (scores s))).
    { apply P_placed; try done. apply Hacc. }
    unfold placed. split; cbn -[survivors]; exact A.
  - destruct (heap s !! sid); [|done]. unfold closeOrErrorHandler.
    destruct (_ && _); revert Hacc; apply table_inv_ext; try done; by left.
  - destruct (timerInterval s); [|done]. rewrite tick_eq. destruct (0 <? timeLeft s).
    + cbn zeta. cbn [fst]. destruct (Z.rem (timeLeft s - 1) 10 =? 0);
        revert Hacc; apply table_inv_ext; try done; [by right|by left].
    + rewrite endGame_eq. revert Hacc. apply table_inv_ext; try done. by right.
  - unfold fetch. apply table_inv_handleSession; [apply assignColor_not_white|].
    destruct Hacc as [_ A2].
    destruct (loadState_fields (storage s)) as (Hst & _ & _ & Hc & Hsc & _).
    split; rewrite Hc, ?Hsc, ?Hst, (inv_saved _ Hinv); done.
Qed.

Lemma reachable_by_integral_table_inv s :
  reachable_by integral_coordinates s -> holds s.
Proof.
  intros Hr. induction Hr as [|s fails e Hr IH Hok]; [split; apply P_initial|].
  apply table_inv_step; try done. by eapply reachable_by_room_inv.
Qed.

End TableInvariant.

(** The cell that integer in-range coordinates denote. *)
Lemma integral_cell cv x y row new :
  length cv = Z.to_nat CANVAS_HEIGHT ->
  Forall (fun r => length (cells r) = Z.to_nat CANVAS_WIDTH) cv ->
  in_range x y = true -> num_integral x = true -> num_integral y = true ->
  canvas_row cv y = Some row ->
  exists i j old,
    cv !! j = Some row /\ cells row !! i = Some old /\
    row_get row x = Some old /\
    canvas_set cv y x new = <[j := mkRow (<[i := new]> (cells row)) (props row)]> cv.
Proof.
  intros A1 A2 Hr Hix Hiy Hrow.
  apply in_range_bounds in Hr as (Hx0 & Hx1 & Hy0 & Hy1).
  destruct (valid_index x CANVAS_WIDTH eq_refl Hix Hx0 Hx1) as (i & Hi & Hilt).
  destruct (valid_index y CANVAS_HEIGHT eq_refl Hiy Hy0 Hy1) as (j & Hj & Hjlt).
  unfold canvas_row in Hrow. rewrite Hj in Hrow.
  assert (Hlen : length (cells row) = Z.to_nat CANVAS_WIDTH).
  { by eapply (Forall_lookup_1 _ _ _ _ A2 Hrow). }
  destruct (lookup_lt_is_Some_2 (cells row) i) as [old Hold]; [lia|].
  exists i, j, old. split; [done|]. split; [done|]. split.
  - unfold row_get. by rewrite Hi, Hold.
  - unfold canvas_set, row_set. rewrite Hj, Hrow, Hi. by rewrite decide_True by lia.
Qed.

Lemma tallied_initial : tallied initializeCanvas [].
Proof.
  split; [apply accounted_initial|]. split; [done|].
  intros c Hc. rewrite painted_initial. unfold indicator.
  by rewrite decide_False by congruence.
Qed.

Lemma tallied_register cv sc c :
  c <> WHITE -> truthy (scores_get c sc) = false -> tallied cv sc ->
  tallied cv (scores_set c 0 sc).
Proof.
  intros Hc Hf (A & Hw & Hex). split; [by apply accounted_register|]. split.
  - by rewrite scores_get_set_ne.
  - apply truthy_false_zero in Hf. intros d Hd.
    destruct (String.string_dec c d) as [<-|Hne].
    + rewrite scores_get_set_eq. cbn [or_zero]. rewrite <- (Hex c Hd). lia.
    + rewrite scores_get_set_ne by done. by apply Hex.
Qed.

Lemma tallied_placed cv sc x y row new :
  tallied cv sc ->
  in_range x y = true -> num_integral x = true -> num_integral y = true ->
  canvas_row cv y = Some row ->
  same_color (row_get row x) new = false ->
  new <> WHITE ->
  tallied (canvas_set cv y x new) (placed_scores (row_get row x) new sc).
Proof.
  intros (A & Hw & Hex) Hr Hix Hiy Hrow Hsame Hnew.
  split; [by apply accounted_placed|].
  destruct A as (A1 & A2 & _).
  destruct (integral_cell cv x y row new A1 A2 Hr Hix Hiy Hrow)
    as (i & j & old & Hj & Hold & Hget & Hset).
  rewrite Hget in *. rewrite Hset. clear Hset Hget.
  apply same_color_false in Hsame.
  assert (Hcount := fun d => painted_cell_insert d cv j row i old new Hj Hold).
  destruct (String.string_dec old WHITE) as [->|Hold_w].
  - rewrite placed_scores_white. split; [by rewrite scores_get_set_ne|].
    intros d Hd. specialize (Hcount d). unfold indicator in Hcount.
    rewrite (decide_False (P := WHITE = d)) in Hcount by congruence.
    destruct (String.string_dec new d) as [<-|Hne].
    + rewrite scores_get_set_eq. cbn [or_zero].
      rewrite decide_True in Hcount by done. specialize (Hex new Hd). lia.
    + rewrite scores_get_set_ne by done.
      rewrite decide_False in Hcount by done. specialize (Hex d Hd). lia.
  - assert (Hpos : 1 <= or_zero (scores_get old sc)).
    { specialize (Hcount old). unfold indicator in Hcount.
      rewrite decide_True in Hcount by done.
      rewrite decide_False in Hcount by congruence.
      specialize (Hex old Hold_w). lia. }
    destruct (truthy_of_pos sc old Hpos) as (v & Hv & Hv1 & _).
    rewrite (placed_scores_color old new sc v) by done.
    split; [by rewrite !scores_get_set_ne|].
    intros d Hd. specialize (Hcount d). unfold indicator in Hcount.
    destruct (String.string_dec new d) as [<-|Hne].
    + rewrite scores_get_set_eq. cbn [or_zero].
      rewrite decide_False in Hcount by done.
      rewrite decide_True in Hcount by done. specialize (Hex new Hd). lia.
    + rewrite scores_get_set_ne by done.
      rewrite (decide_False (P := new = d)) in Hcount by done.
      destruct (String.string_dec old d) as [<-|Hne'].
      * rewrite scores_get_set_eq. cbn [or_zero].
        rewrite decide_True in Hcount by done.
        specialize (Hex old Hd). rewrite Hv in Hex. cbn [or_zero] in Hex. lia.
      * rewrite scores_get_set_ne by done.
        rewrite decide_False in Hcount by done. specialize (Hex d Hd). lia.
Qed.

Lemma scores_get_In sc c v : scores_wf sc -> In (c, v) sc -> scores_get c sc = Some v.
Proof.
  intros Hwf Hin. destruct (scores_get c sc) as [v'|] eqn:Hg.
  - f_equal. apply (scores_wf_unique sc c v' v Hwf); [|done].
    clear Hin Hwf. induction sc as [|[k w] sc IH]; cbn in *; [done|].
    destruct (String.eqb_spec c k) as [->|Hne]; [left; congruence|right; by apply IH].
  - apply scores_get_None in Hg. exfalso. apply Hg.
    change c with (fst (c, v)). by apply in_map.
Qed.

(** X10.  Along every run whose placement requests carry integer
    coordinates the score table is the tally of the canvas: it has no
    entry for white, and every other colour's score is the number of
    cells of that colour, in the room and in the stored snapshot alike.
    Hence the colour [endGame] announces as winner is painted on strictly
    more cells than any other colour of the table, and when it announces
    none although the table has entries, two colours share the largest
    number of cells. *)
Theorem score_is_number_of_cells s :
  reachable_by integral_coordinates s ->
  scores_get WHITE (scores s) = None /\
  (forall c, c <> WHITE ->
             or_zero (scores_get c (scores s)) = Z.of_nat (painted c (canvasState s))) /\
  (forall c, c <> WHITE ->
             or_zero (scores_get c (default [] (st_scores (storage s))))
             = Z.of_nat (painted c (default initializeCanvas
                                      (st_canvasState (storage s))))) /\
  (forall c c' v',
      finalWinner (scores s) = Some c -> In (c', v') (scores s) -> c' <> c ->
      (painted c' (canvasState s) < painted c (canvasState s))%nat) /\
  (finalWinner (scores s) = None -> scores s <> [] ->
   exists c1 c2,
     c1 <> c2 /\ In c1 (map fst (scores s)) /\ In c2 (map fst (scores s)) /\
     painted c1 (canvasState s) = painted c2 (canvasState s) /\
     forall c', In c' (map fst (scores s)) ->
                (painted c' (canvasState s) <= painted c1 (canvasState s))%nat).
Proof.
  intros Hr.
  pose proof (reachable_by_room_inv _ _ Hr) as Hinv.
  pose proof (inv_scores _ Hinv) as Hwf.
  destruct (reachable_by_integral_table_inv tallied tallied_initial tallied_register
              tallied_placed s Hr) as [(_ & Hw & Hex) (_ & _ & Hst)].
  assert (Hkey : forall c v, In (c, v) (scores s) ->
                             v = Z.of_nat (painted c (canvasState s))).
  { intros c v Hin. pose proof (scores_get_In _ _ _ Hwf Hin) as Hg.
    assert (Hc : c <> WHITE) by (intros ->; congruence).
    specialize (Hex c Hc). by rewrite Hg in Hex. }
  split; [done|]. split; [done|]. split; [by rewrite (inv_saved _ Hinv)|]. split.
  - intros c c' v' Hfin Hin Hne.
    apply finalWinner_Some in Hfin as (v & Hv & Hstrict); [|done].
    specialize (Hstrict c' v' Hin Hne).
    apply Hkey in Hv. apply Hkey in Hin. lia.
  - intros Hfin Hne. apply finalWinner_None in Hfin as [?|Htie]; [done| |done].
    destruct Htie as (c1 & c2 & v & Hd & H1 & H2 & Htop).
    exists c1, c2. split; [done|].
    split; [change c1 with (fst (c1, v)); by apply in_map|].
    split; [change c2 with (fst (c2, v)); by apply in_map|].
    pose proof (Hkey _ _ H1) as E1. pose proof (Hkey _ _ H2) as E2.
    split; [lia|]. intros c' Hc'. apply in_map_iff in Hc' as ([k v'] & <- & Hin).
    cbn [fst]. pose proof (Htop _ _ Hin). apply Hkey in Hin. lia.
Qed.

Lemma score_is_number_of_cells_witness :
  painted "#FF0000" (canvasState after_first_pixel) = 1%nat /\
  or_zero (scores_get "#FF0000" (scores after_first_pixel)) = 1.
Proof.
  assert (Hr : reachable_by integral_coordinates after_first_pixel).
  { unfold after_first_pixel, two_players, one_player, run. cbn [fold_left fst snd].
    repeat (apply reach_step; [|vm_compute; tauto]). apply reach_first. }
  destruct (score_is_number_of_cells after_first_pixel Hr) as (_ & Hex & _).
  specialize (Hex "#FF0000").
  assert (Hs : or_zero (scores_get "#FF0000" (scores after_first_pixel)) = 1)
    by (vm_compute; reflexivity).
  split; [|exact Hs]. rewrite Hs in Hex.
  assert (Hne : "#FF0000" <> WHITE) by discriminate.
  specialize (Hex Hne). lia.
Defined.

(** ** Admission, field by field *)

Lemma survivors_idemp fails s s' :
  heap s' = heap s -> sessions s' = survivors fails s ->
  survivors fails s' = survivors fails s.
Proof.
  intros Hh Hs. unfold survivors at 1. rewrite Hh, Hs. unfold survivors.
  rewrite list_filter_filter. apply list_filter_iff. tauto.
Qed.

(** The room an admitted connection leaves behind. *)
Lemma handleSession_fields fails w pid c s :
  (length (sessions s) < MAX_PLAYERS_PER_ROOM)%nat ->
  gameOver s = false ->
  let hp := (heap s ++ [mkSession w pid c 0])%list in
  let live := filter (fun r => send_throws fails hp r = false)
                     (sessions s ++ [length (heap s)])%list in
  let starts := negb (gameStarted s) && (MIN_PLAYERS_TO_START <=? length live)%nat in
  let s' := fst (handleSession fails w pid c s) in
  heap s' = hp /\ sessions s' = live /\ canvasState s' = canvasState s /\
  (forall k, or_zero (scores_get k (scores s')) = or_zero (scores_get k (scores s))) /\
  gameOver s' = false /\
  gameStarted s' = gameStarted s || starts /\
  timeLeft s' = (if starts then GAME_DURATION_SECONDS else timeLeft s) /\
  timerInterval s' = timerInterval s || starts /\
  st_gameStarted (storage s') =
    (if starts then Some true else st_gameStarted (storage s)) /\
  (starts = true ->
   exists es, snd (handleSession fails w pid c s)
              = (es ++ attempts fails (MsgTimerUpdate GAME_DURATION_SECONDS) hp live)%list).
Proof.
  intros Hroom Hover. cbn zeta.
  pose proof (handleSession_score_values fails w pid c s) as Hsc.
  rewrite handleSession_eq in * by done. cbn zeta in *. cbn [fst snd] in *.
  set (s0 := set_sessions _ (set_heap _ s)) in *.
  set (s1 := if truthy _ then s0 else _) in *.
  assert (F : heap s1 = (heap s ++ [mkSession w pid c 0])%list /\
              sessions s1 = (sessions s ++ [length (heap s)])%list /\
              canvasState s1 = canvasState s /\ gameOver s1 = false /\
              gameStarted s1 = gameStarted s /\ timeLeft s1 = timeLeft s /\
              timerInterval s1 = timerInterval s /\ storage s1 = storage s).
  { subst s1 s0. by destruct (truthy _). }
  destruct F as (F1 & F2 & F3 & F4 & F5 & F6 & F7 & F8).
  assert (Hlive : survivors fails s1
                  = filter (fun r => send_throws fails
                                       (heap s ++ [mkSession w pid c 0])%list r = false)
                           (sessions s ++ [length (heap s)])%list).
  { unfold survivors. by rewrite F1, F2. }
  rewrite <- Hlive. clearbody s1. clear s0.
  destruct (negb (gameStarted s) && _) eqn:Hstart.
  - apply andb_true_iff in Hstart as [Hg _]. apply negb_true_iff in Hg.
    rewrite startGame_eq in * by (cbn; congruence). cbn [fst snd] in *.
    rewrite (survivors_idemp fails s1) by done.
    rewrite Hg, orb_true_r.
    cbn -[survivors scores_get or_zero GAME_DURATION_SECONDS attempts] in *.
    rewrite ?orb_true_r. do 9 (split; [done|]). intros _.
    eexists (_ :: _ :: _)%list. cbn [app]. do 2 f_equal. by rewrite <- F1.
  - rewrite !orb_false_r. cbn -[survivors scores_get or_zero] in *.
    rewrite F1, F3, F4, F5, F6, F7, F8. by do 9 (split; [done|]).
Qed.

(** ** Before the game starts *)

Lemma lobby_inv_handleSession fails w pid c s :
  lobby_inv s -> lobby_inv (fst (handleSession fails w pid c s)).
Proof.
  intros Hl.
  destruct (Nat.leb_spec MAX_PLAYERS_PER_ROOM (length (sessions s))) as [Hfull|Hroom].
  { by rewrite handleSession_rejected by (by left). }
  destruct (gameOver s) eqn:Hover.
  { by rewrite handleSession_rejected by (by right). }
  destruct (handleSession_fields fails w pid c s Hroom Hover)
    as (_ & H2 & H3 & H4 & _ & H6 & _).
  intros Hg' _. rewrite H6 in Hg'. apply orb_false_iff in Hg' as [Hg Hstart].
  destruct (Hl Hg Hover) as (_ & L2 & L3).
  rewrite Hg in Hstart. cbn [negb andb] in Hstart.
  apply Nat.leb_gt in Hstart. unfold MIN_PLAYERS_TO_START in Hstart.
  rewrite H2, H3. split; [lia|]. split; [done|].
  intros k. by rewrite H4.
Qed.

Lemma lobby_inv_step fails e s :
  room_inv s -> store_inv s -> lobby_inv s -> lobby_inv (fst (step fails e s)).
Proof.
  intros Hroom Hst Hl. destruct e as [w pid r|sid m now|sid| |w pid r]; cbn [step].
  - by apply lobby_inv_handleSession.
  - destruct (onMessage_cases fails sid m now s)
      as [-> | (session & x & y & row & _ & Hg & _ & _ & _ & _ & _ & _ & ->)];
      [done|].
    intros Hg'. unfold placed in Hg'. cbn -[survivors] in Hg'. congruence.
  - destruct (heap s !! sid); [|done]. unfold closeOrErrorHandler, removeSession.
    assert (Hlen : (length (filter (fun r => r <> sid) (sessions s))
                    <= length (sessions s))%nat) by apply length_filter.
    destruct (_ && _); intros Hg' Ho'; cbn in *;
      destruct (Hl Hg' Ho') as (L1 & L2 & L3); (split; [lia|done]).
  - destruct (timerInterval s) eqn:Ht; [|done].
    destruct (si_timer _ Hst Ht) as [Hg Ho].
    rewrite tick_eq. destruct (0 <? timeLeft s).
    + cbn zeta. cbn [fst]. intros Hg'.
      destruct (Z.rem (timeLeft s - 1) 10 =? 0); cbn in Hg'; congruence.
    + rewrite endGame_eq. intros _ Ho'. cbn in Ho'. congruence.
  - unfold fetch. apply lobby_inv_handleSession.
    destruct (loadState_fields (storage s))
      as (_ & _ & Hse & Hc & Hsc & _ & Hg & Ho & _).
    intros Hg' Ho'. rewrite Hg, (si_started _ Hst) in Hg'.
    rewrite Ho, (si_over _ Hst) in Ho'.
    destruct (Hl Hg' Ho') as (_ & L2 & L3).
    rewrite Hse, Hc, Hsc, (inv_saved _ Hroom). split; [cbn; lia|]. split; [done|].
    intros k. by rewrite (si_scores _ Hst).
Qed.

Lemma reachable_lobby_inv s : reachable s -> lobby_inv s.
Proof.
  induction 1 as [|s fails e Hr IH _].
  - intros _ _. cbn. split; [lia|]. by split.
  - apply lobby_inv_step; [|by apply reachable_store_inv|done].
    by eapply reachable_by_room_inv.
Qed.

(** X11.  Before the game has started, a reachable room holds at most
    one session, its canvas is all white, every score is zero and the
    interval is not installed.  A connection then starts the game exactly
    when two sessions are registered once its score update has gone out;
    the start sets the clock to 300, installs the interval, stores the
    started flag and ends with the timer update sent to every registered
    session.  When no send throws, the connection is registered behind
    the others and the game starts exactly when a session was already
    there. *)
Theorem game_starts_with_second_session s fails w pid r :
  reachable s ->
  gameStarted s = false ->
  gameOver s = false ->
  let s' := fst (step fails (EConnect w pid r) s) in
  (length (sessions s) <= 1)%nat /\
  canvasState s = initializeCanvas /\
  (forall k, or_zero (scores_get k (scores s)) = 0) /\
  timerInterval s = false /\
  gameOver s' = false /\
  (gameStarted s' = true <-> (MIN_PLAYERS_TO_START <= length (sessions s'))%nat) /\
  (gameStarted s' = true ->
   timeLeft s' = GAME_DURATION_SECONDS /\ timerInterval s' = true /\
   st_gameStarted (storage s') = Some true /\
   exists es, snd (step fails (EConnect w pid r) s)
              = (es ++ attempts fails (MsgTimerUpdate GAME_DURATION_SECONDS)
                         (heap s') (sessions s'))%list) /\
  (gameStarted s' = false ->
   timeLeft s' = GAME_DURATION_SECONDS /\ timerInterval s' = false) /\
  ((forall w', fails w' = false) ->
   sessions s' = (sessions s ++ [length (heap s)])%list /\
   (gameStarted s' = true <-> sessions s <> [])).
Proof.
  intros Hr Hg Ho. cbn zeta. cbn [step]. unfold fetch.
  pose proof (reachable_store_inv s Hr) as Hst.
  destruct (reachable_lobby_inv s Hr Hg Ho) as (L1 & L2 & L3).
  assert (Ht : timerInterval s = false).
  { destruct (timerInterval s) eqn:Ht; [|done].
    destruct (si_timer _ Hst Ht). congruence. }
  assert (Hroom : (length (sessions s) < MAX_PLAYERS_PER_ROOM)%nat).
  { unfold MAX_PLAYERS_PER_ROOM. lia. }
  destruct (handleSession_fields fails w pid (assignColor r s) s Hroom Ho)
    as (H1 & H2 & _ & _ & H5 & H6 & H7 & H8 & H9 & H10).
  rewrite H1, H2, H6, H7, H8, H9, Hg, Ht. rewrite Hg in H10. cbn [negb andb orb] in *.
  do 5 (split; [done|]). split; [apply Nat.leb_le|]. split; [|split].
  - intros Hs. rewrite Hs in *. do 3 (split; [done|]). by apply H10.
  - intros Hs. rewrite Hs. split; [|done]. by apply (si_fresh _ Hst).
  - intros Hnf.
    assert (Hall : filter (fun r0 => send_throws fails
                     (heap s ++ [mkSession w pid (assignColor r s) 0])%list r0 = false)
                     (sessions s ++ [length (heap s)])%list
                   = (sessions s ++ [length (heap s)])%list).
    { apply filter_all. intros x _. unfold send_throws.
      by destruct (_ !! x). }
    rewrite Hall. split; [done|]. rewrite Nat.leb_le, length_app. cbn [length].
    unfold MIN_PLAYERS_TO_START. destruct (sessions s); cbn [length]; split;
      intros; [lia|done|done|lia].
Qed.

Lemma game_starts_with_second_session_witness :
  gameStarted one_player = false /\
  gameStarted (fst (step no_failure (EConnect 11%nat "bob" 0) one_player)) = true /\
  timeLeft (fst (step no_failure (EConnect 11%nat "bob" 0) one_player)) = 300 /\
  timerInterval (fst (step no_failure (EConnect 11%nat "bob" 0) one_player)) = true.
Proof.
  assert (Hr : reachable one_player).
  { unfold one_player. apply reachable_run. apply reach_first. }
  assert (Hg0 : gameStarted one_player = false) by (vm_compute; reflexivity).
  assert (Ho0 : gameOver one_player = false) by (vm_compute; reflexivity).
  destruct (game_starts_with_second_session one_player no_failure 11%nat "bob" 0
              Hr Hg0 Ho0) as (_ & _ & _ & _ & _ & Hiff & Hstart & _).
  assert (Hg : gameStarted (fst (step no_failure (EConnect 11%nat "bob" 0) one_player))
               = true).
  { apply Hiff. vm_compute. lia. }
  destruct (Hstart Hg) as (T1 & T2 & _).
  split; [exact Hg0|]. split; [exact Hg|]. split; [exact T1|exact T2].
Defined.

(** ** A started game whose interval is not installed *)

Lemma started_not_over s : store_inv s -> gameStarted s = true -> gameOver s = false.
Proof.
  intros Hst Hg. destruct (gameOver s) eqn:Ho; [|done].
  destruct (si_final _ Hst Ho). congruence.
Qed.

Lemma handleSession_started fails w pid c s :
  gameStarted s = true -> gameOver s = false ->
  let s' := fst (handleSession fails w pid c s) in
  timeLeft s' = timeLeft s /\ gameStarted s' = true /\
  timerInterval s' = timerInterval s.
Proof.
  intros Hg Ho. cbn zeta.
  destruct (Nat.leb_spec MAX_PLAYERS_PER_ROOM (length (sessions s))) as [Hfull|Hroom].
  { by rewrite handleSession_rejected by (by left). }
  destruct (handleSession_fields fails w pid c s Hroom Ho)
    as (_ & _ & _ & _ & _ & H6 & H7 & H8 & _).
  rewrite H6, H7, H8, Hg. cbn [negb andb orb]. by rewrite orb_false_r.
Qed.

Lemma stopped_step fails e s :
  store_inv s -> gameStarted s = true -> timerInterval s = false ->
  is_reactivation e = false \/ timeLeft s = 0 ->
  let s' := fst (step fails e s) in
  timeLeft s' = timeLeft s /\ gameStarted s' = true /\ timerInterval s' = false.
Proof.
  intros Hst Hg Ht Hev. cbn zeta. pose proof (started_not_over s Hst Hg) as Ho.
  destruct e as [w pid r|sid m now|sid| |w pid r]; cbn [step].
  - unfold fetch. rewrite <- Ht. by apply handleSession_started.
  - destruct (onMessage_cases fails sid m now s)
      as [-> | (session & x & y & row & _ & _ & _ & _ & _ & _ & _ & _ & ->)]; done.
  - destruct (heap s !! sid); [|done]. unfold closeOrErrorHandler.
    by destruct (_ && _).
  - by rewrite Ht.
  - destruct Hev as [Hev|Hzero]; [discriminate Hev|].
    destruct (loadState_fields (storage s))
      as (_ & _ & _ & _ & _ & Htl & Hg' & Ho' & Hti).
    rewrite (si_started _ Hst), Hg in Hg', Hti. rewrite (si_over _ Hst), Ho in Ho', Hti.
    assert (Hstored : default GAME_DURATION_SECONDS (st_timeLeft (storage s)) = 0).
    { pose proof (si_stored _ Hst) as Hle. pose proof (si_recent _ Hst 0) as Hrec.
      destruct (Z_le_gt_dec (default GAME_DURATION_SECONDS (st_timeLeft (storage s))) 0);
        [lia|].
      exfalso. apply Hrec; [lia|done]. }
    rewrite Hstored in Htl, Hti. cbn in Hti.
    unfold fetch.
    destruct (handleSession_started fails w pid
                (assignColor r (activate (storage s))) (activate (storage s)) Hg' Ho')
      as (T1 & T2 & T3).
    rewrite T1, T2, T3, Htl, Hti, Hzero. done.
Qed.

Lemma stopped_run evs s :
  store_inv s -> gameStarted s = true -> timerInterval s = false ->
  Forall (fun fe : (nat -> bool) * Event => is_reactivation (snd fe) = false) evs
  \/ timeLeft s = 0 ->
  timeLeft (run evs s) = timeLeft s /\ gameStarted (run evs s) = true /\
  timerInterval (run evs s) = false.
Proof.
  revert s. induction evs as [|[f e] evs IH]; intros s Hst Hg Ht Hev; [done|].
  rewrite run_cons.
  destruct (stopped_step f e s Hst Hg Ht) as (S1 & S2 & S3).
  { destruct Hev as [Hall|Hz]; [|by right]. left.
    by inversion Hall as [|? ? He _]; subst. }
  destruct (IH (fst (step f e s)) (store_inv_step f e s Hst) S2 S3) as (R1 & R2 & R3).
  { destruct Hev as [Hall|Hz]; [|right; congruence]. left.
    by inversion Hall; subst. }
  rewrite R1, S1. done.
Qed.

(** X12.  When the last session of a started game closes, the handler
    clears the interval and stores gameEndedDueToEmpty, and the game stays
    started with its clock where it was.  Nothing installs the interval
    again in that room: over any sequence of connections, messages and
    disconnections the clock keeps its value and the game stays started
    and never ends.  An eviction followed by a new activation installs
    the interval again exactly when the clock is above 0. *)
Theorem emptied_room_clock_is_frozen s evs :
  reachable s ->
  gameStarted s = true ->
  (forall fails sid,
      sessions s = [sid] ->
      let s1 := fst (step fails (EClose sid) s) in
      sessions s1 = [] /\ timerInterval s1 = false /\ gameStarted s1 = true /\
      gameOver s1 = false /\ timeLeft s1 = timeLeft s /\
      st_gameEndedDueToEmpty (storage s1) = Some true) /\
  (timerInterval s = false ->
   Forall (fun fe : (nat -> bool) * Event => is_reactivation (snd fe) = false) evs ->
   let s' := run evs s in
   timeLeft s' = timeLeft s /\ gameStarted s' = true /\ gameOver s' = false /\
   timerInterval s' = false) /\
  (timerInterval s = false ->
   (timerInterval (activate (storage s)) = true <-> 0 < timeLeft s)).
Proof.
  intros Hr Hg. pose proof (reachable_store_inv s Hr) as Hst.
  pose proof (started_not_over s Hst Hg) as Ho.
  split; [|split].
  - intros fails sid Hs. cbn zeta. cbn [step].
    destruct (lookup_lt_is_Some_2 (heap s) sid) as [x Hx].
    { apply (reachable_refs_valid s Hr). rewrite Hs. left. }
    rewrite Hx. unfold closeOrErrorHandler, removeSession. rewrite Hs.
    rewrite filter_cons_False by (intros Hn; by apply Hn).
    rewrite filter_nil. cbn. by rewrite Hg.
  - intros Ht Hall. cbn zeta.
    destruct (stopped_run evs s Hst Hg Ht (or_introl Hall)) as (R1 & R2 & R3).
    do 2 (split; [done|]). split; [|done].
    apply started_not_over; [by apply run_store_inv|done].
  - intros Ht.
    destruct (loadState_fields (storage s)) as (_ & _ & _ & _ & _ & _ & _ & _ & Hti).
    rewrite Hti, (si_started _ Hst), (si_over _ Hst), Hg, Ho. cbn [negb andb].
    rewrite Z.ltb_lt. pose proof (si_stored _ Hst) as Hle.
    pose proof (si_recent _ Hst 0) as Hrec. split; [|lia].
    intros Hpos. destruct (Z_le_gt_dec (timeLeft s) 0) as [Hz|]; [|lia].
    exfalso. apply Hrec; [|done]. pose proof (si_range _ Hst). lia.
Qed.

Lemma emptied_room_clock_is_frozen_witness :
  timerInterval emptied_room = false /\
  timeLeft (run [(no_failure, EConnect 21%nat "yu" 0); (no_failure, ETick);
                 (no_failure, EMessage 2%nat (pixel 7 7) 9000); (no_failure, ETick)]
                emptied_room) = timeLeft emptied_room /\
  gameOver (run [(no_failure, EConnect 21%nat "yu" 0); (no_failure, ETick);
                 (no_failure, EMessage 2%nat (pixel 7 7) 9000); (no_failure, ETick)]
                emptied_room) = false.
Proof.
  assert (Hr : reachable emptied_room).
  { unfold emptied_room, after_first_pixel, two_players, one_player.
    repeat apply reachable_run. apply reach_first. }
  assert (Hg : gameStarted emptied_room = true) by (vm_compute; reflexivity).
  assert (Ht : timerInterval emptied_room = false) by (vm_compute; reflexivity).
  destruct (emptied_room_clock_is_frozen emptied_room
              [(no_failure, EConnect 21%nat "yu" 0); (no_failure, ETick);
               (no_failure, EMessage 2%nat (pixel 7 7) 9000); (no_failure, ETick)]
              Hr Hg) as (_ & Hfrozen & _).
  destruct (Hfrozen Ht) as (F1 & _ & F3 & _).
  { repeat constructor. }
  split; [exact Ht|]. split; [exact F1|exact F3].
Defined.

(** X13.  A started game whose clock shows 0 while the interval is not
    installed never ends: [loadState] installs the interval only when the
    time is above 0 and nothing else installs it, so over any sequence of
    events, re-activations included, the clock stays at 0, the game stays
    started, and [endGame] is never run.  The room gets there when the
    object is evicted, or its last session closes, after the tick that
    brought the clock to 0 and before the next one. *)
Theorem clock_stopped_at_zero_never_ends s evs :
  reachable s ->
  gameStarted s = true ->
  timerInterval s = false ->
  timeLeft s = 0 ->
  timeLeft (run evs s) = 0 /\ gameStarted (run evs s) = true /\
  gameOver (run evs s) = false /\ timerInterval (run evs s) = false /\
  st_gameOver (storage (run evs s)) <> Some true.
Proof.
  intros Hr Hg Ht Hz. pose proof (reachable_store_inv s Hr) as Hst.
  destruct (stopped_run evs s Hst Hg Ht (or_intror Hz)) as (R1 & R2 & R3).
  pose proof (run_store_inv evs s Hst) as Hst'.
  pose proof (started_not_over _ Hst' R2) as Ho'.
  rewrite R1, Hz. do 4 (split; [done|]).
  intros Hsaved. pose proof (si_over _ Hst') as Hov.
  rewrite Hsaved, Ho' in Hov. discriminate Hov.
Qed.

Lemma clock_stopped_at_zero_never_ends_witness :
  timeLeft stalled_at_zero = 0 /\
  gameOver (run [(no_failure, ETick); (no_failure, EReactivate 41%nat "bo" 0);
                 (no_failure, ETick)] stalled_at_zero) = false.
Proof.
  assert (Hr : reachable stalled_at_zero).
  { unfold stalled_at_zero, two_players, one_player.
    repeat apply reachable_run. apply reach_first. }
  assert (Hg : gameStarted stalled_at_zero = true) by (vm_compute; reflexivity).
  assert (Ht : timerInterval stalled_at_zero = false) by (vm_compute; reflexivity).
  assert (Hz : timeLeft stalled_at_zero = 0) by (vm_compute; reflexivity).
  destruct (clock_stopped_at_zero_never_ends stalled_at_zero
              [(no_failure, ETick); (no_failure, EReactivate 41%nat "bo" 0);
               (no_failure, ETick)] Hr Hg Ht Hz) as (_ & _ & Ho & _).
  split; [exact Hz|exact Ho].
Defined.

(** ** A placement that is applied *)

Lemma as_index_coord n : as_index (coord n) = Some n.
Proof.
  unfold as_index, coord, is_integer. cbn [Qnum Qden inject_Z].
  rewrite Z.mod_1_r. cbn [Z.eqb andb].
  destruct (Z.leb_spec 0 (Z.of_nat n)) as [_|]; [|lia].
  by rewrite Z.div_1_r, Nat2Z.id.
Qed.

Lemma in_range_coord i j :
  (i < Z.to_nat CANVAS_WIDTH)%nat -> (j < Z.to_nat CANVAS_HEIGHT)%nat ->
  in_range (coord i) (coord j) = true.
Proof.
  unfold CANVAS_WIDTH, CANVAS_HEIGHT. intros Hi Hj.
  unfold in_range, coord, num_lt, num_ge, Qle_bool, CANVAS_WIDTH, CANVAS_HEIGHT.
  cbn [Qnum Qden inject_Z]. rewrite !Z.mul_1_r.
  destruct (Z.leb_spec 0 (Z.of_nat i)); [|lia].
  destruct (Z.leb_spec 0 (Z.of_nat j)); [|lia].
  destruct (Z.leb_spec 100 (Z.of_nat i)); [lia|].
  destruct (Z.leb_spec 100 (Z.of_nat j)); [lia|]. reflexivity.
Qed.

Lemma canvas_set_dims cv y x c : canvas_dims cv -> canvas_dims (canvas_set cv y x c).
Proof.
  intros [D1 D2]. destruct (canvas_set_rows cv y x c) as [->|(j & r & Hr & ->)]; [done|].
  split; [by rewrite length_insert|]. apply Forall_insert; [done|].
  pose proof (Forall_lookup_1 _ _ _ _ D2 Hr) as Hlen. cbn beta in Hlen.
  destruct (row_set_cells r x c) as [->|(i & old & _ & ->)]; [done|].
  by rewrite length_insert.
Qed.

Lemma reachable_canvas_dims s : reachable s -> canvas_dims (canvasState s).
Proof.
  induction 1 as [|s fails e Hr IH _].
  - split; [apply length_replicate|]. apply Forall_replicate. apply length_replicate.
  - destruct (step_canvas fails e s (reachable_by_room_inv _ _ Hr))
      as [->|(sid & session & x & y & _ & ->)]; [done|by apply canvas_set_dims].
Qed.

Lemma canvas_set_coord cv i j row c :
  cv !! j = Some row -> (i < length (cells row))%nat ->
  canvas_set cv (coord j) (coord i) c
  = <[j := mkRow (<[i := c]> (cells row)) (props row)]> cv.
Proof.
  intros Hrow Hi. unfold canvas_set, row_set. rewrite !as_index_coord, Hrow.
  by rewrite decide_True.
Qed.

Lemma placed_scores_new old new sc :
  old <> new ->
  or_zero (scores_get new (placed_scores (Some old) new sc))
  = or_zero (scores_get new sc) + 1.
Proof.
  intros Hne. unfold placed_scores. cbn zeta. rewrite scores_get_set_eq. cbn [or_zero].
  destruct (_ && _); [|done]. cbn [color_key]. by rewrite scores_get_set_ne.
Qed.

Lemma placed_scores_old old new sc :
  old <> new -> old <> WHITE -> 0 <= or_zero (scores_get old sc) ->
  or_zero (scores_get old (placed_scores (Some old) new sc))
  = Z.max 0 (or_zero (scores_get old sc) - 1).
Proof.
  intros Hne Hw Hpos. unfold placed_scores. cbn zeta. cbn [color_key].
  rewrite scores_get_set_ne by done.
  apply same_color_false in Hw. rewrite Hw. cbn [negb andb].
  destruct (truthy (scores_get old sc)) eqn:Ht.
  - by rewrite scores_get_set_eq.
  - apply truthy_false_zero in Ht. rewrite Ht. reflexivity.
Qed.

Lemma placed_scores_other old new sc k :
  k <> new -> k <> old \/ old = WHITE ->
  scores_get k (placed_scores (Some old) new sc) = scores_get k sc.
Proof.
  intros Hne Hk. unfold placed_scores. cbn zeta. cbn [color_key].
  rewrite scores_get_set_ne by done.
  destruct (negb (same_color (Some old) WHITE) && _) eqn:Hc; [|done].
  apply andb_true_iff in Hc as [Hw _]. apply negb_true_iff, same_color_false in Hw.
  destruct Hk as [Hk|Hk]; [|done]. by rewrite scores_get_set_ne.
Qed.

(** X14.  What an applied placement does.  In a reachable room whose game
    is running, a request of a session for the cell in column [i] and
    row [j] of the grid, sent once the cooldown has elapsed and while the
    cell does not hold the session's colour, paints that cell in the
    session's colour and leaves every other cell as it was; the colour's
    score goes up by one, the score of the colour painted over (unless
    white) goes down by one but not below 0, and no other score changes;
    the session's last placement time becomes the time of the request and
    no other session object changes; every session registered is sent the
    pixel update with the new table; and the snapshot stored is exactly
    the room's canvas, table and clock. *)
Theorem placement_paints_one_cell fails sid session i j now s :
  reachable s ->
  heap s !! sid = Some session ->
  gameStarted s = true ->
  gameOver s = false ->
  (i < Z.to_nat CANVAS_WIDTH)%nat ->
  (j < Z.to_nat CANVAS_HEIGHT)%nat ->
  COOLDOWN_MS <= now - lastPlacement session ->
  cell (canvasState s) j i <> Some (color session) ->
  let new := color session in
  let r := onMessage fails sid
             (InPlacePixel (PayloadFields (JNumber (coord i)) (JNumber (coord j)))) now s in
  let s' := fst r in
  exists old,
    cell (canvasState s) j i = Some old /\
    cell (canvasState s') j i = Some new /\
    (forall j' i', (j', i') <> (j, i) ->
                   cell (canvasState s') j' i' = cell (canvasState s) j' i') /\
    or_zero (scores_get new (scores s')) = or_zero (scores_get new (scores s)) + 1 /\
    (old <> WHITE ->
     or_zero (scores_get old (scores s'))
     = Z.max 0 (or_zero (scores_get old (scores s)) - 1)) /\
    (forall k, k <> new -> k <> old \/ old = WHITE ->
               scores_get k (scores s') = scores_get k (scores s)) /\
    heap s' = <[sid := mkSession (ws session) (playerId session) new now]> (heap s) /\
    snd r = attempts fails (MsgPixelUpdate (coord i) (coord j) new (scores s'))
                     (heap s') (sessions s) /\
    st_canvasState (storage s') = Some (canvasState s') /\
    st_scores (storage s') = Some (scores s') /\
    st_timeLeft (storage s') = Some (timeLeft s) /\
    timeLeft s' = timeLeft s /\ timerInterval s' = timerInterval s /\
    gameStarted s' = true /\ gameOver s' = false.
Proof.
  intros Hr Hs Hg Ho Hi Hj Hcool Hcell. cbn zeta.
  destruct (reachable_canvas_dims s Hr) as [D1 D2].
  pose proof (inv_scores _ (reachable_by_room_inv _ _ Hr)) as Hwf.
  destruct (lookup_lt_is_Some_2 (canvasState s) j) as [row Hrow]; [lia|].
  pose proof (Forall_lookup_1 _ _ _ _ D2 Hrow) as Hlen. cbn beta in Hlen.
  destruct (lookup_lt_is_Some_2 (cells row) i) as [old Hold]; [lia|].
  assert (Hc : cell (canvasState s) j i = Some old).
  { unfold cell. rewrite Hrow. exact Hold. }
  assert (Hne : old <> color session) by (intros ->; by apply Hcell).
  assert (Hget : row_get row (coord i) = Some old).
  { unfold row_get. by rewrite as_index_coord, Hold. }
  apply same_color_false in Hne as Hsame.
  assert (Hrun :
    onMessage fails sid
      (InPlacePixel (PayloadFields (JNumber (coord i)) (JNumber (coord j)))) now s
    = (placed fails sid session (coord i) (coord j) (Some old) now s,
       attempts fails
         (MsgPixelUpdate (coord i) (coord j) (color session)
            (placed_scores (Some old) (color session) (scores s)))
         (<[sid := mkSession (ws session) (playerId session) (color session) now]>
            (heap s))
         (sessions s))).
  { unfold onMessage. rewrite Hs, Hg, Ho. cbn [negb orb].
    rewrite handlePlacePixel_valid by (by apply in_range_coord || done).
    unfold canvas_row. by rewrite as_index_coord, Hrow, Hget, Hsame. }
  rewrite Hrun. cbn [fst snd].
  unfold placed. cbn -[survivors placed_scores canvas_set attempts].
  rewrite (canvas_set_coord _ i j row) by (done || lia).
  exists old. split; [done|]. split.
  { unfold cell. rewrite list_lookup_insert_eq by (by eapply lookup_lt_Some).
    cbn. rewrite list_lookup_insert_eq by (by eapply lookup_lt_Some). done. }
  split.
  { intros j' i' Hdiff. unfold cell.
    destruct (decide (j = j')) as [<-|Hj'].
    - rewrite list_lookup_insert_eq by (by eapply lookup_lt_Some). rewrite Hrow. cbn.
      rewrite list_lookup_insert_ne; [done|]. intros <-. by apply Hdiff.
    - by rewrite list_lookup_insert_ne. }
  split; [by apply placed_scores_new|].
  split; [intros Hw; apply placed_scores_old; try done; by apply scores_get_nonneg|].
  split; [intros k Hk Hk'; by apply placed_scores_other|].
  done.
Qed.

Lemma placement_paints_one_cell_witness :
  cell (canvasState two_players) 4 3 = Some WHITE /\
  cell (canvasState
          (fst (onMessage no_failure 0%nat
                  (InPlacePixel (PayloadFields (JNumber (coord 3)) (JNumber (coord 4))))
                  5000 two_players))) 4 3 = Some "#FF0000".
Proof.
  assert (Hr : reachable two_players).
  { unfold two_players, one_player. repeat apply reachable_run. apply reach_first. }
  assert (Hs : heap two_players !! 0%nat = Some (mkSession 10%nat "alice" "#FF0000" 0))
    by (vm_compute; reflexivity).
  assert (Hc : cell (canvasState two_players) 4 3 = Some WHITE)
    by (vm_compute; reflexivity).
  destruct (placement_paints_one_cell no_failure 0%nat _ 3%nat 4%nat 5000 two_players
              Hr Hs) as (old & _ & Hnew & _).
  - vm_compute; reflexivity.
  - vm_compute; reflexivity.
  - vm_compute; lia.
  - vm_compute; lia.
  - vm_compute; discriminate.
  - rewrite Hc. discriminate.
  - split; [exact Hc|exact Hnew].
Defined.

(** ** The routers *)

Lemma params_get_set k v ps : params_get k (params_set k v ps) = Some v.
Proof.
  unfold params_get. induction ps as [|[k' v'] ps IH]; cbn.
  - by rewrite String.eqb_refl.
  - destruct (String.eqb k' k) eqn:E; cbn.
    + by rewrite String.eqb_refl.
    + by rewrite E.
Qed.

Lemma is_upgrade_websocket h : is_upgrade h = true <-> h = Some "websocket".
Proof.
  destruct h as [v|]; cbn; [|done]. split.
  - intros [_ Hv%String.eqb_eq]%andb_true_iff. by subst.
  - by intros [= ->].
Qed.

Lemma string_or_nonempty a b : a <> EmptyString -> string_or (Some a) b = a.
Proof.
  intros Ha. cbn. by destruct (String.eqb_spec a EmptyString).
Qed.

(** X15.  The routers hand a request to the room only when its Upgrade
    header is exactly [websocket]; any other request is answered without
    touching the room: 426 by functions/websocket.js and on the path
    /websocket of worker.js, 200 or 404 on the other paths of worker.js.
    A request that functions/websocket.js forwards is for the room a
    connection event, after an activation from the store when the object
    was not in memory, under the player id the router drew: a player id
    in the client's URL is overwritten, the branch of [GameRoom.fetch]
    that answers 426 and its own random player id are never used, and
    the response is 101 whether or not the room then admits the
    socket. *)
Theorem routers_forward_upgrades_only fails w uuid uuid_do r evicted req s :
  uuid <> EmptyString ->
  onRequest evicted (GameRoom_fetch fails w uuid_do r) uuid req s =
    (if is_upgrade (upgradeHeader req)
     then (step fails (if evicted then EReactivate w uuid r else EConnect w uuid r) s,
           mkResponse 101 (Some w))
     else ((s, []), mkResponse 426 None)) /\
  (is_upgrade (upgradeHeader req) = true <-> upgradeHeader req = Some "websocket") /\
  (forall room_fetch,
      (pathname req <> "/websocket" \/ upgradeHeader req <> Some "websocket" ->
       fst (Worker_fetch evicted room_fetch uuid req s) = (s, []) /\
       webSocket (snd (Worker_fetch evicted room_fetch uuid req s)) = None /\
       status (snd (Worker_fetch evicted room_fetch uuid req s))
       = (if String.eqb (pathname req) "/websocket" then 426
          else if String.eqb (pathname req) "/" then 200
          else if String.eqb (pathname req) "/client.js" then 200
          else if String.eqb (pathname req) "/style.css" then 200
          else 404)%nat) /\
      (pathname req = "/websocket" -> upgradeHeader req = Some "websocket" ->
       exists req',
         Worker_fetch evicted room_fetch uuid req s
         = room_fetch req' (if evicted then activate (storage s) else s) /\
         upgradeHeader req' = Some "websocket" /\
         params_get "playerId" (searchParams req') = Some uuid)).
Proof.
  intros Huuid. split; [|split; [apply is_upgrade_websocket|]].
  - unfold onRequest, stub_fetch, GameRoom_fetch.
    cbn [upgradeHeader searchParams].
    destruct (is_upgrade (upgradeHeader req)); [|done].
    rewrite params_get_set, string_or_nonempty by done.
    by destruct evicted.
  - intros room_fetch. split.
    + intros Hnot. unfold Worker_fetch, handleWebSocketConnection.
      destruct (String.eqb_spec (pathname req) "/websocket") as [Hp|Hp].
      * destruct Hnot as [Hnot|Hnot]; [done|].
        destruct (is_upgrade (upgradeHeader req)) eqn:Hup; [|done].
        by apply is_upgrade_websocket in Hup.
      * destruct (String.eqb (pathname req) "/"); [done|].
        destruct (String.eqb (pathname req) "/client.js"); [done|].
        by destruct (String.eqb (pathname req) "/style.css").
    + intros Hp Hup. unfold Worker_fetch, handleWebSocketConnection, stub_fetch.
      rewrite Hp, Hup. cbn [String.eqb Ascii.eqb Bool.eqb is_upgrade negb andb].
      eexists. split; [reflexivity|]. cbn [upgradeHeader searchParams].
      split; [done|apply params_get_set].
Qed.

Lemma routers_forward_upgrades_only_witness :
  onRequest false (GameRoom_fetch no_failure 12%nat "d0" 0) "u1" browser_request
            two_players
  = (step no_failure (EConnect 12%nat "u1" 0) two_players, mkResponse 101 (Some 12%nat)).
Proof.
  assert (Hne : "u1" <> EmptyString) by discriminate.
  destruct (routers_forward_upgrades_only no_failure 12%nat "u1" "d0" 0 false
              browser_request two_players Hne) as (H1 & _).
  exact H1.
Defined.

(** ** The client's click *)

Lemma attempts_no_error fails m hp arr :
  is_error (Sent 0%nat m) = false ->
  existsb is_error (attempts fails m hp arr) = false.
Proof.
  intros Hm. unfold attempts. induction arr as [|sid arr IH]; [done|]. cbn.
  destruct (hp !! sid) as [session|]; cbn; [|done].
  destruct (fails (ws session)); cbn; by destruct m.
Qed.

Lemma floor_in_range q :
  num_lt (js_floor (Finite q)) 0 = false ->
  num_ge (js_floor (Finite q)) CANVAS_WIDTH = false ->
  exists i, (i < Z.to_nat CANVAS_WIDTH)%nat /\ js_floor (Finite q) = coord i.
Proof.
  unfold js_floor, num_lt, num_ge, Qle_bool, CANVAS_WIDTH. cbn [Qnum Qden inject_Z].
  rewrite !Z.mul_1_r, negb_false_iff. intros Hlo%Z.leb_le Hhi%Z.leb_gt.
  exists (Z.to_nat (Qfloor q)). split; [lia|].
  unfold coord. by rewrite Z2Nat.id.
Qed.

Lemma num_integral_coord n : num_integral (coord n) = true.
Proof.
  unfold num_integral, coord, is_integer. cbn [Qnum Qden inject_Z].
  by rewrite Z.mod_1_r.
Qed.

(** The room's answers to a request for a cell of the grid hold no
    error. *)
Lemma onMessage_cell_no_error fails sid i j now s :
  canvas_dims (canvasState s) ->
  (i < Z.to_nat CANVAS_WIDTH)%nat -> (j < Z.to_nat CANVAS_HEIGHT)%nat ->
  existsb is_error
    (snd (onMessage fails sid
            (InPlacePixel (PayloadFields (JNumber (coord i)) (JNumber (coord j)))) now s))
  = false.
Proof.
  intros [D1 D2] Hi Hj. unfold onMessage.
  destruct (heap s !! sid) as [session|]; [|done].
  destruct (negb (gameStarted s) || gameOver s); [done|].
  destruct (Z.ltb_spec (now - lastPlacement session) COOLDOWN_MS) as [Hc|Hc].
  - by rewrite handlePlacePixel_cooldown by (by apply in_range_coord || done).
  - rewrite handlePlacePixel_valid by (by apply in_range_coord || done).
    unfold canvas_row. rewrite as_index_coord.
    destruct (lookup_lt_is_Some_2 (canvasState s) j) as [row ->]; [lia|].
    destruct (same_color _ _); [done|]. cbn [snd]. by apply attempts_no_error.
Qed.

(** X16.  The click handler of the shipped client sends a request only
    when connected and off cooldown.  Unless one of the two numbers it
    floors is NaN, the request names a cell of the grid by integer
    coordinates below 100; the room of a reachable state never answers
    it with an error, and it is a request with integer coordinates as
    the accounting of scores needs.  When one of the numbers is NaN the
    client's own range check lets it through, the request reaches the
    room with [null] in its place, and a running room answers
    "Invalid coordinates." and stays as it is. *)
Theorem client_click_is_a_valid_request connected cooldown qx qy m :
  handleCanvasClick connected cooldown qx qy = Some m ->
  connected = true /\ cooldown = false /\
  (qx <> NaN -> qy <> NaN ->
   (exists i j,
       (i < Z.to_nat CANVAS_WIDTH)%nat /\ (j < Z.to_nat CANVAS_HEIGHT)%nat /\
       js_floor qx = coord i /\ js_floor qy = coord j /\
       m = InPlacePixel (PayloadFields (JNumber (coord i)) (JNumber (coord j)))) /\
   (forall sid now, integral_coordinates (EMessage sid m now)) /\
   (forall fails sid now s,
       reachable s -> existsb is_error (snd (onMessage fails sid m now s)) = false)) /\
  (qx = NaN \/ qy = NaN ->
   forall fails sid session now s,
     heap s !! sid = Some session -> gameStarted s = true -> gameOver s = false ->
     onMessage fails sid m now s
     = (s, [Sent (ws session) (MsgError "Invalid coordinates.")])).
Proof.
  unfold handleCanvasClick.
  destruct connected; [|discriminate]. destruct cooldown; [discriminate|].
  cbn [negb]. cbn zeta.
  destruct (num_lt (js_floor qx) 0 || _ || _ || _) eqn:Hcheck; [discriminate|].
  apply orb_false_iff in Hcheck as [Hcheck Hy1].
  apply orb_false_iff in Hcheck as [Hcheck Hy0].
  apply orb_false_iff in Hcheck as [Hx0 Hx1].
  intros [= <-]. do 2 (split; [done|]). split.
  - intros Hqx Hqy.
    destruct qx as [qx| | |]; try discriminate; [|done].
    destruct qy as [qy| | |]; try discriminate; [|done].
    destruct (floor_in_range qx Hx0 Hx1) as (i & Hi & Ei).
    destruct (floor_in_range qy Hy0 Hy1) as (j & Hj & Ej).
    rewrite Ei, Ej.
    change (json_number (coord i)) with (JNumber (coord i)).
    change (json_number (coord j)) with (JNumber (coord j)).
    split; [by exists i, j|]. split.
    + intros sid now. unfold integral_coordinates.
      split; apply num_integral_coord.
    + intros fails sid now s Hr. apply onMessage_cell_no_error; try done.
      by apply reachable_canvas_dims.
  - intros Hnan fails sid session now s Hs Hg Ho.
    unfold onMessage. rewrite Hs, Hg, Ho. cbn [negb orb].
    destruct Hnan as [-> | ->]; cbn [js_floor json_number handlePlacePixel]; [done|].
    by destruct (json_number (js_floor qx)).
Qed.

Lemma client_click_is_a_valid_request_witness :
  handleCanvasClick true false (Finite (17 # 5)) (Finite (49 # 10)) = Some (pixel 3 4) /\
  existsb is_error (snd (onMessage no_failure 0%nat (pixel 3 4) 5000 two_players)) = false.
Proof.
  assert (Hc : handleCanvasClick true false (Finite (17 # 5)) (Finite (49 # 10))
               = Some (pixel 3 4)) by (vm_compute; reflexivity).
  assert (Hr : reachable two_players).
  { unfold two_players, one_player. repeat apply reachable_run. apply reach_first. }
  destruct (client_click_is_a_valid_request _ _ _ _ _ Hc) as (_ & _ & Hfin & _).
  destruct (Hfin ltac:(discriminate) ltac:(discriminate)) as (_ & _ & Hno).
  split; [exact Hc|]. by apply Hno.
Defined.

(** ** The colour parameter of worker.js *)




(** ** Requests with a coordinate that is not an integer *)

Lemma as_index_fractional n : num_integral n = false -> as_index n = None.
Proof.
  destruct n as [q| | |]; cbn; try done. by intros ->.
Qed.

(** Every colour a session object holds was returned by [assignColor]. *)
Lemma heap_colors_step (P : string -> Prop) fails e s :
  (forall r s0, P (assignColor r s0)) ->
  Forall (fun x => P (color x)) (heap s) ->
  Forall (fun x => P (color x)) (heap (fst (step fails e s))).
Proof.
  intros HP Hall.
  assert (Hjoin : forall w pid r s0,
             Forall (fun x => P (color x)) (heap s0) ->
             Forall (fun x => P (color x))
                    (heap (fst (handleSession fails w pid (assignColor r s0) s0)))).
  { intros w pid r s0 H0.
    destruct (Nat.leb_spec MAX_PLAYERS_PER_ROOM (length (sessions s0))) as [Hfull|Hroom].
    { by rewrite handleSession_rejected by (by left). }
    destruct (gameOver s0) eqn:Hover.
    { by rewrite handleSession_rejected by (by right). }
    destruct (handleSession_fields fails w pid (assignColor r s0) s0 Hroom Hover)
      as (-> & _).
    apply Forall_app. split; [done|]. apply Forall_singleton. apply HP. }
  destruct e as [w pid r|sid m now|sid| |w pid r]; cbn [step].
  - by apply Hjoin.
  - destruct (onMessage_cases fails sid m now s)
      as [-> | (session & x & y & row & Hs & _ & _ & _ & _ & _ & _ & _ & ->)];
      [done|].
    unfold placed. cbn -[survivors]. apply Forall_insert; [done|]. cbn [color].
    by apply (Forall_lookup_1 _ _ _ _ Hall Hs).
  - destruct (heap s !! sid); [|done]. unfold closeOrErrorHandler.
    by destruct (_ && _).
  - destruct (timerInterval s); [|done]. rewrite tick_eq. destruct (0 <? timeLeft s).
    + cbn zeta. cbn [fst]. by destruct (Z.rem (timeLeft s - 1) 10 =? 0).
    + by rewrite endGame_eq.
  - unfold fetch. apply Hjoin.
    destruct (loadState_fields (storage s)) as (_ & -> & _). constructor.
Qed.

Lemma assignColor_not_undefined r s : assignColor r s <> "undefined".
Proof.
  unfold assignColor.
  destruct (List.find _ PLAYER_COLORS) as [c|] eqn:Hf; [|discriminate].
  apply find_some in Hf as [Hin _]. cbn in Hin.
  repeat (destruct Hin as [<-|Hin]; [discriminate|]). destruct Hin.
Qed.

Lemma reachable_colors_defined s :
  reachable s -> Forall (fun x => color x <> "undefined") (heap s).
Proof.
  induction 1 as [|s fails e _ IH _]; [constructor|].
  apply (heap_colors_step (fun c => c <> "undefined")); [|done].
  apply assignColor_not_undefined.
Qed.

Lemma placed_scores_gain old new sc :
  color_key old <> new ->
  or_zero (scores_get new (placed_scores old new sc)) = or_zero (scores_get new sc) + 1.
Proof.
  intros Hne. unfold placed_scores. cbn zeta. rewrite scores_get_set_eq. cbn [or_zero].
  destruct (_ && _); [|done]. by rewrite scores_get_set_ne.
Qed.

(** X18.  The coordinate check admits numbers that are not integers.  In
    a running reachable room, a request whose column [x] passes the
    check but is not an integer, for a row [j] of the grid and sent once
    the cooldown has elapsed, reads and writes the property [x] of the
    row, never a cell: unless that property already holds the session's
    colour (then nothing happens), every cell of the grid and every
    colour's cell count stay as they were while the session's score goes
    up by one and the pixel update is broadcast.  A request whose row
    [y] passes the check but is not an integer finds no row, and is
    answered "Invalid message format." with the room unchanged. *)
Theorem fractional_column_scores_without_painting fails sid session x j now s :
  reachable s ->
  heap s !! sid = Some session ->
  gameStarted s = true ->
  gameOver s = false ->
  num_integral x = false ->
  in_range x (coord j) = true ->
  COOLDOWN_MS <= now - lastPlacement session ->
  let r := onMessage fails sid
             (InPlacePixel (PayloadFields (JNumber x) (JNumber (coord j)))) now s in
  (exists row,
      canvasState s !! j = Some row /\
      (props_get x (props row) = Some (color session) -> r = (s, [])) /\
      (props_get x (props row) <> Some (color session) ->
       (forall j' i', cell (canvasState (fst r)) j' i' = cell (canvasState s) j' i') /\
       (forall c, painted c (canvasState (fst r)) = painted c (canvasState s)) /\
       or_zero (scores_get (color session) (scores (fst r)))
       = or_zero (scores_get (color session) (scores s)) + 1 /\
       lastPlacement <$> heap (fst r) !! sid = Some now /\
       snd r = attempts fails
                 (MsgPixelUpdate x (coord j) (color session) (scores (fst r)))
                 (heap (fst r)) (sessions s))) /\
  (forall x0 y,
      num_integral y = false -> in_range x0 y = true ->
      onMessage fails sid (InPlacePixel (PayloadFields (JNumber x0) (JNumber y))) now s
      = (s, [Sent (ws session) (MsgError "Invalid message format.")])).
Proof.
  intros Hr Hs Hg Ho Hfrac Hrange Hcool. cbn zeta.
  destruct (reachable_canvas_dims s Hr) as [D1 D2].
  pose proof (in_range_bounds _ _ Hrange) as (_ & _ & Hy0 & Hy1).
  destruct (valid_index (coord j) CANVAS_HEIGHT eq_refl (num_integral_coord j) Hy0 Hy1)
    as (j0 & Hj0 & Hj).
  rewrite as_index_coord in Hj0. injection Hj0 as <-.
  destruct (lookup_lt_is_Some_2 (canvasState s) j) as [row Hrow]; [lia|].
  pose proof (as_index_fractional x Hfrac) as Hx.
  assert (Hget : row_get row x = props_get x (props row)).
  { unfold row_get. by rewrite Hx. }
  split.
  - exists row. split; [done|].
    unfold onMessage. rewrite Hs, Hg, Ho. cbn [negb orb].
    rewrite handlePlacePixel_valid by done.
    unfold canvas_row. rewrite as_index_coord, Hrow, Hget. split.
    + intros ->. cbn [same_color]. by rewrite String.eqb_refl.
    + intros Hold.
      assert (Hsame : same_color (props_get x (props row)) (color session) = false).
      { destruct (props_get x (props row)) as [c|]; [|done].
        apply same_color_false. congruence. }
      rewrite Hsame. cbn [fst snd]. unfold placed.
      cbn -[survivors placed_scores canvas_set attempts painted cell].
      assert (Hset : canvas_set (canvasState s) (coord j) x (color session)
                     = <[j := mkRow (cells row)
                                    (props_set x (color session) (props row))]>
                         (canvasState s)).
      { unfold canvas_set, row_set. by rewrite as_index_coord, Hrow, Hx. }
      rewrite Hset. split; [|split; [|split; [|split]]].
      * intros j' i'. unfold cell. destruct (decide (j = j')) as [<-|Hne].
        -- rewrite list_lookup_insert_eq by (by eapply lookup_lt_Some).
           by rewrite Hrow.
        -- by rewrite list_lookup_insert_ne.
      * intros c.
        pose proof (painted_insert c (canvasState s) j row
                      (mkRow (cells row) (props_set x (color session) (props row)))
                      Hrow) as Hp.
        cbn [cells] in Hp. lia.
      * apply placed_scores_gain.
        destruct (props_get x (props row)) as [c|]; cbn [color_key]; [congruence|].
        intros Hu. symmetry in Hu. revert Hu.
        apply (Forall_lookup_1 _ _ _ _ (reachable_colors_defined s Hr) Hs).
      * by rewrite list_lookup_insert_eq by (by eapply lookup_lt_Some).
      * done.
  - intros x0 y Hy Hr'. unfold onMessage. rewrite Hs, Hg, Ho. cbn [negb orb].
    rewrite handlePlacePixel_valid by done.
    unfold canvas_row. by rewrite (as_index_fractional y Hy).
Qed.

Lemma fractional_column_scores_without_painting_witness :
  painted "#FF0000"
    (canvasState (fst (onMessage no_failure 0%nat
       (InPlacePixel (PayloadFields (JNumber (Finite (3 # 2))) (JNumber (coord 0))))
       5000 two_players)))
  = painted "#FF0000" (canvasState two_players) /\
  or_zero (scores_get "#FF0000"
    (scores (fst (onMessage no_failure 0%nat
       (InPlacePixel (PayloadFields (JNumber (Finite (3 # 2))) (JNumber (coord 0))))
       5000 two_players))))
  = or_zero (scores_get "#FF0000" (scores two_players)) + 1.
Proof.
  assert (Hr : reachable two_players).
  { unfold two_players, one_player. repeat apply reachable_run. apply reach_first. }
  assert (Hs : heap two_players !! 0%nat = Some (mkSession 10%nat "alice" "#FF0000" 0))
    by (vm_compute; reflexivity).
  destruct (fractional_column_scores_without_painting no_failure 0%nat _
              (Finite (3 # 2)) 0%nat 5000 two_players Hr Hs)
    as [(row & Hrow & _ & Happlied) _].
  - vm_compute; reflexivity.
  - vm_compute; reflexivity.
  - vm_compute; reflexivity.
  - vm_compute; reflexivity.
  - vm_compute; discriminate.
  - assert (Hrow0 : canvasState two_players !! 0%nat
                    = Some (mkRow (replicate 100 WHITE) []))
      by (vm_compute; reflexivity).
    rewrite Hrow0 in Hrow. injection Hrow as <-.
    destruct Happlied as (_ & Hp & Hsc & _); [discriminate|].
    split; [exact (Hp "#FF0000")|exact Hsc].
Defined.
